(** * The island evolver of [openevolve-runner.py]

    A shallow embedding of [SimpleEvolver] and of the checkpoint code of
    [run_evolution] / [continue_evolution], followed by the properties
    proved about them.

    Modelling conventions.
    - Python [int] is [Z]; [//] and [%] are [Z.div] and [Z.modulo], which
      round the same way (towards minus infinity).
    - Python [float] is [Q] with exact arithmetic: the scores handled here
      are short sums of the literals 0.5, 0.1, 0.02, 0.05, and the order
      tests that decide control flow ([== 0.0], [> best], [< rate]) are the
      ones of the rationals.
    - Python [str] is [string], read as ASCII text.
    - [Candidate] objects are mutable and shared (an elite is the same
      object in the old and the new island, a migrant is the same object in
      two islands, [best_candidate] points into an island): they live in a
      heap, a list of cells indexed by address, and islands hold addresses.
    - The [random] module is a stream of integer draws with a cursor.
    - A raised exception is the [Raise] result. *)

From Stdlib Require Import ZArith QArith Lqa String Ascii DecimalString List Bool Lia Sorted.
From stdpp Require Import base list strings gmap.

Set Warnings "-register-all".

Open Scope string_scope.
Open Scope Z_scope.
Open Scope list_scope.

(** ** Exceptions *)

Inductive PyError : Type :=
  | ValueError
  | IndexError
  | ZeroDivisionError
  | KeyError
  | TypeError
  | UnboundLocalError.

Inductive Result (A : Type) : Type :=
  | Ok (a : A)
  | Raise (e : PyError).

Arguments Ok {A} a.
Arguments Raise {A} e.

#[global] Instance Result_ret : MRet Result := fun A a => Ok a.
#[global] Instance Result_bind : MBind Result := fun A B f m =>
  match m with
  | Ok a => f a
  | Raise e => Raise e
  end.

(** ** Floats as rationals *)

Definition Qlt_bool (x y : Q) : bool := negb (Qle_bool y x).

(** [min(a, b)] of Python: the first argument unless the second is smaller. *)
Definition py_min (a b : Q) : Q := if Qlt_bool b a then b else a.

(** [max(a, b)] on integers. *)
Definition py_max (a b : Z) : Z := if a <? b then b else a.

(** ** Strings *)

(** Whitespace of [str.split()] and [str.strip()] in the ASCII range. *)
Definition is_space (c : ascii) : bool :=
  let n := nat_of_ascii c in
  ((9 <=? n)%nat && (n <=? 13)%nat) || ((28 <=? n)%nat && (n <=? 32)%nat).

Fixpoint split_go (cur : list ascii) (s : string) : list string :=
  match s with
  | EmptyString =>
      match cur with
      | [] => []
      | _ => [string_of_list_ascii (rev cur)]
      end
  | String c s' =>
      if is_space c then
        match cur with
        | [] => split_go [] s'
        | _ => string_of_list_ascii (rev cur) :: split_go [] s'
        end
      else split_go (c :: cur) s'
  end.

(** [s.split()]: the maximal runs of non-whitespace characters. *)
Definition split (s : string) : list string := split_go [] s.

(** [sep.join(ws)]. *)
Fixpoint join (sep : string) (ws : list string) : string :=
  match ws with
  | [] => ""
  | [w] => w
  | w :: ws' => w +:+ sep +:+ join sep ws'
  end.

Fixpoint lstrip (s : string) : string :=
  match s with
  | EmptyString => EmptyString
  | String c s' => if is_space c then lstrip s' else s
  end.

Definition rev_string (s : string) : string :=
  string_of_list_ascii (rev (list_ascii_of_string s)).

(** [s.strip()]. *)
Definition strip (s : string) : string :=
  rev_string (lstrip (rev_string (lstrip s))).

(** [s.replace("  ", " ")]: left to right, occurrences do not overlap. *)
Fixpoint replace_double_space (s : string) : string :=
  match s with
  | EmptyString => EmptyString
  | String c s' =>
      match s' with
      | String c' s'' =>
          if (Ascii.eqb c " " && Ascii.eqb c' " ")%bool
          then String " " (replace_double_space s'')
          else String c (replace_double_space s')
      | EmptyString => s
      end
  end.

Definition lower_ascii (c : ascii) : ascii :=
  let n := nat_of_ascii c in
  if ((65 <=? n)%nat && (n <=? 90)%nat)%bool then ascii_of_nat (n + 32) else c.

(** [s.lower()]. *)
Fixpoint lower (s : string) : string :=
  match s with
  | EmptyString => EmptyString
  | String c s' => String (lower_ascii c) (lower s')
  end.

(** [p in s] for strings. *)
Fixpoint contains (p s : string) : bool :=
  if String.prefix p s then true
  else
    match s with
    | EmptyString => false
    | String _ s' => contains p s'
    end.

(** [str(n)] as an f-string prints it. *)
Definition str_of_Z (n : Z) : string := NilZero.string_of_int (Z.to_int n).

(** [words.insert(pos, w)] for [0 <= pos]. *)
Definition list_insert_at {A} (pos : nat) (w : A) (l : list A) : list A :=
  take pos l ++ w :: drop pos l.

(** Truth value of an optional string ([None] and [""] are false). *)
Definition truthy (o : option string) : bool :=
  match o with
  | Some s => negb (String.eqb s "")
  | None => false
  end.

(** ** The [random] module *)

Record RNG : Type := mkRNG { draws : nat -> Z; cursor : nat }.

Definition next_draw (r : RNG) : Z * RNG :=
  (draws r (cursor r), mkRNG (draws r) (S (cursor r))).

(** A uniform integer in [0, n). *)
Definition randbelow (n : Z) (r : RNG) : Z * RNG :=
  let (d, r') := next_draw r in (d mod n, r').

(** [random.random()]: a multiple of 2^-53 in [0, 1). *)
Definition random (r : RNG) : Q * RNG :=
  let (d, r') := next_draw r in
  (Qmake (d mod 9007199254740992) 9007199254740992, r').

(** [random.randint(a, b)]. *)
Definition randint (a b : Z) (r : RNG) : Z * RNG :=
  let (k, r') := randbelow (b - a + 1) r in (a + k, r').

(** [random.choice(seq)]: [IndexError] on an empty sequence. *)
Definition choice {A} (l : list A) (r : RNG) : Result (A * RNG) :=
  match l with
  | [] => Raise IndexError
  | _ =>
      let (k, r') := randbelow (Z.of_nat (List.length l)) r in
      match l !! Z.to_nat k with
      | Some x => Ok (x, r')
      | None => Raise IndexError
      end
  end.

(** [random.sample(population, 2)]: [ValueError] when the population has
    fewer than two elements; otherwise two distinct positions, drawn from a
    pool whose chosen slot is refilled with the last one. *)
Definition sample2 {A} (l : list A) (r : RNG) : Result (A * A * RNG) :=
  let n := List.length l in
  if (n <? 2)%nat then Raise ValueError
  else
    let (j1, r1) := randbelow (Z.of_nat n) r in
    let (j2, r2) := randbelow (Z.of_nat n - 1) r1 in
    match l !! Z.to_nat j1, l !! (n - 1)%nat with
    | Some x1, Some last =>
        match <[Z.to_nat j1 := last]> l !! Z.to_nat j2 with
        | Some x2 => Ok (x1, x2, r2)
        | None => Raise IndexError
        end
    | _, _ => Raise IndexError
    end.

(** ** Data classes *)

Module Candidate.
Record t : Type := mk {
  id : string;
  content : string;
  fitness : Q;
  novelty : Q;
  generation : Z;
  parent_id : option string;
  mutation_type : option string
}.

Definition set_fitness (c : t) (f : Q) : t :=
  mk (id c) (content c) f (novelty c) (generation c) (parent_id c) (mutation_type c).

Definition set_novelty (c : t) (n : Q) : t :=
  mk (id c) (content c) (fitness c) n (generation c) (parent_id c) (mutation_type c).

(** The value read through a reference that points at no cell. *)
Definition blank : t := mk "" "" 0 0 0 None None.
End Candidate.

Module GenerationStats.
Record t : Type := mk {
  generation : Z;
  best_fitness : Q;
  avg_fitness : Q;
  diversity : Q;
  population_size : Z;
  improvements : Z
}.
End GenerationStats.

(** ** The object store *)

Abbreviation addr := nat.
Abbreviation Heap := (list Candidate.t).

Definition deref (h : Heap) (a : addr) : Candidate.t :=
  default Candidate.blank (h !! a).

(** A freshly constructed object gets the next address. *)
Definition alloc (h : Heap) (c : Candidate.t) : addr * Heap :=
  (List.length h, h ++ [c]).

Definition fitness_at (h : Heap) (a : addr) : Q := Candidate.fitness (deref h a).

(** ** [SimpleEvolver] *)

Module SimpleEvolver.
Record t : Type := mk {
  seed : string;
  evaluation_criteria : string;
  population_size : Z;
  num_islands : Z;
  mutation_model : string;
  evaluation_model : string;
  elitism : bool;
  crossover_rate : Q;
  mutation_rate : Q;
  islands : list (list addr);
  generation : Z;
  best_candidate : option addr;
  history : list GenerationStats.t;
  total_evaluations : Z
}.

(** [self.generation = g]. *)
Definition set_generation (sv : t) (g : Z) : t :=
  mk (seed sv) (evaluation_criteria sv) (population_size sv) (num_islands sv)
    (mutation_model sv) (evaluation_model sv) (elitism sv) (crossover_rate sv)
    (mutation_rate sv) (islands sv) g (best_candidate sv) (history sv)
    (total_evaluations sv).
End SimpleEvolver.

Import SimpleEvolver.

(** The interpreter state a method call works on. *)
Record Process : Type := mkProcess {
  self : SimpleEvolver.t;
  heap : Heap;
  rng : RNG
}.

(** ** Text mutations *)

(** [_swap_words]: exchange two randomly chosen words. *)
Definition _swap_words (text : string) (r : RNG) : Result (string * RNG) :=
  let words := split text in
  if (List.length words <? 2)%nat then Ok (text, r)
  else
    '(i, j, r') ← sample2 (seq 0 (List.length words)) r;
    let wi := default "" (words !! i) in
    let wj := default "" (words !! j) in
    Ok (join " " (<[j := wi]> (<[i := wj]> words)), r').

Definition phrases : list string :=
  ["Additionally,"; "Furthermore,"; "Moreover,"; "In particular,"; "Specifically,"].

(** [_insert_phrase]: insert one of the stock phrases at a random word
    position. *)
Definition _insert_phrase (text : string) (r : RNG) : Result (string * RNG) :=
  let words := split text in
  match words with
  | [] => Ok (text, r)
  | _ =>
      let (pos, r1) := randint 0 (Z.of_nat (List.length words)) r in
      '(phrase, r2) ← choice phrases r1;
      Ok (join " " (list_insert_at (Z.to_nat pos) phrase words), r2)
  end.

Definition LF : string := String (ascii_of_nat 10) EmptyString.

(** The five closures of [_mutate_text], in source order. *)
Definition mutations : list (string -> RNG -> Result (string * RNG)) :=
  [ (fun t r => Ok (replace_double_space t, r));
    (fun t r => Ok (t +:+ LF, r));
    (fun t r => Ok (strip t, r));
    _swap_words;
    _insert_phrase ].

(** [_mutate_text]: one randomly chosen mutation applied to the text. *)
Definition _mutate_text (text : string) (r : RNG) : Result (string * RNG) :=
  '(m, r') ← choice mutations r;
  m text r'.

(** ** Construction *)

(** The body of [_create_initial_population]'s loop, for the remaining
    [todo] values of [i]. *)
Fixpoint create_population_loop (todo : nat) (i : Z) (sd : string)
    (population : list addr) (h : Heap) (r : RNG)
    : Result (list addr * Heap * RNG) :=
  match todo with
  | O => Ok (population, h, r)
  | S todo' =>
      '(text, r') ← (if 0 <? i then _mutate_text sd r else Ok (sd, r));
      let c :=
        Candidate.mk
          ("gen0_island" +:+ str_of_Z (Z.of_nat (List.length population))
             +:+ "_" +:+ str_of_Z i)
          text 0 0 0 None None in
      let (a, h') := alloc h c in
      create_population_loop todo' (i + 1) sd (population ++ [a]) h' r'
  end.

(** [//] raises on a zero divisor. *)
Definition floordiv (a b : Z) : Result Z :=
  if b =? 0 then Raise ZeroDivisionError else Ok (a / b).

Definition _create_initial_population (sd : string) (pop_size n_islands : Z)
    (h : Heap) (r : RNG) : Result (list addr * Heap * RNG) :=
  n ← floordiv pop_size n_islands;
  create_population_loop (Z.to_nat n) 0 sd [] h r.

(** The list comprehension of [__init__]: one population per value of
    [range(num_islands)]. *)
Fixpoint create_islands (todo : nat) (sd : string) (pop_size n_islands : Z)
    (h : Heap) (r : RNG) : Result (list (list addr) * Heap * RNG) :=
  match todo with
  | O => Ok ([], h, r)
  | S todo' =>
      '(island, h1, r1) ← _create_initial_population sd pop_size n_islands h r;
      '(rest, h2, r2) ← create_islands todo' sd pop_size n_islands h1 r1;
      Ok (island :: rest, h2, r2)
  end.

(** The keyword arguments of [SimpleEvolver(...)]. *)
Record InitArgs : Type := mkInitArgs {
  a_seed : string;
  a_evaluation_criteria : string;
  a_population_size : Z;
  a_num_islands : Z;
  a_mutation_model : string;
  a_evaluation_model : string;
  a_elitism : bool;
  a_crossover_rate : Q;
  a_mutation_rate : Q
}.

(** [SimpleEvolver.__init__]. *)
Definition __init__ (args : InitArgs) (h : Heap) (r : RNG) : Result Process :=
  '(isl, h', r') ←
    create_islands (Z.to_nat (a_num_islands args)) (a_seed args)
      (a_population_size args) (a_num_islands args) h r;
  Ok (mkProcess
        (SimpleEvolver.mk (a_seed args) (a_evaluation_criteria args)
           (a_population_size args) (a_num_islands args)
           (a_mutation_model args) (a_evaluation_model args)
           (a_elitism args) (a_crossover_rate args) (a_mutation_rate args)
           isl 0 None [] 0)
        h' r').

(** ** Fitness *)

Definition markers : list string := ["step"; "1."; "first"; "then"].

(** [_evaluate]: the heuristic score of a candidate. The increment of
    [total_evaluations] that the method also performs is done by its one
    caller, [evaluate_all]. *)
Definition _evaluate (criteria : string) (candidate : Candidate.t) : Q :=
  let score := (1 # 2)%Q in
  let content := lower (Candidate.content candidate) in
  let len := String.length content in
  let score :=
    if ((100 <? len)%nat && (len <? 5000)%nat)%bool then (score + (1 # 10))%Q else score in
  let score :=
    if ((500 <? len)%nat && (len <? 2000)%nat)%bool then (score + (1 # 10))%Q else score in
  let score :=
    if existsb (fun marker => contains marker content) markers
    then (score + (1 # 10))%Q else score in
  let criteria_words := split (lower criteria) in
  let matches :=
    List.length (List.filter (fun word => contains word content) criteria_words) in
  let score :=
    (score + py_min (2 # 10) (inject_Z (Z.of_nat matches) * (2 # 100)))%Q in
  let score :=
    if truthy (Candidate.parent_id candidate) then (score + (5 # 100))%Q else score in
  py_min score 1.

(** ** Offspring *)

(** [_crossover]: a single cut, at half the word count of the shorter
    parent. *)
Definition _crossover (gen : Z) (parent1 parent2 : Candidate.t) (r : RNG)
    : Candidate.t * RNG :=
  let words1 := split (Candidate.content parent1) in
  let words2 := split (Candidate.content parent2) in
  let point := (Nat.min (List.length words1) (List.length words2) / 2)%nat in
  let child_words := take point words1 ++ drop point words2 in
  let (k, r') := randint 0 9999 r in
  (Candidate.mk ("gen" +:+ str_of_Z gen +:+ "_cross_" +:+ str_of_Z k)
     (join " " child_words) 0 0 gen
     (Some (Candidate.id parent1)) (Some "crossover"),
   r').

(** [_mutate]: the id is formatted (one draw) before the text is mutated. *)
Definition _mutate (gen : Z) (parent : Candidate.t) (r : RNG)
    : Result (Candidate.t * RNG) :=
  let (k, r1) := randint 0 9999 r in
  '(text, r2) ← _mutate_text (Candidate.content parent) r1;
  Ok (Candidate.mk ("gen" +:+ str_of_Z gen +:+ "_mut_" +:+ str_of_Z k)
        text 0 0 gen
        (Some (Candidate.id parent)) (Some "point"),
      r2).

(** ** One generation *)

(** What the island loop of [evolve_generation] reads and writes: the
    heap, the random stream, [self.best_candidate], the local counter
    [improvements] and [self.total_evaluations]. *)
Record Loop : Type := mkLoop {
  l_heap : Heap;
  l_rng : RNG;
  l_best : option addr;
  l_improvements : Z;
  l_evals : Z
}.

(** [for candidate in island: if candidate.fitness == 0.0: ...]. *)
Fixpoint evaluate_all (criteria : string) (island : list addr) (h : Heap) (evals : Z)
    : Heap * Z :=
  match island with
  | [] => (h, evals)
  | a :: rest =>
      let c := deref h a in
      if Qeq_bool (Candidate.fitness c) 0
      then evaluate_all criteria rest
             (<[a := Candidate.set_fitness c (_evaluate criteria c)]> h) (evals + 1)
      else evaluate_all criteria rest h evals
  end.

(** [list.sort(key=..., reverse=True)] is stable: among equal keys the
    earlier element stays first. *)
Fixpoint insert_desc (key : addr -> Q) (a : addr) (l : list addr) : list addr :=
  match l with
  | [] => [a]
  | b :: l' =>
      if Qle_bool (key b) (key a) then a :: b :: l' else b :: insert_desc key a l'
  end.

Definition sort_desc (key : addr -> Q) (l : list addr) : list addr :=
  foldr (insert_desc key) [] l.

(** Fitness of the best candidate so far, [0] when there is none. *)
Definition best_fitness_of (h : Heap) (best : option addr) : Q :=
  match best with
  | Some b => fitness_at h b
  | None => 0%Q
  end.

(** "Track best": [island[0]] raises on an empty island. *)
Definition track_best (island : list addr) (lp : Loop) : Result Loop :=
  match island with
  | [] => Raise IndexError
  | top :: _ =>
      if Qlt_bool (best_fitness_of (l_heap lp) (l_best lp)) (fitness_at (l_heap lp) top)
      then Ok (mkLoop (l_heap lp) (l_rng lp) (Some top) (l_improvements lp + 1) (l_evals lp))
      else Ok lp
  end.

(** [island[:len(island)//2]]. *)
Definition fitter_half (island : list addr) : list addr :=
  take (List.length island / 2)%nat island.

(** One pass through the body of the [while] loop: a crossover of two
    parents sampled from the fitter half, or a mutation of one. *)
Definition make_child (sv : SimpleEvolver.t) (island : list addr) (h : Heap) (r : RNG)
    : Result (Candidate.t * RNG) :=
  let (u, r0) := random r in
  if (Qlt_bool u (crossover_rate sv) && (2 <=? List.length island)%nat)%bool
  then
    '(p1, p2, r1) ← sample2 (fitter_half island) r0;
    Ok (_crossover (generation sv) (deref h p1) (deref h p2) r1)
  else
    '(p, r1) ← choice (fitter_half island) r0;
    _mutate (generation sv) (deref h p) r1.

(** The [while] loop that fills the new island. Every iteration appends
    exactly one child, so from a new island of length [k] it runs
    [nominal - k] times; [fuel] is that number. *)
Fixpoint fill_offspring (fuel : nat) (sv : SimpleEvolver.t) (island new_island : list addr)
    (h : Heap) (r : RNG) : Result (list addr * Heap * RNG) :=
  match fuel with
  | O => Ok (new_island, h, r)
  | S fuel' =>
      '(child, r') ← make_child sv island h r;
      let (a, h') := alloc h child in
      fill_offspring fuel' sv island (new_island ++ [a]) h' r'
  end.

(** "Elitism: keep top performers". *)
Definition elite_of (sv : SimpleEvolver.t) (sorted : list addr) : list addr :=
  if elitism sv
  then take (Z.to_nat (py_max 1 (Z.of_nat (List.length sorted) / 5))) sorted
  else [].

(** The body of [for island_idx, island in enumerate(self.islands)],
    returning the list that is stored at [self.islands[island_idx]]. *)
Definition evolve_island (sv : SimpleEvolver.t) (island : list addr) (lp : Loop)
    : Result (list addr * Loop) :=
  let (h1, evals1) :=
    evaluate_all (evaluation_criteria sv) island (l_heap lp) (l_evals lp) in
  let sorted := sort_desc (fitness_at h1) island in
  lp2 ← track_best sorted
          (mkLoop h1 (l_rng lp) (l_best lp) (l_improvements lp) evals1);
  let new_island := elite_of sv sorted in
  nominal ← floordiv (population_size sv) (num_islands sv);
  '(filled, h3, r3) ←
    fill_offspring (Z.to_nat (nominal - Z.of_nat (List.length new_island)))
      sv sorted new_island (l_heap lp2) (l_rng lp2);
  Ok (filled, mkLoop h3 r3 (l_best lp2) (l_improvements lp2) (l_evals lp2)).

(** The island loop: island [i] is replaced before island [i+1] is
    looked at, and the heap, the stream and the best candidate are carried
    from one island to the next. *)
Fixpoint evolve_islands (sv : SimpleEvolver.t) (todo : list (list addr)) (lp : Loop)
    : Result (list (list addr) * Loop) :=
  match todo with
  | [] => Ok ([], lp)
  | island :: rest =>
      '(new_island, lp1) ← evolve_island sv island lp;
      '(news, lp2) ← evolve_islands sv rest lp1;
      Ok (new_island :: news, lp2)
  end.

(** One iteration of the migration loop, on the live list of islands. *)
Definition migrate_one (isl : list (list addr)) (i : nat) : list (list addr) :=
  match isl !! i with
  | Some (migrant :: _) =>
      alter (fun l => l ++ [migrant]) (S i mod List.length isl)%nat isl
  | _ => isl
  end.

(** [for i in range(len(self.islands)): ...]. *)
Definition migrate (isl : list (list addr)) : list (list addr) :=
  fold_left migrate_one (seq 0 (List.length isl)) isl.

(** "Migration between islands (every 5 generations)": the guard and the
    loop. *)
Definition after_migration (gen : Z) (isl : list (list addr)) : list (list addr) :=
  if ((gen mod 5 =? 0) && (1 <? List.length isl)%nat)%bool then migrate isl else isl.

(** [max(xs)] for a non-empty list, scanning left to right. *)
Definition py_max_list (x : Q) (xs : list Q) : Q :=
  fold_left (fun m y => if Qlt_bool m y then y else m) xs x.

Definition Qsum (xs : list Q) : Q := fold_left Qplus xs 0%Q.

(** The positive fitness values of the candidates of all islands. *)
Definition positive_fitnesses (h : Heap) (isl : list (list addr)) : list Q :=
  List.filter (fun f => Qlt_bool 0 f) (map (fitness_at h) (concat isl)).

(** "Calculate stats". *)
Definition make_stats (gen : Z) (h : Heap) (isl : list (list addr)) (impr : Z)
    : GenerationStats.t :=
  let all_candidates := concat isl in
  let fitnesses := positive_fitnesses h isl in
  GenerationStats.mk gen
    (match fitnesses with
     | [] => 0%Q
     | f :: fs => py_max_list f fs
     end)
    (match fitnesses with
     | [] => 0%Q
     | _ => (Qsum fitnesses / inject_Z (Z.of_nat (List.length fitnesses)))%Q
     end)
    (match all_candidates with
     | [] => 0%Q
     | _ =>
         (inject_Z (Z.of_nat (List.length
            (remove_dups (map (fun a => Candidate.content (deref h a)) all_candidates))))
          / inject_Z (Z.of_nat (List.length all_candidates)))%Q
     end)
    (Z.of_nat (List.length all_candidates))
    impr.

(** [evolve_generation]. *)
Definition evolve_generation (p : Process) : Result (GenerationStats.t * Process) :=
  let sv := self p in
  let gen := generation sv + 1 in
  let sv1 := set_generation sv gen in
  '(isl, lp) ←
    evolve_islands sv1 (islands sv)
      (mkLoop (heap p) (rng p) (best_candidate sv) 0 (total_evaluations sv));
  let isl' := after_migration gen isl in
  let stats := make_stats gen (l_heap lp) isl' (l_improvements lp) in
  Ok (stats,
      mkProcess
        (SimpleEvolver.mk (seed sv) (evaluation_criteria sv) (population_size sv)
           (num_islands sv) (mutation_model sv) (evaluation_model sv) (elitism sv)
           (crossover_rate sv) (mutation_rate sv) isl' gen
           (l_best lp) (history sv ++ [stats]) (l_evals lp))
        (l_heap lp) (l_rng lp)).

(** [for gen in range(n): evolver.evolve_generation()]. *)
Fixpoint run_generations (n : nat) (p : Process) : Result Process :=
  match n with
  | O => Ok p
  | S n' =>
      '(_, p') ← evolve_generation p;
      run_generations n' p'
  end.

(** ** Pareto front *)

(** [len(set(c.split()) & set(o.split())) / max(len(c.split()), 1)]. *)
Definition word_overlap (c o : string) : Q :=
  let cw := split c in
  let ow := split o in
  (inject_Z (Z.of_nat (List.length
     (List.filter (fun w => bool_decide (w ∈ ow)) (remove_dups cw))))
   / inject_Z (py_max (Z.of_nat (List.length cw)) 1))%Q.

(** The novelty computed for the candidate at [a] among [all]. *)
Definition novelty_of (h : Heap) (all : list addr) (a : addr) : Q :=
  let candidate := deref h a in
  let others_content :=
    map (fun b => Candidate.content (deref h b))
      (List.filter
         (fun b => negb (String.eqb (Candidate.id (deref h b)) (Candidate.id candidate)))
         all) in
  match others_content with
  | [] => 1%Q
  | _ =>
      let similar :=
        List.filter
          (fun other => Qlt_bool (8 # 10) (word_overlap (Candidate.content candidate) other))
          others_content in
      (1 - inject_Z (Z.of_nat (List.length similar))
           / inject_Z (Z.of_nat (List.length others_content)))%Q
  end.

(** [for candidate in all_candidates: candidate.novelty = ...]. *)
Fixpoint assign_novelty (all todo : list addr) (h : Heap) : Heap :=
  match todo with
  | [] => h
  | a :: rest =>
      assign_novelty all rest
        (<[a := Candidate.set_novelty (deref h a) (novelty_of h all a)]> h)
  end.

Definition pareto_key (h : Heap) (a : addr) : Q :=
  (Candidate.fitness (deref h a) + Candidate.novelty (deref h a) * (1 # 2))%Q.

(** [get_pareto_front]: the returned list and the process afterwards. *)
Definition get_pareto_front (p : Process) : list addr * Process :=
  let all_candidates := concat (islands (self p)) in
  let h := assign_novelty all_candidates all_candidates (heap p) in
  (take 10 (sort_desc (pareto_key h) all_candidates), mkProcess (self p) h (rng p)).

(** ** JSON documents and files *)

Inductive JSON : Type :=
  | JNull
  | JBool (b : bool)
  | JInt (z : Z)
  | JFloat (q : Q)
  | JStr (s : string)
  | JList (l : list JSON)
  | JObject (kv : list (string * JSON)).

(** The files written by [json.dump] and read back by [json.load], by
    path. Both are the identity on documents. *)
Abbreviation FileSystem := (gmap string JSON).

(** [os.path.join(a, b)] on POSIX. *)
Definition path_join (a b : string) : string :=
  if String.prefix "/" b then b
  else if (String.eqb a "" || String.prefix "/" (rev_string a))%bool
       then a +:+ b
       else a +:+ "/" +:+ b.

Definition checkpoint_path (dir task_id : string) : string :=
  path_join dir (task_id +:+ "_checkpoint.json").

Definition status_path (dir task_id : string) : string :=
  path_join dir (task_id +:+ "_status.json").

Definition json_of_option_str (o : option string) : JSON :=
  match o with
  | Some s => JStr s
  | None => JNull
  end.

(** [asdict(candidate)]. *)
Definition asdict_candidate (c : Candidate.t) : JSON :=
  JObject
    [ ("id", JStr (Candidate.id c));
      ("content", JStr (Candidate.content c));
      ("fitness", JFloat (Candidate.fitness c));
      ("novelty", JFloat (Candidate.novelty c));
      ("generation", JInt (Candidate.generation c));
      ("parent_id", json_of_option_str (Candidate.parent_id c));
      ("mutation_type", json_of_option_str (Candidate.mutation_type c)) ].

(** [asdict(stats)]. *)
Definition asdict_stats (s : GenerationStats.t) : JSON :=
  JObject
    [ ("generation", JInt (GenerationStats.generation s));
      ("best_fitness", JFloat (GenerationStats.best_fitness s));
      ("avg_fitness", JFloat (GenerationStats.avg_fitness s));
      ("diversity", JFloat (GenerationStats.diversity s));
      ("population_size", JInt (GenerationStats.population_size s));
      ("improvements", JInt (GenerationStats.improvements s)) ].

(** The checkpoint dictionary built in [run_evolution] and again in
    [continue_evolution]. *)
Definition checkpoint_of (task_id : string) (p : Process) : JSON :=
  let sv := self p in
  JObject
    [ ("task_id", JStr task_id);
      ("generation", JInt (generation sv));
      ("best_candidate",
        match best_candidate sv with
        | Some b => asdict_candidate (deref (heap p) b)
        | None => JNull
        end);
      ("islands",
        JList (map (fun island =>
                 JList (map (fun a => asdict_candidate (deref (heap p) a)) island))
               (islands sv)));
      ("history", JList (map asdict_stats (history sv))) ].

Definition status_of (active : bool) (p : Process) : JSON :=
  JObject
    [ ("active", JBool active);
      ("generation", JInt (generation (self p)));
      ("best_fitness", JFloat (best_fitness_of (heap p) (best_candidate (self p)))) ].

(** [d[key]]: [KeyError] when the key is absent, [TypeError] when [d] is
    not a dictionary. *)
Fixpoint assoc (key : string) (kv : list (string * JSON)) : option JSON :=
  match kv with
  | [] => None
  | (k, v) :: kv' => if String.eqb k key then Some v else assoc key kv'
  end.

Definition getitem (d : JSON) (key : string) : Result JSON :=
  match d with
  | JObject kv =>
      match assoc key kv with
      | Some v => Ok v
      | None => Raise KeyError
      end
  | _ => Raise TypeError
  end.

(** Truth value of a document. *)
Definition json_truthy (j : JSON) : bool :=
  match j with
  | JNull => false
  | JBool b => b
  | JInt z => negb (z =? 0)
  | JFloat q => negb (Qeq_bool q 0)
  | JStr s => negb (String.eqb s "")
  | JList l => match l with [] => false | _ => true end
  | JObject kv => match kv with [] => false | _ => true end
  end.

(** Reading a document into a typed field. Python stores whatever the
    file holds; a value that the typed record cannot hold stops the model
    with [TypeError]. *)
Definition as_str (j : JSON) : Result string :=
  match j with
  | JStr s => Ok s
  | _ => Raise TypeError
  end.

Definition as_option_str (j : JSON) : Result (option string) :=
  match j with
  | JStr s => Ok (Some s)
  | JNull => Ok None
  | _ => Raise TypeError
  end.

Definition as_int (j : JSON) : Result Z :=
  match j with
  | JInt z => Ok z
  | _ => Raise TypeError
  end.

Definition as_float (j : JSON) : Result Q :=
  match j with
  | JFloat q => Ok q
  | JInt z => Ok (inject_Z z)
  | _ => Raise TypeError
  end.

Definition as_list (j : JSON) : Result (list JSON) :=
  match j with
  | JList l => Ok l
  | _ => Raise TypeError
  end.

(** A keyword argument with a default. *)
Definition keyword {A} (kv : list (string * JSON)) (key : string)
    (read : JSON -> Result A) (dflt : A) : Result A :=
  match assoc key kv with
  | Some v => read v
  | None => Ok dflt
  end.

(** A keyword argument without a default. *)
Definition required {A} (kv : list (string * JSON)) (key : string)
    (read : JSON -> Result A) : Result A :=
  match assoc key kv with
  | Some v => read v
  | None => Raise TypeError
  end.

Definition only_keys (names : list string) (kv : list (string * JSON)) : bool :=
  forallb (fun e => bool_decide (fst e ∈ names)) kv.

(** [Candidate] called with the dictionary [d] as keyword arguments. *)
Definition candidate_of_dict (d : JSON) : Result Candidate.t :=
  match d with
  | JObject kv =>
      if only_keys ["id"; "content"; "fitness"; "novelty"; "generation";
                    "parent_id"; "mutation_type"] kv
      then
        i ← required kv "id" as_str;
        c ← required kv "content" as_str;
        f ← keyword kv "fitness" as_float 0%Q;
        n ← keyword kv "novelty" as_float 0%Q;
        g ← keyword kv "generation" as_int 0;
        p ← keyword kv "parent_id" as_option_str None;
        m ← keyword kv "mutation_type" as_option_str None;
        Ok (Candidate.mk i c f n g p m)
      else Raise TypeError
  | _ => Raise TypeError
  end.

(** [GenerationStats] called with the dictionary [d] as keyword arguments. *)
Definition stats_of_dict (d : JSON) : Result GenerationStats.t :=
  match d with
  | JObject kv =>
      if only_keys ["generation"; "best_fitness"; "avg_fitness"; "diversity";
                    "population_size"; "improvements"] kv
      then
        g ← required kv "generation" as_int;
        b ← required kv "best_fitness" as_float;
        a ← required kv "avg_fitness" as_float;
        d ← required kv "diversity" as_float;
        p ← required kv "population_size" as_int;
        i ← required kv "improvements" as_int;
        Ok (GenerationStats.mk g b a d p i)
      else Raise TypeError
  | _ => Raise TypeError
  end.

(** [[f(x) for x in xs]] where [f] may raise. *)
Fixpoint map_result {A B} (f : A -> Result B) (xs : list A) : Result (list B) :=
  match xs with
  | [] => Ok []
  | x :: xs' =>
      y ← f x;
      ys ← map_result f xs';
      Ok (y :: ys)
  end.

(** The comprehension over one island of the checkpoint: every candidate
    is a new object. *)
Fixpoint hydrate_island (cs : list JSON) (h : Heap) : Result (list addr * Heap) :=
  match cs with
  | [] => Ok ([], h)
  | c :: cs' =>
      cand ← candidate_of_dict c;
      let (a, h1) := alloc h cand in
      '(rest, h2) ← hydrate_island cs' h1;
      Ok (a :: rest, h2)
  end.

Fixpoint hydrate_islands (isl : list JSON) (h : Heap)
    : Result (list (list addr) * Heap) :=
  match isl with
  | [] => Ok ([], h)
  | i :: isl' =>
      cs ← as_list i;
      '(island, h1) ← hydrate_island cs h;
      '(rest, h2) ← hydrate_islands isl' h1;
      Ok (island :: rest, h2)
  end.

(** ** Checkpoints *)

(** [json.dump(checkpoint, f)] on the checkpoint file of the task. *)
Definition save_checkpoint (dir task_id : string) (p : Process) (fs : FileSystem)
    : FileSystem :=
  <[checkpoint_path dir task_id := checkpoint_of task_id p]> fs.

Definition default_model : string := "openai/gpt-4.1-mini".

(** "Reconstruct evolver state" in [continue_evolution]: a new evolver is
    constructed with default parameters, then its generation, islands,
    best candidate and history are overwritten from the document. *)
Definition load_checkpoint (checkpoint : JSON) (h : Heap) (r : RNG) : Result Process :=
  bc ← getitem checkpoint "best_candidate";
  sd ← (if json_truthy bc then c ← getitem bc "content"; as_str c else Ok "");
  isl_doc ← getitem checkpoint "islands";
  isl_list ← as_list isl_doc;
  lens ← map_result (fun i => l ← as_list i; Ok (Z.of_nat (List.length l))) isl_list;
  p0 ← __init__
         (mkInitArgs sd "Continue evolution" (foldr Z.add 0 lens)
            (Z.of_nat (List.length isl_list)) default_model default_model
            true (6 # 10)%Q (4 # 10)%Q)
         h r;
  gen_doc ← getitem checkpoint "generation";
  gen ← as_int gen_doc;
  '(isl, h1) ← hydrate_islands isl_list (heap p0);
  '(best, h2) ←
    (if json_truthy bc
     then c ← candidate_of_dict bc; let (a, h') := alloc h1 c in Ok (Some a, h')
     else Ok (best_candidate (self p0), h1));
  hist_doc ← getitem checkpoint "history";
  hist_list ← as_list hist_doc;
  hist ← map_result stats_of_dict hist_list;
  let sv := self p0 in
  Ok (mkProcess
        (SimpleEvolver.mk (seed sv) (evaluation_criteria sv) (population_size sv)
           (num_islands sv) (mutation_model sv) (evaluation_model sv) (elitism sv)
           (crossover_rate sv) (mutation_rate sv) isl gen best hist
           (total_evaluations sv))
        h2 (rng p0)).

(** The engine state a checkpoint stands for, by value. *)
Record EngineState : Type := mkEngineState {
  e_task_id : string;
  e_generation : Z;
  e_best_candidate : option Candidate.t;
  e_islands : list (list Candidate.t);
  e_history : list GenerationStats.t
}.

Definition engine_state (task_id : string) (p : Process) : EngineState :=
  mkEngineState task_id (generation (self p))
    (deref (heap p) <$> best_candidate (self p))
    (map (map (deref (heap p))) (islands (self p)))
    (history (self p)).

(** ** The two entry points *)

Module Config.
Record t : Type := mk {
  task_id : option string;
  seed : option string;
  evaluation_criteria : option string;
  max_generations : option Z;
  population_size : option Z;
  num_islands : option Z;
  mutation_model : option string;
  evaluation_model : option string;
  elitism : option bool;
  crossover_rate : option Q;
  mutation_rate : option Q;
  output_dir : option string
}.
End Config.

(** The keyword arguments [run_evolution] passes to the constructor. *)
Definition init_args_of (config : Config.t) : InitArgs :=
  mkInitArgs
    (default "" (Config.seed config))
    (default "" (Config.evaluation_criteria config))
    (default 10 (Config.population_size config))
    (default 2 (Config.num_islands config))
    (default default_model (Config.mutation_model config))
    (default default_model (Config.evaluation_model config))
    (default true (Config.elitism config))
    (default (6 # 10)%Q (Config.crossover_rate config))
    (default (4 # 10)%Q (Config.mutation_rate config)).

(** The generation loop of [run_evolution]: a step, then both files. *)
Fixpoint evolution_loop (n : nat) (dir task_id : string) (p : Process) (fs : FileSystem)
    : Result (Process * FileSystem) :=
  match n with
  | O => Ok (p, fs)
  | S n' =>
      '(_, p1) ← evolve_generation p;
      let fs1 := save_checkpoint dir task_id p1 fs in
      let fs2 := <[status_path dir task_id := status_of true p1]> fs1 in
      evolution_loop n' dir task_id p1 fs2
  end.

Definition last_diversity (hist : list GenerationStats.t) : Q :=
  match last hist with
  | Some s => GenerationStats.diversity s
  | None => 0%Q
  end.

Definition best_solution_of (p : Process) : JSON :=
  match best_candidate (self p) with
  | Some b => JStr (Candidate.content (deref (heap p) b))
  | None => JNull
  end.

(** [run_evolution(config)], started at clock time [now]. After a loop of
    zero iterations the name [status] is unbound. *)
Definition run_evolution (now : Z) (config : Config.t) (fs : FileSystem)
    (h : Heap) (r : RNG) : Result (JSON * FileSystem * Process) :=
  let task_id := default ("task_" +:+ str_of_Z now) (Config.task_id config) in
  let max_generations := default 20 (Config.max_generations config) in
  let output_dir := default "." (Config.output_dir config) in
  evolver ← __init__ (init_args_of config) h r;
  '(p1, fs1) ← evolution_loop (Z.to_nat max_generations) output_dir task_id evolver fs;
  if max_generations <=? 0 then Raise UnboundLocalError
  else
    let fs2 := <[status_path output_dir task_id := status_of false p1]> fs1 in
    let (front, p2) := get_pareto_front p1 in
    Ok (JObject
          [ ("success", JBool true);
            ("task_id", JStr task_id);
            ("best_solution", best_solution_of p2);
            ("best_fitness", JFloat (best_fitness_of (heap p2) (best_candidate (self p2))));
            ("generations", JInt (generation (self p2)));
            ("total_evaluations", JInt (total_evaluations (self p2)));
            ("diversity_score", JFloat (last_diversity (history (self p2))));
            ("pareto_front", JList (map (fun a => asdict_candidate (deref (heap p2) a)) front));
            ("history", JList (map asdict_stats (history (self p2)))) ],
        fs2, p2).

(** [continue_evolution(task_id, additional_generations, checkpoint_dir)].
    Without a checkpoint file the failure dictionary is returned and
    nothing else happens. *)
Definition continue_evolution (task_id : string) (additional_generations : Z)
    (checkpoint_dir : string) (fs : FileSystem) (h : Heap) (r : RNG)
    : Result (JSON * FileSystem * option Process) :=
  let path := checkpoint_path checkpoint_dir task_id in
  match fs !! path with
  | None =>
      Ok (JObject
            [ ("success", JBool false);
              ("task_id", JStr task_id);
              ("error", JStr ("Checkpoint not found: " +:+ path)) ],
          fs, None)
  | Some checkpoint =>
      evolver ← load_checkpoint checkpoint h r;
      p1 ← run_generations (Z.to_nat additional_generations) evolver;
      let fs1 := save_checkpoint checkpoint_dir task_id p1 fs in
      Ok (JObject
            [ ("success", JBool true);
              ("task_id", JStr task_id);
              ("best_solution", best_solution_of p1);
              ("best_fitness", JFloat (best_fitness_of (heap p1) (best_candidate (self p1))));
              ("generations", JInt (generation (self p1)));
              ("total_evaluations", JInt (total_evaluations (self p1)));
              ("diversity_score", JFloat (last_diversity (history (self p1)))) ],
          fs1, Some p1)
  end.

(** * Predicates and invariants *)

(** ** Words and sorting *)

(** A word: not empty, no whitespace. *)
Definition is_word (w : string) : Prop :=
  w <> "" /\ Forall (fun c => is_space c = false) (list_ascii_of_string w).

(** [a] comes before [b] in a list sorted by descending [key]. *)
Definition desc_by (key : addr -> Q) (a b : addr) : Prop := (key b <= key a)%Q.

(** The crossover as the specification words it: each parent is cut at
    the midpoint of its own word sequence. *)
Definition midpoint_crossover_words (words1 words2 : list string) : list string :=
  take (List.length words1 / 2)%nat words1 ++ drop (List.length words2 / 2)%nat words2.

(** ** Cells *)

(** A cell that has not been scored. *)
Definition zero_fitness (c : Candidate.t) : Prop := Candidate.fitness c = 0%Q.

(** What a generation may do to an existing cell: nothing, or score it
    when its fitness is still the sentinel [0]. *)
Definition scored (criteria : string) (c c' : Candidate.t) : Prop :=
  c' = c \/
  ((Candidate.fitness c == 0)%Q /\
   c' = Candidate.set_fitness c (_evaluate criteria c)).

(** A cell that is unscored, or carries the score computed under
    [criteria]. *)
Definition scored_with (criteria : string) (c : Candidate.t) : Prop :=
  Candidate.fitness c = 0%Q \/ Candidate.fitness c = _evaluate criteria c.


(** ** Heaps *)

(** [h'] comes from [h] by allocating new cells and scoring some of the
    cells listed in [touch]. *)
Definition evolves (criteria : string) (touch : list addr) (h h' : Heap) : Prop :=
  (List.length h <= List.length h')%nat /\
  forall a, (a < List.length h)%nat ->
    deref h' a = deref h a \/ (a ∈ touch /\ scored criteria (deref h a) (deref h' a)).

(** Two heaps whose cells differ at most in the novelty field. *)
Definition same_but_novelty (h h' : Heap) : Prop :=
  List.length h' = List.length h /\
  forall a, deref h' a = Candidate.set_novelty (deref h a) (Candidate.novelty (deref h' a)).

(** No cell has a negative fitness. *)
Definition cells_nonneg (h : Heap) : Prop :=
  forall a, (0 <= fitness_at h a)%Q.

(** Every cell allocated at or after address [from] is unscored or carries
    the score computed under [criteria]. *)
Definition fresh_scored_with (criteria : string) (from : nat) (h : Heap) : Prop :=
  forall a, (from <= a)%nat -> (a < List.length h)%nat -> scored_with criteria (deref h a).

(** The best candidate so far bounds every candidate ever created, and
    has been scored. *)
Definition best_is_max (h : Heap) (best : option addr) : Prop :=
  (forall a, (a < List.length h)%nat -> (fitness_at h a <= best_fitness_of h best)%Q) /\
  (forall b, best = Some b -> (b < List.length h)%nat /\ (0 < fitness_at h b)%Q).

(** ** Islands *)

(** Every reference held by the islands points at a cell. *)
Definition valid_islands (h : Heap) (isl : list (list addr)) : Prop :=
  Forall (Forall (fun a => (a < List.length h)%nat)) isl.

(** No candidate of the islands has been scored yet. *)
Definition unscored_islands (h : Heap) (isl : list (list addr)) : Prop :=
  Forall (Forall (fun a => fitness_at h a = 0%Q)) isl.

(** The size every island is created with. *)
Definition island_size (pop_size n_islands : Z) : nat :=
  Z.to_nat (pop_size / n_islands).

(** Islands have their nominal size, or one more after a migration. *)
Definition sized (sv : SimpleEvolver.t) (isl : list (list addr)) : Prop :=
  let n := island_size (population_size sv) (num_islands sv) in
  Forall (fun l => List.length l = n \/ (List.length l = S n /\ (1 <= n)%nat)) isl.

(** [l'] is [l] with members of the islands [isl] appended. *)
Definition extended_in (isl : list (list addr)) (l l' : list addr) : Prop :=
  exists ext, l' = l ++ ext /\ Forall (fun a => a ∈ concat isl) ext.

(** State of island [j] once the migration loop has handled the sources
    [0 .. m-1] of [k] islands: it has received its migrant exactly when
    its source is among them. *)
Definition received (k m j : nat) : Prop :=
  (1 <= j /\ j <= m)%nat \/ (j = 0%nat /\ m = k).

(** The island that sends its first candidate to island [j]. *)
Definition source_of (k j : nat) : nat := ((j + k - 1) mod k)%nat.

(** ** Generations *)

(** The fields of the evolver that no method assigns after construction. *)
Definition same_config (sv sv' : SimpleEvolver.t) : Prop :=
  seed sv' = seed sv /\
  evaluation_criteria sv' = evaluation_criteria sv /\
  population_size sv' = population_size sv /\
  num_islands sv' = num_islands sv /\
  elitism sv' = elitism sv /\
  crossover_rate sv' = crossover_rate sv /\
  mutation_rate sv' = mutation_rate sv.

(** The loop state [evolve_generation] starts the island loop with. *)
Definition start_loop (p : Process) : Loop :=
  mkLoop (heap p) (rng p) (best_candidate (self p)) 0 (total_evaluations (self p)).

(** One pass of the island loop seen from the whole generation: the heap
    it starts from comes from the generation's first heap [h0], and the heap
    it ends with goes on to the generation's last heap [hF]. *)
Definition island_step (sv : SimpleEvolver.t) (touch : list addr) (h0 hF : Heap)
    (old new : list addr) : Prop :=
  exists lpa lpb,
    evolve_island sv old lpa = Ok (new, lpb) /\
    evolves (evaluation_criteria sv) touch h0 (l_heap lpa) /\
    evolves (evaluation_criteria sv) touch (l_heap lpb) hF.

(** The [best_fitness] that "Calculate stats" reports for a heap and a
    list of islands. *)
Definition stat_best (h : Heap) (isl : list (list addr)) : Q :=
  match positive_fitnesses h isl with
  | [] => 0%Q
  | f :: fs => py_max_list f fs
  end.

(** [best_fitness] never decreases along the history. *)
Definition history_sorted (hist : list GenerationStats.t) : Prop :=
  forall i j s t, (i <= j)%nat -> hist !! i = Some s -> hist !! j = Some t ->
    (GenerationStats.best_fitness s <= GenerationStats.best_fitness t)%Q.

(** A fresh process: construction on an empty heap, then [n] generations. *)
Definition fresh_run (args : InitArgs) (r : RNG) (n : nat) : Result Process :=
  p0 ← __init__ args [] r;
  run_generations n p0.

(** What holds of every process reached from a fresh evolver. *)
Definition reached (p : Process) : Prop :=
  best_is_max (heap p) (best_candidate (self p)) /\
  cells_nonneg (heap p) /\
  valid_islands (heap p) (islands (self p)) /\
  sized (self p) (islands (self p)) /\
  (elitism (self p) = false -> unscored_islands (heap p) (islands (self p))) /\
  Z.of_nat (List.length (history (self p))) = generation (self p) /\
  history_sorted (history (self p)) /\
  (forall s, s ∈ history (self p) ->
     (GenerationStats.best_fitness s <= stat_best (heap p) (islands (self p)))%Q).

(** * Concrete inputs *)

(** A stream that always draws the same number. *)
Definition const_rng (d : Z) : RNG := mkRNG (fun _ => d) 0.


(** The largest draw of [random.random()] once reduced: just below 1. *)
Definition top_draw : Z := 9007199254740991.

(** Constructor arguments with the defaults of [SimpleEvolver.__init__]. *)
Definition default_args (sd criteria : string) (ps ni : Z) : InitArgs :=
  mkInitArgs sd criteria ps ni default_model default_model true (6 # 10)%Q (4 # 10)%Q.

(** Scenario A of the specification. *)
Definition scenario_A : Config.t :=
  Config.mk None (Some "hello world") (Some "hello") (Some 1) (Some 4) (Some 2)
    None None None None None None.

(** Parents with six and with two words. *)
Definition six_words : Candidate.t :=
  Candidate.mk "p1" "a b c d e f" 0 0 0 None None.

Definition two_words : Candidate.t :=
  Candidate.mk "p2" "x y" 0 0 0 None None.


(** Two islands of four candidates. *)
Definition eight_in_two : InitArgs := default_args "hello world" "hello" 8 2.

(** The process [eight_in_two] reaches after [n] generations when every
    draw is [0] (the blank process if the run raises). *)
Definition process_after (n : nat) : Process :=
  match fresh_run eight_in_two (const_rng 0) n with
  | Ok p => p
  | Raise _ =>
      mkProcess (SimpleEvolver.mk "" "" 0 0 "" "" true 0 0 [] 0 None [] 0) [] (const_rng 0)
  end.

Definition stats_after (n : nat) : GenerationStats.t :=
  match evolve_generation (process_after n) with
  | Ok (stats, _) => stats
  | Raise _ => GenerationStats.mk 0 0 0 0 0 0
  end.

(** The same run after four and after five generations, and the
    statistics of the fifth, evaluated once. *)
Definition after_four : Process := Eval vm_compute in process_after 4.

Definition after_five : Process := Eval vm_compute in process_after 5.

Definition stats_five : GenerationStats.t := Eval vm_compute in stats_after 4.

(** The checkpoint of the four-generation run, whose criteria were
    ["hello"], loaded into a new process, and that process one generation
    later. *)
Definition resumed : Process :=
  Eval vm_compute in
    match load_checkpoint (checkpoint_of "task" after_four) [] (const_rng 0) with
    | Ok p => p
    | Raise _ => after_four
    end.

Definition resumed_next : Process :=
  Eval vm_compute in
    match run_generations 1 resumed with
    | Ok p => p
    | Raise _ => resumed
    end.

(** * Further predicates and inputs *)

(** The candidate with its parent link removed. *)
Definition without_parent (c : Candidate.t) : Candidate.t :=
  Candidate.mk (Candidate.id c) (Candidate.content c) (Candidate.fitness c)
    (Candidate.novelty c) (Candidate.generation c) None (Candidate.mutation_type c).

(** A cell that has been scored. *)
Definition is_scored (c : Candidate.t) : bool :=
  negb (Qeq_bool (Candidate.fitness c) 0).

(** The number of scored cells of a heap. *)
Definition scored_count (h : Heap) : nat :=
  List.length (List.filter is_scored h).

(** Three candidates, the last one scored, and an island that holds the
    first one twice. *)
Definition three_cells : Heap :=
  [ Candidate.mk "a" "first step" 0 0 0 None None;
    Candidate.mk "b" "then" 0 0 0 (Some "a") (Some "point");
    Candidate.mk "c" "x" (7 # 10) 0 0 None None ].


(** An evolver with one island of two candidates of [three_cells], as the
    constructor leaves it for [population_size = 2], [num_islands = 1]. *)
Definition pair_island (r : RNG) : Process :=
  mkProcess
    (SimpleEvolver.mk "first step" "step" 2 1 default_model default_model true
       (6 # 10) (4 # 10) [[0%nat; 1%nat]] 0 None [] 0)
    three_cells r.

(** [f"gen0_island{k}_{k}"]. *)
Definition initial_id (k : nat) : string :=
  "gen0_island" +:+ str_of_Z (Z.of_nat k) +:+ "_" +:+ str_of_Z (Z.of_nat k).

(** What [_create_initial_population] puts at position [k] of an island:
    the seed itself at position 0, one text mutation of the seed at every
    other position. *)
Definition initial_cell (sd : string) (k : nat) (c : Candidate.t) : Prop :=
  Candidate.id c = initial_id k /\
  Candidate.fitness c = 0%Q /\ Candidate.novelty c = 0%Q /\
  Candidate.generation c = 0 /\
  Candidate.parent_id c = None /\ Candidate.mutation_type c = None /\
  (k = 0%nat -> Candidate.content c = sd) /\
  (k <> 0%nat -> exists r1 r2, _mutate_text sd r1 = Ok (Candidate.content c, r2)).

Definition initial_island (sd : string) (h : Heap) (island : list addr) : Prop :=
  forall k a, island !! k = Some a -> initial_cell sd k (deref h a).

(** An evolver with one island of one candidate and elitism switched off. *)
Definition lone_candidate (r : RNG) : Process :=
  mkProcess
    (SimpleEvolver.mk "first step" "step" 1 1 default_model default_model false
       (6 # 10) (4 # 10) [[0%nat]] 0 None [] 0)
    three_cells r.

(** One candidate per island. *)
Definition one_each : InitArgs :=
  mkInitArgs "first step" "step" 3 3 default_model default_model true
    (6 # 10) (4 # 10).

(** A run of two generations on two islands of four, every draw [0], in
    an empty directory; and the same with no generation at all. *)
Definition two_generations : Config.t :=
  Config.mk (Some "t") (Some "hello world") (Some "hello") (Some 2) (Some 8) (Some 2)
    None None None None None None.

Definition no_generation : Config.t :=
  Config.mk (Some "t") (Some "hello world") (Some "hello") (Some 0) (Some 8) (Some 2)
    None None None None None None.

Definition completed_run : JSON * FileSystem * Process :=
  Eval vm_compute in
    match run_evolution 0 two_generations ∅ [] (const_rng 0) with
    | Ok out => out
    | Raise _ => (JNull, ∅, mkProcess (SimpleEvolver.mk "" "" 0 0 "" "" true 0 0 [] 0 None [] 0)
                              [] (const_rng 0))
    end.

(** The number of candidates of all islands. *)
Definition total_candidates (sv : SimpleEvolver.t) : Z :=
  foldr Z.add 0 (map (fun island : list addr => Z.of_nat (List.length island)) (islands sv)).

(** The content of the best candidate, [""] when there is none. *)
Definition best_content (p : Process) : string :=
  match best_candidate (self p) with
  | Some b => Candidate.content (deref (heap p) b)
  | None => ""
  end.

(** The completed run continued for one more generation. *)
Definition continued_run : JSON * FileSystem * option Process :=
  Eval vm_compute in
    match continue_evolution "t" 1 "." (snd (fst completed_run)) [] (const_rng 0) with
    | Ok out => out
    | Raise _ => (JNull, ∅, None)
    end.

(** Two islands of three candidates, three generations. *)
Definition six_in_two : Config.t :=
  Config.mk (Some "t") (Some "hello world") (Some "hello") (Some 3) (Some 6) (Some 2)
    None None None None None None.

(** One island of four candidates after five generations, every draw [0]. *)
Definition one_island_after_five : Process :=
  Eval vm_compute in
    match fresh_run (default_args "hello world" "hello" 4 1) (const_rng 0) 5 with
    | Ok q => q
    | Raise _ => after_four
    end.

(** * Properties *)

(** ** The result monad *)

Lemma bind_Ok {A B} (f : A -> Result B) (m : Result A) (b : B) :
  m ≫= f = Ok b -> exists a, m = Ok a /\ f a = Ok b.
Proof. destruct m as [a|e]; simpl; [eauto | discriminate]. Qed.

Ltac inv_bind H :=
  let x := fresh "x" in
  let Hx := fresh "Hx" in
  apply bind_Ok in H; destruct H as (x & Hx & H).

Tactic Notation "bind_in" hyp(H) "as" simple_intropattern(x) ident(Hx) :=
  apply bind_Ok in H; destruct H as (x & Hx & H).

(** ** Random draws *)

Lemma randbelow_range n r : 0 < n -> 0 <= fst (randbelow n r) < n.
Proof. intros Hn. unfold randbelow. simpl. apply Z.mod_pos_bound. exact Hn. Qed.

Lemma choice_ok {A} (l : list A) r :
  l <> [] -> exists x, choice l r = Ok (x, snd (next_draw r)) /\ x ∈ l.
Proof.
  intros Hl. unfold choice.
  destruct l as [|y l']; [congruence|].
  remember (y :: l') as l eqn:El.
  assert (Hpos : 0 < Z.of_nat (List.length l)) by (subst l; simpl List.length; lia).
  pose proof (randbelow_range (Z.of_nat (List.length l)) r Hpos) as Hr.
  cbv [randbelow next_draw fst snd] in *.
  destruct (lookup_lt_is_Some_2 l (Z.to_nat (draws r (cursor r) `mod` Z.of_nat (List.length l))))
    as [x Hx]; [lia|].
  rewrite Hx. exists x. split; [reflexivity|].
  eapply list_elem_of_lookup_2; eauto.
Qed.

Lemma choice_Ok_elem {A} (l : list A) r x r' :
  choice l r = Ok (x, r') -> x ∈ l.
Proof.
  unfold choice. destruct l as [|y l']; [discriminate|].
  destruct (randbelow _ r) as [k r1].
  destruct (_ !! _) eqn:Hx; [|discriminate].
  intros [= <- <-]. eapply list_elem_of_lookup_2; eauto.
Qed.

Lemma sample2_ok {A} (l : list A) r :
  (2 <= List.length l)%nat ->
  exists x1 x2 r', sample2 l r = Ok (x1, x2, r') /\ x1 ∈ l /\ x2 ∈ l.
Proof.
  intros Hl. unfold sample2.
  destruct (Nat.ltb_spec (List.length l) 2) as [?|_]; [lia|].
  pose proof (randbelow_range (Z.of_nat (List.length l)) r) as H1.
  destruct (randbelow (Z.of_nat (List.length l)) r) as [j1 r1]. simpl in H1.
  pose proof (randbelow_range (Z.of_nat (List.length l) - 1) r1) as H2.
  destruct (randbelow (Z.of_nat (List.length l) - 1) r1) as [j2 r2]. simpl in H2.
  destruct (lookup_lt_is_Some_2 l (Z.to_nat j1)) as [x1 Hx1]; [lia|].
  destruct (lookup_lt_is_Some_2 l (List.length l - 1)%nat) as [lst Hlst]; [lia|].
  rewrite Hx1, Hlst.
  destruct (lookup_lt_is_Some_2 (<[Z.to_nat j1 := lst]> l) (Z.to_nat j2)) as [x2 Hx2].
  { rewrite length_insert. lia. }
  rewrite Hx2. exists x1, x2, r2. split; [reflexivity|]. split.
  - eapply list_elem_of_lookup_2; eauto.
  - destruct (decide (Z.to_nat j1 = Z.to_nat j2)) as [Heq|Hne].
    + rewrite Heq in Hx2. rewrite list_lookup_insert_eq in Hx2 by lia.
      injection Hx2 as <-. eapply list_elem_of_lookup_2; eauto.
    + rewrite list_lookup_insert_ne in Hx2 by exact Hne.
      eapply list_elem_of_lookup_2; eauto.
Qed.

Lemma sample2_Ok_elem {A} (l : list A) r x1 x2 r' :
  sample2 l r = Ok (x1, x2, r') -> x1 ∈ l /\ x2 ∈ l /\ (2 <= List.length l)%nat.
Proof.
  intros H. destruct (Nat.ltb_spec (List.length l) 2) as [Hlt|Hge].
  - unfold sample2 in H. apply Nat.ltb_lt in Hlt. rewrite Hlt in H. discriminate.
  - destruct (sample2_ok l r Hge) as (y1 & y2 & r2 & Hs & Hy1 & Hy2).
    rewrite Hs in H. injection H as <- <- <-. auto.
Qed.

Lemma sample2_short {A} (l : list A) r :
  (List.length l < 2)%nat -> sample2 l r = Raise ValueError.
Proof. intros H. unfold sample2. apply Nat.ltb_lt in H. rewrite H. reflexivity. Qed.

(** ** Text mutation never raises *)

Lemma _swap_words_ok text r : exists t r', _swap_words text r = Ok (t, r').
Proof.
  unfold _swap_words.
  destruct (Nat.ltb_spec (List.length (split text)) 2) as [?|Hge]; [eauto|].
  destruct (sample2_ok (seq 0 (List.length (split text))) r) as (i & j & r' & Hs & _).
  { rewrite length_seq. exact Hge. }
  rewrite Hs. simpl. eauto.
Qed.

Lemma _insert_phrase_ok text r : exists t r', _insert_phrase text r = Ok (t, r').
Proof.
  unfold _insert_phrase. destruct (split text) as [|w ws]; [eauto|].
  destruct (randint _ _ r) as [pos r1].
  destruct (choice_ok phrases r1) as (ph & Hc & _); [discriminate|].
  rewrite Hc. simpl. eauto.
Qed.

Lemma _mutate_text_ok text r : exists t r', _mutate_text text r = Ok (t, r').
Proof.
  unfold _mutate_text.
  destruct (choice_ok mutations r) as (m & Hc & Hm); [discriminate|].
  rewrite Hc. simpl. unfold mutations in Hm.
  repeat (apply elem_of_cons in Hm; destruct Hm as [->|Hm]); eauto.
  - apply _swap_words_ok.
  - apply _insert_phrase_ok.
  - apply elem_of_nil in Hm. destruct Hm.
Qed.

Lemma _mutate_ok gen parent r : exists c r', _mutate gen parent r = Ok (c, r') /\
  Candidate.fitness c = 0%Q.
Proof.
  unfold _mutate. destruct (randint 0 9999 r) as [k r1].
  destruct (_mutate_text_ok (Candidate.content parent) r1) as (t & r2 & Ht).
  rewrite Ht. simpl. eauto.
Qed.

(** ** Construction *)

Lemma create_population_loop_spec todo : forall i sd pop h r,
  exists cells r',
    create_population_loop todo i sd pop h r
      = Ok (pop ++ seq (List.length h) todo, h ++ cells, r') /\
    List.length cells = todo /\ Forall zero_fitness cells.
Proof.
  induction todo as [|todo IH]; intros i sd pop h r; simpl.
  - exists [], r. rewrite !app_nil_r. auto.
  - assert (Ht : exists t r1,
      (if 0 <? i then _mutate_text sd r else Ok (sd, r)) = Ok (t, r1)).
    { destruct (0 <? i); [apply _mutate_text_ok | eauto]. }
    destruct Ht as (t & r1 & Ht). rewrite Ht. simpl.
    match goal with |- context [ h ++ [?c] ] => set (cell := c) end.
    destruct (IH (i + 1) sd (pop ++ [List.length h]) (h ++ [cell]) r1)
      as (cells & r' & Hloop & Hlen & Hz).
    exists (cell :: cells), r'.
    split; [|split; [simpl; lia|]].
    { etransitivity; [exact Hloop|].
      rewrite length_app, <- !app_assoc. simpl.
      replace (List.length h + 1)%nat with (S (List.length h)) by lia.
      reflexivity. }
    constructor; [reflexivity | exact Hz].
Qed.

Lemma create_islands_spec todo : forall sd ps ni h r,
  (todo = 0%nat \/ ni <> 0) ->
  exists isl cells r',
    create_islands todo sd ps ni h r = Ok (isl, h ++ cells, r') /\
    List.length isl = todo /\
    Forall (fun island => List.length island = island_size ps ni) isl /\
    Forall zero_fitness cells /\
    Forall (Forall (fun a => (List.length h <= a < List.length (h ++ cells))%nat)) isl.
Proof.
  induction todo as [|todo IH]; intros sd ps ni h r Hni; simpl.
  - exists [], [], r. rewrite app_nil_r. repeat split; constructor.
  - assert (Hne : ni <> 0) by (destruct Hni; [discriminate | assumption]).
    unfold _create_initial_population, floordiv.
    destruct (Z.eqb_spec ni 0) as [?|_]; [contradiction|]. simpl.
    destruct (create_population_loop_spec (Z.to_nat (ps / ni)) 0 sd [] h r)
      as (cells1 & r1 & Hloop & Hlen1 & Hz1).
    rewrite Hloop. simpl.
    destruct (IH sd ps ni (h ++ cells1) r1 (or_intror Hne))
      as (isl & cells2 & r2 & Hrest & Hlen & Hsz & Hz2 & Hv).
    rewrite Hrest. simpl.
    exists (seq (List.length h) (Z.to_nat (ps / ni)) :: isl), (cells1 ++ cells2), r2.
    rewrite app_assoc. split; [reflexivity|].
    split; [simpl; lia|]. split.
    { constructor; [apply length_seq | exact Hsz]. }
    split; [apply Forall_app; auto|].
    constructor.
    + apply Forall_forall. intros a Ha. apply elem_of_seq in Ha.
      rewrite !length_app. lia.
    + eapply Forall_impl; [exact Hv|]. intros island Hi.
      eapply Forall_impl; [exact Hi|]. intros a Ha. simpl in Ha.
      rewrite !length_app in *. lia.
Qed.

Lemma __init___spec args h r :
  exists isl cells r',
    __init__ args h r =
      Ok (mkProcess
            (SimpleEvolver.mk (a_seed args) (a_evaluation_criteria args)
               (a_population_size args) (a_num_islands args)
               (a_mutation_model args) (a_evaluation_model args)
               (a_elitism args) (a_crossover_rate args) (a_mutation_rate args)
               isl 0 None [] 0)
            (h ++ cells) r') /\
    List.length isl = Z.to_nat (a_num_islands args) /\
    Forall (fun island =>
      List.length island = island_size (a_population_size args) (a_num_islands args)) isl /\
    Forall zero_fitness cells /\
    Forall (Forall (fun a => (List.length h <= a < List.length (h ++ cells))%nat)) isl.
Proof.
  unfold __init__.
  destruct (create_islands_spec (Z.to_nat (a_num_islands args)) (a_seed args)
              (a_population_size args) (a_num_islands args) h r)
    as (isl & cells & r' & Hc & Hrest).
  { destruct (Z.eq_dec (a_num_islands args) 0) as [->|]; auto. }
  rewrite Hc. simpl. exists isl, cells, r'. split; [reflexivity | exact Hrest].
Qed.

(** C2. Construction never raises: it builds [max(num_islands, 0)] islands
    of [max(population_size // num_islands, 0)] candidates each, whatever
    the seed, the sizes, the heap and the random draws. *)
Theorem init_never_raises (args : InitArgs) (h : Heap) (r : RNG) :
  exists p,
    __init__ args h r = Ok p /\
    List.length (islands (self p)) = Z.to_nat (a_num_islands args) /\
    Forall (fun island =>
      List.length island = Z.to_nat (a_population_size args / a_num_islands args))
      (islands (self p)).
Proof.
  destruct (__init___spec args h r) as (isl & cells & r' & Hinit & Hlen & Hsz & _).
  eexists. split; [exact Hinit|]. simpl. split; [exact Hlen | exact Hsz].
Qed.

(** C2, as stated, fails: with [num_islands = 0], and with
    [population_size < num_islands], construction succeeds. *)
Lemma init_accepts_invalid_sizing :
  (exists p, __init__ (default_args "s" "c" 4 0) [] (const_rng 0) = Ok p /\
             islands (self p) = []) /\
  (exists p, __init__ (default_args "s" "c" 1 2) [] (const_rng 0) = Ok p /\
             islands (self p) = [[]; []]).
Proof. split; eexists; split; vm_compute; reflexivity. Qed.

(** ** Words *)

Lemma string_of_rev_rev (w : string) :
  string_of_list_ascii (rev (rev (list_ascii_of_string w))) = w.
Proof. rewrite rev_involutive. apply string_of_list_ascii_of_string. Qed.

Lemma append_empty_r (s : string) : s +:+ "" = s.
Proof.
  induction s as [|c s IH]; [reflexivity|].
  change (String c s +:+ "") with (String c (s +:+ "")). f_equal. exact IH.
Qed.

Lemma split_go_word (w : list ascii) : forall cur s,
  Forall (fun c => is_space c = false) w ->
  split_go cur (string_of_list_ascii w +:+ s) = split_go (rev w ++ cur) s.
Proof.
  induction w as [|c w IH]; intros cur s Hw; [reflexivity|].
  change (string_of_list_ascii (c :: w) +:+ s)
    with (String c (string_of_list_ascii w +:+ s)).
  simpl. inversion Hw as [|? ? Hc Hw']; subst. rewrite Hc.
  rewrite IH by exact Hw'. rewrite <- app_assoc. reflexivity.
Qed.

Lemma split_join_words (ws : list string) :
  Forall is_word ws -> split (join " " ws) = ws.
Proof.
  unfold split. induction ws as [|w ws IH]; intros Hws; [reflexivity|].
  inversion Hws as [|? ? [Hne Hsp] Hws']; subst.
  assert (Hcur : rev (list_ascii_of_string w) <> []).
  { intros Hnil. apply Hne. destruct w; [reflexivity|].
    simpl in Hnil. destruct (rev (list_ascii_of_string w)); discriminate. }
  destruct ws as [|w' ws'].
  - simpl join.
    transitivity (split_go [] (string_of_list_ascii (list_ascii_of_string w) +:+ "")).
    { rewrite append_empty_r, string_of_list_ascii_of_string. reflexivity. }
    rewrite split_go_word by exact Hsp. rewrite app_nil_r. simpl.
    destruct (rev (list_ascii_of_string w)) eqn:E; [congruence|].
    rewrite <- E, string_of_rev_rev. reflexivity.
  - change (join " " (w :: w' :: ws')) with (w +:+ " " +:+ join " " (w' :: ws')).
    transitivity (split_go [] (string_of_list_ascii (list_ascii_of_string w)
                                 +:+ " " +:+ join " " (w' :: ws'))).
    { rewrite string_of_list_ascii_of_string. reflexivity. }
    rewrite split_go_word by exact Hsp. rewrite app_nil_r.
    change (" " +:+ join " " (w' :: ws')) with (String " " (join " " (w' :: ws'))).
    simpl split_go.
    destruct (rev (list_ascii_of_string w)) eqn:E; [congruence|].
    rewrite <- E, string_of_rev_rev. f_equal. apply IH. exact Hws'.
Qed.

Lemma split_go_words (s : string) : forall cur,
  Forall (fun c => is_space c = false) cur ->
  Forall is_word (split_go cur s).
Proof.
  assert (Hw : forall cur, cur <> [] -> Forall (fun c => is_space c = false) cur ->
                is_word (string_of_list_ascii (rev cur))).
  { intros cur Hne Hsp. split.
    - intros Hnil. apply Hne.
      apply (f_equal list_ascii_of_string) in Hnil.
      rewrite list_ascii_of_string_of_list_ascii in Hnil. simpl in Hnil.
      destruct cur; [reflexivity|]. simpl in Hnil.
      destruct (rev cur); discriminate.
    - rewrite list_ascii_of_string_of_list_ascii. apply Forall_rev. exact Hsp. }
  induction s as [|c s IH]; intros cur Hcur; simpl.
  - destruct cur; constructor; [apply Hw; [discriminate | exact Hcur] | constructor].
  - destruct (is_space c) eqn:Hc.
    + destruct cur.
      * apply IH. constructor.
      * constructor; [apply Hw; [discriminate | exact Hcur] | apply IH; constructor].
    + apply IH. constructor; assumption.
Qed.

Lemma split_words (s : string) : Forall is_word (split s).
Proof. apply split_go_words. constructor. Qed.

Lemma half_min (a b : nat) :
  (Nat.min a b / 2 = Nat.min (a / 2) (b / 2))%nat.
Proof.
  destruct (Nat.le_ge_cases a b) as [H|H].
  - rewrite (Nat.min_l a b H).
    pose proof (Nat.Div0.div_le_mono a b 2 H). lia.
  - rewrite (Nat.min_r a b H).
    pose proof (Nat.Div0.div_le_mono b a 2 H). lia.
Qed.

(** C6. The child's words are the first [point] words of parent 1 followed
    by the words of parent 2 from [point] on, where [point] is half the word
    count of the shorter parent; the child is tagged ["crossover"] and names
    parent 1 as its parent. The one cut is the midpoint of each parent's own
    word sequence exactly when the two halved word counts are equal, and
    exactly then the child is the one a midpoint split of each parent
    gives; equally many words in both parents is one such case. *)
Theorem crossover_single_cut (gen : Z) (parent1 parent2 : Candidate.t) (r : RNG) :
  let child := fst (_crossover gen parent1 parent2 r) in
  let words1 := split (Candidate.content parent1) in
  let words2 := split (Candidate.content parent2) in
  let point := (Nat.min (List.length words1) (List.length words2) / 2)%nat in
  split (Candidate.content child) = take point words1 ++ drop point words2 /\
  Candidate.mutation_type child = Some "crossover" /\
  Candidate.parent_id child = Some (Candidate.id parent1) /\
  Candidate.generation child = gen /\
  ((point = List.length words1 / 2 /\ point = List.length words2 / 2)%nat <->
   (List.length words1 / 2 = List.length words2 / 2)%nat) /\
  (split (Candidate.content child) = midpoint_crossover_words words1 words2 <->
   (List.length words1 / 2 = List.length words2 / 2)%nat) /\
  (List.length words1 = List.length words2 ->
   split (Candidate.content child) = midpoint_crossover_words words1 words2).
Proof.
  intros child words1 words2 point.
  assert (Hc : Candidate.content child = join " " (take point words1 ++ drop point words2)).
  { unfold child, _crossover. destruct (randint 0 9999 r). reflexivity. }
  assert (Hsplit : split (Candidate.content child) = take point words1 ++ drop point words2).
  { rewrite Hc. apply split_join_words. apply Forall_app. split.
    - apply Forall_take, split_words.
    - apply Forall_drop, split_words. }
  split; [exact Hsplit|].
  assert (Htags : Candidate.mutation_type child = Some "crossover" /\
                  Candidate.parent_id child = Some (Candidate.id parent1) /\
                  Candidate.generation child = gen).
  { unfold child, _crossover. destruct (randint 0 9999 r). simpl. auto. }
  destruct Htags as (Hm & Hp & Hg).
  split; [exact Hm|]. split; [exact Hp|]. split; [exact Hg|].
  assert (Hpoint : point = Nat.min (List.length words1 / 2) (List.length words2 / 2))
    by apply half_min.
  assert (H1 : (List.length words1 / 2 <= List.length words1)%nat)
    by (apply Nat.Div0.div_le_upper_bound; lia).
  assert (H2 : (List.length words2 / 2 <= List.length words2)%nat)
    by (apply Nat.Div0.div_le_upper_bound; lia).
  assert (Hiff : split (Candidate.content child) = midpoint_crossover_words words1 words2 <->
                 (List.length words1 / 2 = List.length words2 / 2)%nat).
  { rewrite Hsplit. unfold midpoint_crossover_words. split.
    - intros Heq. apply (f_equal (@List.length string)) in Heq.
      rewrite !length_app, !length_take, !length_drop in Heq. lia.
    - intros Heq.
      replace point with (List.length words1 / 2)%nat by lia.
      rewrite Heq. reflexivity. }
  split; [lia|]. split; [exact Hiff|].
  intros Heq. apply Hiff. rewrite Heq. reflexivity.
Qed.

(** C6, as stated, fails: a six-word and a two-word parent are both cut
    after one word, not each at its own midpoint. *)
Lemma crossover_not_own_midpoints :
  Candidate.content (fst (_crossover 1 six_words two_words (const_rng 0))) = "a y" /\
  join " " (midpoint_crossover_words (split (Candidate.content six_words))
                                     (split (Candidate.content two_words))) = "a b c y" /\
  split (Candidate.content (fst (_crossover 1 six_words two_words (const_rng 0))))
  <> midpoint_crossover_words (split (Candidate.content six_words))
                              (split (Candidate.content two_words)).
Proof.
  split; [vm_compute; reflexivity|]. split; [vm_compute; reflexivity|].
  vm_compute. discriminate.
Qed.

(** ** Rational order *)

Lemma Qlt_bool_true x y : Qlt_bool x y = true <-> (x < y)%Q.
Proof.
  unfold Qlt_bool. rewrite negb_true_iff. split.
  - intros H. apply Qnot_le_lt. intros Hle. apply Qle_bool_iff in Hle. congruence.
  - intros H. destruct (Qle_bool y x) eqn:E; [|reflexivity].
    apply Qle_bool_iff in E. exfalso. eapply Qlt_not_le; eauto.
Qed.

Lemma Qlt_bool_false x y : Qlt_bool x y = false <-> (y <= x)%Q.
Proof.
  unfold Qlt_bool. rewrite negb_false_iff. apply Qle_bool_iff.
Qed.

Lemma Qle_bool_false x y : Qle_bool x y = false -> (y <= x)%Q.
Proof.
  intros H. apply Qlt_le_weak. apply Qnot_le_lt. intros Hle.
  apply Qle_bool_iff in Hle. congruence.
Qed.

(** ** Stable descending sort *)

Lemma insert_desc_perm key a l : insert_desc key a l ≡ₚ a :: l.
Proof.
  induction l as [|b l IH]; simpl; [reflexivity|].
  destruct (Qle_bool (key b) (key a)); [reflexivity|].
  rewrite IH. apply Permutation_swap.
Qed.

Lemma sort_desc_perm key l : sort_desc key l ≡ₚ l.
Proof.
  unfold sort_desc. induction l as [|a l IH]; simpl; [reflexivity|].
  rewrite insert_desc_perm, IH. reflexivity.
Qed.

Lemma sort_desc_length key l : List.length (sort_desc key l) = List.length l.
Proof. apply Permutation_length, sort_desc_perm. Qed.

Lemma insert_desc_sorted key a l :
  StronglySorted (desc_by key) l -> StronglySorted (desc_by key) (insert_desc key a l).
Proof.
  induction l as [|b l IH]; intros Hs; simpl.
  - repeat constructor.
  - inversion Hs as [|? ? Hs' Hb]; subst.
    destruct (Qle_bool (key b) (key a)) eqn:E.
    + apply Qle_bool_iff in E. constructor; [exact Hs|].
      constructor; [exact E|].
      eapply Forall_impl; [exact Hb|]. intros c Hc. unfold desc_by in *.
      eapply Qle_trans; eauto.
    + apply Qle_bool_false in E. constructor; [apply IH; exact Hs'|].
      rewrite insert_desc_perm. constructor; [exact E | exact Hb].
Qed.

Lemma sort_desc_sorted key l : StronglySorted (desc_by key) (sort_desc key l).
Proof.
  unfold sort_desc. induction l as [|a l IH]; simpl; [constructor|].
  apply insert_desc_sorted, IH.
Qed.


(** The first element of a sorted list is a maximum of the list. *)
Lemma sort_desc_head key l top rest :
  sort_desc key l = top :: rest -> forall a, a ∈ l -> (key a <= key top)%Q.
Proof.
  intros Hs a Ha.
  pose proof (sort_desc_sorted key l) as Hsorted. rewrite Hs in Hsorted.
  rewrite <- (sort_desc_perm key l), Hs in Ha.
  inversion Hsorted as [|? ? _ Hall]; subst.
  apply elem_of_cons in Ha. destruct Ha as [->|Ha]; [apply Qle_refl|].
  rewrite Forall_forall in Hall. apply Hall. exact Ha.
Qed.

(** ** Pareto front *)

Lemma deref_insert_eq (h : Heap) a c : (a < List.length h)%nat -> deref (<[a := c]> h) a = c.
Proof. intros H. unfold deref. rewrite list_lookup_insert_eq by exact H. reflexivity. Qed.

Lemma deref_insert_ne (h : Heap) a b c : a <> b -> deref (<[a := c]> h) b = deref h b.
Proof. intros H. unfold deref. rewrite list_lookup_insert_ne by exact H. reflexivity. Qed.

Lemma deref_insert_ge (h : Heap) a c : (List.length h <= a)%nat -> <[a := c]> h = h.
Proof. intros H. apply list_insert_ge. exact H. Qed.

Lemma novelty_of_ext h h' all a :
  (forall b, Candidate.id (deref h' b) = Candidate.id (deref h b) /\
             Candidate.content (deref h' b) = Candidate.content (deref h b)) ->
  novelty_of h' all a = novelty_of h all a.
Proof.
  intros Hext. unfold novelty_of.
  destruct (Hext a) as [Hid Hcontent]. rewrite Hid, Hcontent.
  rewrite (List.filter_ext _
    (fun b => negb (String.eqb (Candidate.id (deref h b)) (Candidate.id (deref h a))))).
  2: { intros b. destruct (Hext b) as [-> _]. reflexivity. }
  rewrite (map_ext (fun b => Candidate.content (deref h' b))
                   (fun b => Candidate.content (deref h b))).
  2: { intros b. destruct (Hext b) as [_ ->]. reflexivity. }
  reflexivity.
Qed.

Lemma same_but_novelty_refl h : same_but_novelty h h.
Proof. split; [reflexivity|]. intros a. destruct (deref h a). reflexivity. Qed.

Lemma same_but_novelty_fields h h' a :
  same_but_novelty h h' ->
  Candidate.id (deref h' a) = Candidate.id (deref h a) /\
  Candidate.content (deref h' a) = Candidate.content (deref h a).
Proof. intros [_ H]. rewrite (H a). split; reflexivity. Qed.

Lemma assign_novelty_spec all todo : forall h0 h,
  same_but_novelty h0 h ->
  same_but_novelty h0 (assign_novelty all todo h) /\
  forall a,
    (a ∈ todo -> (a < List.length h0)%nat ->
     Candidate.novelty (deref (assign_novelty all todo h) a) = novelty_of h0 all a) /\
    (a ∉ todo -> deref (assign_novelty all todo h) a = deref h a).
Proof.
  induction todo as [|x rest IH]; intros h0 h Hsame; simpl.
  - split; [exact Hsame|]. intros a. split; [intros Ha; inversion Ha | reflexivity].
  - set (h1 := <[x := Candidate.set_novelty (deref h x) (novelty_of h all x)]> h).
    assert (Hnov : novelty_of h all x = novelty_of h0 all x).
    { apply novelty_of_ext. intros b. apply same_but_novelty_fields. exact Hsame. }
    assert (Hsame1 : same_but_novelty h0 h1).
    { destruct Hsame as [Hlen Hcells]. split.
      - unfold h1. rewrite length_insert. exact Hlen.
      - intros a. unfold h1. destruct (decide (x = a)) as [->|Hne].
        + destruct (Nat.lt_ge_cases a (List.length h)) as [Hlt|Hge].
          * rewrite deref_insert_eq by exact Hlt. rewrite (Hcells a). reflexivity.
          * rewrite deref_insert_ge by exact Hge. apply Hcells.
        + rewrite deref_insert_ne by exact Hne. apply Hcells. }
    destruct (IH h0 h1 Hsame1) as [Hsame' Hcells'].
    split; [exact Hsame'|]. intros a. split.
    + intros Ha Hlt. destruct (decide (a ∈ rest)) as [Hin|Hnin].
      * apply Hcells'; assumption.
      * apply elem_of_cons in Ha. destruct Ha as [->|Ha]; [|contradiction].
        destruct (Hcells' x) as [_ Hkeep]. rewrite Hkeep by exact Hnin.
        unfold h1. rewrite deref_insert_eq.
        -- simpl. exact Hnov.
        -- destruct Hsame as [Hlen _]. rewrite Hlen. exact Hlt.
    + intros Ha. apply not_elem_of_cons in Ha. destruct Ha as [Hne Hnin].
      destruct (Hcells' a) as [_ Hkeep]. rewrite Hkeep by exact Hnin.
      unfold h1. apply deref_insert_ne. congruence.
Qed.

(** C8. Pareto-front extraction changes no island and, in the heap, only
    the novelty field: every candidate keeps its id, content, fitness,
    generation, parent and mutation type; a candidate outside the islands is
    untouched, and one inside them gets the novelty computed from the
    contents and ids of all island members. *)
Theorem pareto_front_writes_only_novelty (p : Process) :
  let p' := snd (get_pareto_front p) in
  let all := concat (islands (self p)) in
  self p' = self p /\
  rng p' = rng p /\
  List.length (heap p') = List.length (heap p) /\
  forall a,
    deref (heap p') a =
      Candidate.set_novelty (deref (heap p) a) (Candidate.novelty (deref (heap p') a)) /\
    (a ∉ all -> deref (heap p') a = deref (heap p) a) /\
    (a ∈ all -> (a < List.length (heap p))%nat ->
     Candidate.novelty (deref (heap p') a) = novelty_of (heap p) all a).
Proof.
  intros p' all. unfold p', get_pareto_front. simpl. fold all.
  destruct (assign_novelty_spec all all (heap p) (heap p) (same_but_novelty_refl _))
    as [[Hlen Hsame] Hcells].
  repeat split; try reflexivity; try exact Hlen.
  - apply Hsame.
  - apply Hcells.
  - apply Hcells.
Qed.

(** C8, as stated, fails: the only candidate of a one-candidate evolver
    has novelty 0 before the call and 1 after it. *)
Lemma pareto_front_overwrites_novelty :
  exists p,
    __init__ (default_args "s" "c" 1 1) [] (const_rng 0) = Ok p /\
    islands (self p) = [[0%nat]] /\
    Candidate.novelty (deref (heap p) 0) = 0%Q /\
    Candidate.novelty (deref (heap (snd (get_pareto_front p))) 0) = 1%Q.
Proof.
  eexists. split; [vm_compute; reflexivity|].
  split; [vm_compute; reflexivity|].
  split; vm_compute; reflexivity.
Qed.



(** ** Checkpoint documents *)

Lemma candidate_of_asdict (c : Candidate.t) :
  candidate_of_dict (asdict_candidate c) = Ok c.
Proof. destruct c as [i ct f n g [pi|] [mt|]]; reflexivity. Qed.

Lemma stats_of_asdict (s : GenerationStats.t) :
  stats_of_dict (asdict_stats s) = Ok s.
Proof. destruct s; reflexivity. Qed.

Lemma map_result_cons {A B} (f : A -> Result B) x xs :
  map_result f (x :: xs) = (y ← f x; ys ← map_result f xs; Ok (y :: ys)).
Proof. reflexivity. Qed.

Lemma map_result_stats (hist : list GenerationStats.t) :
  map_result stats_of_dict (map asdict_stats hist) = Ok hist.
Proof.
  induction hist as [|s hist IH]; [reflexivity|].
  rewrite map_cons, map_result_cons, stats_of_asdict, IH. reflexivity.
Qed.

Lemma map_result_lengths (vs : list (list Candidate.t)) :
  map_result (fun i => l ← as_list i; Ok (Z.of_nat (List.length l)))
    (map (fun cs => JList (map asdict_candidate cs)) vs)
  = Ok (map (fun cs => Z.of_nat (List.length cs)) vs).
Proof.
  induction vs as [|cs vs IH]; simpl; [reflexivity|].
  rewrite IH. simpl. rewrite length_map. reflexivity.
Qed.

Lemma deref_middle (h tail : Heap) c : deref (h ++ c :: tail) (List.length h) = c.
Proof. unfold deref. rewrite list_lookup_middle by reflexivity. reflexivity. Qed.

Lemma deref_app_l (h tail : Heap) a :
  (a < List.length h)%nat -> deref (h ++ tail) a = deref h a.
Proof. intros H. unfold deref. rewrite lookup_app_l by exact H. reflexivity. Qed.

Lemma hydrate_island_values (cs : list Candidate.t) : forall h : Heap,
  exists addrs,
    hydrate_island (map asdict_candidate cs) h = Ok (addrs, h ++ cs) /\
    forall tail, map (deref (h ++ cs ++ tail)) addrs = cs.
Proof.
  induction cs as [|c cs IH]; intros h.
  - exists []. simpl. rewrite app_nil_r. split; [reflexivity|]. reflexivity.
  - rewrite map_cons. cbn [hydrate_island]. rewrite candidate_of_asdict. simpl.
    destruct (IH (h ++ [c])) as (addrs & Hrest & Hvals).
    rewrite Hrest. simpl. exists (List.length h :: addrs).
    rewrite <- app_assoc. split; [reflexivity|].
    intros tail. simpl. rewrite deref_middle. f_equal.
    specialize (Hvals tail). rewrite <- app_assoc in Hvals. exact Hvals.
Qed.

Lemma hydrate_islands_values (vs : list (list Candidate.t)) : forall h : Heap,
  exists isl,
    hydrate_islands (map (fun cs => JList (map asdict_candidate cs)) vs) h
      = Ok (isl, h ++ concat vs) /\
    forall tail, map (map (deref (h ++ concat vs ++ tail))) isl = vs.
Proof.
  induction vs as [|cs vs IH]; intros h; simpl.
  - exists []. rewrite app_nil_r. split; reflexivity.
  - destruct (hydrate_island_values cs h) as (addrs & Hisland & Hvals).
    rewrite Hisland. simpl.
    destruct (IH (h ++ cs)) as (isl & Hrest & Hrvals).
    rewrite Hrest. simpl. exists (addrs :: isl).
    rewrite <- app_assoc. split; [reflexivity|].
    intros tail. simpl. f_equal.
    + rewrite <- app_assoc. apply Hvals.
    + specialize (Hrvals tail). rewrite <- !app_assoc in Hrvals |- *. exact Hrvals.
Qed.

(** C5. Loading the checkpoint that was saved for a process rebuilds its
    engine state: the task id, the generation, the best candidate, every
    candidate of every island in order, and the whole history are equal to
    the saved ones, field by field. *)
Theorem checkpoint_round_trip (dir task_id : string) (p : Process) (fs : FileSystem)
    (h : Heap) (r : RNG) :
  exists doc p',
    save_checkpoint dir task_id p fs !! checkpoint_path dir task_id = Some doc /\
    load_checkpoint doc h r = Ok p' /\
    engine_state task_id p' = engine_state task_id p.
Proof.
  exists (checkpoint_of task_id p).
  set (vs := map (map (deref (heap p))) (islands (self p))).
  assert (Hdoc : map (fun island => JList (map (fun a => asdict_candidate (deref (heap p) a)) island))
                   (islands (self p))
                 = map (fun cs => JList (map asdict_candidate cs)) vs).
  { unfold vs. rewrite map_map. apply map_ext. intros island. rewrite map_map. reflexivity. }
  assert (Hload : exists p', load_checkpoint (checkpoint_of task_id p) h r = Ok p' /\
                             engine_state task_id p' = engine_state task_id p).
  { unfold load_checkpoint, checkpoint_of. rewrite Hdoc.
    destruct (best_candidate (self p)) as [b|] eqn:Hbest.
    - set (c := deref (heap p) b).
      assert (Ht : json_truthy (asdict_candidate c) = true) by reflexivity.
      assert (Hg : getitem (asdict_candidate c) "content" = Ok (JStr (Candidate.content c)))
        by reflexivity.
      pose proof (candidate_of_asdict c) as Hc.
      remember (asdict_candidate c) as bc eqn:Ebc. clear Ebc.
      simpl. rewrite Ht, Hg. simpl.
      rewrite map_result_lengths. simpl.
      match goal with |- context [__init__ ?args h r] =>
        destruct (__init___spec args h r) as (isl0 & cells & r' & Hinit & _)
      end.
      rewrite Hinit. simpl.
      destruct (hydrate_islands_values vs (h ++ cells)) as (isl & Hisl & Hvals).
      rewrite Hisl. simpl.
      rewrite Hc. simpl.
      rewrite map_result_stats. simpl.
      eexists. split; [reflexivity|].
      unfold engine_state. simpl. rewrite Hbest. simpl. f_equal.
      + rewrite deref_middle. reflexivity.
      + specialize (Hvals [c]). rewrite <- !app_assoc in *. exact Hvals.
    - simpl. rewrite map_result_lengths. simpl.
      match goal with |- context [__init__ ?args h r] =>
        destruct (__init___spec args h r) as (isl0 & cells & r' & Hinit & _)
      end.
      rewrite Hinit. simpl.
      destruct (hydrate_islands_values vs (h ++ cells)) as (isl & Hisl & Hvals).
      rewrite Hisl. simpl.
      rewrite map_result_stats. simpl.
      eexists. split; [reflexivity|].
      unfold engine_state. simpl. rewrite Hbest. simpl. f_equal.
      specialize (Hvals []). rewrite !app_nil_r in Hvals. exact Hvals. }
  destruct Hload as (p' & Hload & Hstate).
  exists p'. split; [|split; assumption].
  unfold save_checkpoint. apply lookup_insert_eq.
Qed.

(** ** Scores *)

Lemma py_min_glb c a b : (c <= a)%Q -> (c <= b)%Q -> (c <= py_min a b)%Q.
Proof. intros Ha Hb. unfold py_min. destruct (Qlt_bool b a); assumption. Qed.

Lemma py_min_le_r a b : (py_min a b <= b)%Q.
Proof.
  unfold py_min. destruct (Qlt_bool b a) eqn:E; [apply Qle_refl|].
  apply Qlt_bool_false in E. exact E.
Qed.

Lemma _evaluate_bounds criteria c :
  (1 # 2 <= _evaluate criteria c)%Q /\ (_evaluate criteria c <= 1)%Q.
Proof.
  unfold _evaluate. split; [|apply py_min_le_r].
  match goal with |- context [py_min (2 # 10) ?x] =>
    assert (Hm : (0 <= py_min (2 # 10) x)%Q)
  end.
  { apply py_min_glb; [lra|].
    apply Qmult_le_0_compat; [|lra].
    change 0%Q with (inject_Z 0). rewrite <- Zle_Qle. lia. }
  match goal with |- context [py_min (2 # 10) ?x] =>
    set (m := py_min (2 # 10) x) in *
  end.
  repeat match goal with
         | |- context [if ?b then _ else _] => destruct b
         end;
    apply py_min_glb; lra.
Qed.

Lemma _evaluate_positive criteria c : (0 < _evaluate criteria c)%Q.
Proof. destruct (_evaluate_bounds criteria c) as [H _]. lra. Qed.

Lemma _evaluate_nonzero criteria c : Qeq_bool (_evaluate criteria c) 0 = false.
Proof.
  destruct (Qeq_bool (_evaluate criteria c) 0) eqn:E; [|reflexivity].
  apply Qeq_bool_iff in E. pose proof (_evaluate_positive criteria c). lra.
Qed.

Lemma _evaluate_set_fitness criteria c f :
  _evaluate criteria (Candidate.set_fitness c f) = _evaluate criteria c.
Proof. reflexivity. Qed.

(** ** Heaps during a generation *)

Lemma deref_ge (h : Heap) a : (List.length h <= a)%nat -> deref h a = Candidate.blank.
Proof. intros H. unfold deref. rewrite lookup_ge_None_2 by exact H. reflexivity. Qed.

Lemma scored_refl criteria c : scored criteria c c.
Proof. left. reflexivity. Qed.

Lemma scored_trans criteria c1 c2 c3 :
  scored criteria c1 c2 -> scored criteria c2 c3 -> scored criteria c1 c3.
Proof.
  intros [->|[Hz ->]] H23; [exact H23|].
  destruct H23 as [->|[Hz' _]].
  - right. auto.
  - simpl in Hz'. pose proof (_evaluate_positive criteria c1). lra.
Qed.

Lemma scored_fitness_le criteria c c' :
  scored criteria c c' -> (Candidate.fitness c <= Candidate.fitness c')%Q.
Proof.
  intros [->|[Hz ->]]; [apply Qle_refl|]. simpl.
  pose proof (_evaluate_positive criteria c). lra.
Qed.

Lemma scored_stable criteria c c' :
  scored criteria c c' -> ~ (Candidate.fitness c == 0)%Q -> c' = c.
Proof. intros [->|[Hz _]] Hnz; [reflexivity | contradiction]. Qed.

Lemma evolves_refl criteria touch h : evolves criteria touch h h.
Proof. split; [lia|]. intros a _. left. reflexivity. Qed.

Lemma evolves_scored criteria touch h h' a :
  evolves criteria touch h h' -> (a < List.length h)%nat ->
  scored criteria (deref h a) (deref h' a).
Proof. intros [_ H] Ha. destruct (H a Ha) as [->|[_ Hs]]; [apply scored_refl | exact Hs]. Qed.

Lemma evolves_trans criteria touch h1 h2 h3 :
  evolves criteria touch h1 h2 -> evolves criteria touch h2 h3 ->
  evolves criteria touch h1 h3.
Proof.
  intros [Hl12 H12] [Hl23 H23]. split; [lia|]. intros a Ha.
  destruct (H12 a Ha) as [E12|[Ht S12]]; destruct (H23 a ltac:(lia)) as [E23|[Ht' S23]].
  - left. congruence.
  - right. split; [exact Ht'|]. rewrite <- E12. exact S23.
  - right. split; [exact Ht|]. rewrite E23. exact S12.
  - right. split; [exact Ht|]. eapply scored_trans; eauto.
Qed.

Lemma evolves_weaken criteria touch touch' h h' :
  (forall a, a ∈ touch -> a ∈ touch') ->
  evolves criteria touch h h' -> evolves criteria touch' h h'.
Proof.
  intros Hsub [Hl H]. split; [exact Hl|]. intros a Ha.
  destruct (H a Ha) as [E|[Ht S]]; [left; exact E | right; auto].
Qed.

Lemma evolves_app criteria touch (h cells : Heap) : evolves criteria touch h (h ++ cells).
Proof.
  split; [rewrite length_app; lia|]. intros a Ha. left. apply deref_app_l. exact Ha.
Qed.

Lemma evolves_untouched criteria touch h h' a :
  evolves criteria touch h h' -> (a < List.length h)%nat -> a ∉ touch ->
  deref h' a = deref h a.
Proof. intros [_ H] Ha Hn. destruct (H a Ha) as [E|[Ht _]]; [exact E | contradiction]. Qed.

Lemma evolves_stable criteria touch h h' a :
  evolves criteria touch h h' -> (a < List.length h)%nat ->
  ~ (fitness_at h a == 0)%Q -> deref h' a = deref h a.
Proof.
  intros He Ha Hnz. eapply scored_stable; [eapply evolves_scored; eauto | exact Hnz].
Qed.

Lemma evolves_fitness_le criteria touch h h' a :
  evolves criteria touch h h' -> (a < List.length h)%nat ->
  (fitness_at h a <= fitness_at h' a)%Q.
Proof. intros He Ha. eapply scored_fitness_le, evolves_scored; eauto. Qed.

(** The evaluation loop scores exactly the unscored cells of the island. *)
Lemma evaluate_all_spec criteria island : forall (h : Heap) evals,
  let h' := fst (evaluate_all criteria island h evals) in
  List.length h' = List.length h /\
  (forall a, a ∈ island -> (a < List.length h)%nat ->
     Qeq_bool (Candidate.fitness (deref h a)) 0 = true ->
     deref h' a = Candidate.set_fitness (deref h a) (_evaluate criteria (deref h a))) /\
  (forall a, a ∉ island \/ (List.length h <= a)%nat \/
             Qeq_bool (Candidate.fitness (deref h a)) 0 = false ->
     deref h' a = deref h a).
Proof.
  induction island as [|x rest IH]; intros h evals; simpl.
  - split; [reflexivity|]. split; [intros a Ha; inversion Ha | reflexivity].
  - destruct (Qeq_bool (Candidate.fitness (deref h x)) 0) eqn:Ex.
    + set (h1 := <[x := Candidate.set_fitness (deref h x) (_evaluate criteria (deref h x))]> h).
      destruct (IH h1 (evals + 1)) as (Hlen & Hset & Hkeep).
      assert (Hlen1 : List.length h1 = List.length h) by apply length_insert.
      split; [congruence|]. split.
      * intros a Ha Hlt Hz. destruct (decide (a = x)) as [->|Hne].
        -- rewrite Hkeep.
           ++ unfold h1. apply deref_insert_eq. exact Hlt.
           ++ right. right. unfold h1. rewrite deref_insert_eq by exact Hlt.
              simpl. apply _evaluate_nonzero.
        -- apply elem_of_cons in Ha. destruct Ha as [?|Ha]; [contradiction|].
           assert (Hd : deref h1 a = deref h a) by (apply deref_insert_ne; congruence).
           rewrite <- Hd. apply Hset; [exact Ha | lia | rewrite Hd; exact Hz].
      * intros a Ha. destruct (decide (a = x)) as [->|Hne].
        -- destruct Ha as [Ha|[Ha|Ha]].
           ++ exfalso. apply Ha. left.
           ++ rewrite Hkeep by (right; left; lia).
              unfold h1. rewrite deref_insert_ge by exact Ha. reflexivity.
           ++ congruence.
        -- assert (Hd : deref h1 a = deref h a) by (apply deref_insert_ne; congruence).
           rewrite <- Hd. apply Hkeep. rewrite Hd, Hlen1.
           destruct Ha as [Ha|[Ha|Ha]]; auto.
           left. intros Hin. apply Ha. right. exact Hin.
    + destruct (IH h evals) as (Hlen & Hset & Hkeep).
      split; [exact Hlen|]. split.
      * intros a Ha Hlt Hz. apply elem_of_cons in Ha. destruct Ha as [->|Ha]; [congruence|].
        apply Hset; assumption.
      * intros a Ha. apply Hkeep. destruct Ha as [Ha|[Ha|Ha]]; auto.
        left. intros Hin. apply Ha. right. exact Hin.
Qed.

Lemma evaluate_all_evolves criteria island (h : Heap) evals :
  evolves criteria island h (fst (evaluate_all criteria island h evals)).
Proof.
  destruct (evaluate_all_spec criteria island h evals) as (Hlen & Hset & Hkeep).
  split; [lia|]. intros a Ha.
  destruct (decide (a ∈ island)) as [Hin|Hnin]; [|left; apply Hkeep; auto].
  destruct (Qeq_bool (Candidate.fitness (deref h a)) 0) eqn:Ez.
  - right. split; [exact Hin|]. right. split; [apply Qeq_bool_iff; exact Ez|].
    apply Hset; assumption.
  - left. apply Hkeep. auto.
Qed.

(** After the evaluation loop every cell of the island is scored. *)
Lemma evaluate_all_scored criteria island (h : Heap) evals a :
  a ∈ island -> (a < List.length h)%nat ->
  Qeq_bool (fitness_at (fst (evaluate_all criteria island h evals)) a) 0 = false.
Proof.
  intros Hin Hlt.
  destruct (evaluate_all_spec criteria island h evals) as (Hlen & Hset & Hkeep).
  unfold fitness_at.
  destruct (Qeq_bool (Candidate.fitness (deref h a)) 0) eqn:Ez.
  - rewrite Hset by assumption. simpl. apply _evaluate_nonzero.
  - rewrite Hkeep by auto. exact Ez.
Qed.

(** ** One island *)

Lemma _crossover_fitness gen p1 p2 r :
  Candidate.fitness (fst (_crossover gen p1 p2 r)) = 0%Q.
Proof. unfold _crossover. destruct (randint 0 9999 r). reflexivity. Qed.

Lemma _mutate_Ok_fitness gen parent r c r' :
  _mutate gen parent r = Ok (c, r') -> Candidate.fitness c = 0%Q.
Proof.
  intros H. destruct (_mutate_ok gen parent r) as (c0 & r0 & Hm & Hz).
  rewrite Hm in H. injection H as <- <-. exact Hz.
Qed.

(** The children of the fill loop are new cells, unscored, appended in
    order to the new island. *)
Lemma make_child_fitness sv island (h : Heap) r child r' :
  make_child sv island h r = Ok (child, r') -> Candidate.fitness child = 0%Q.
Proof.
  unfold make_child. destruct (random r) as [u r0].
  destruct (Qlt_bool u (crossover_rate sv) && (2 <=? List.length island)%nat)%bool; intros H.
  - inv_bind H. destruct x as [[p1 p2] r2].
    pose proof (_crossover_fitness (generation sv) (deref h p1) (deref h p2) r2) as Hf.
    destruct (_crossover (generation sv) (deref h p1) (deref h p2) r2) as [c rr].
    injection H as <- <-. exact Hf.
  - inv_bind H. destruct x as [p0 r2]. eapply _mutate_Ok_fitness; eauto.
Qed.

Lemma make_child_total sv island (h : Heap) r :
  (2 <= List.length (fitter_half island))%nat ->
  exists res, make_child sv island h r = Ok res.
Proof.
  intros Hhalf. unfold make_child. destruct (random r) as [u r0].
  destruct (Qlt_bool u (crossover_rate sv) && (2 <=? List.length island)%nat)%bool.
  - destruct (sample2_ok (fitter_half island) r0 Hhalf) as (p1 & p2 & r1 & Hs & _).
    rewrite Hs. cbn [mbind Result_bind]. eauto.
  - destruct (choice_ok (fitter_half island) r0) as (p0 & Hc & _).
    { intros Hnil. rewrite Hnil in Hhalf. simpl in Hhalf. lia. }
    destruct (_mutate_ok (generation sv) (deref h p0) (snd (next_draw r0))) as (c & r2 & Hm & _).
    rewrite Hc. cbn [mbind Result_bind]. rewrite Hm. eauto.
Qed.

(** The children of the fill loop are new cells, unscored, appended in
    order to the new island. *)
Lemma fill_offspring_spec fuel : forall sv island new_island (h : Heap) r filled h' r',
  fill_offspring fuel sv island new_island h r = Ok (filled, h', r') ->
  exists cells,
    h' = h ++ cells /\ List.length cells = fuel /\ Forall zero_fitness cells /\
    filled = new_island ++ seq (List.length h) fuel.
Proof.
  induction fuel as [|fuel IH]; intros sv island new_island h r filled h' r' H;
    cbn [fill_offspring] in H.
  - injection H as <- <- <-. exists []. rewrite !app_nil_r. auto.
  - inv_bind H. destruct x as [child r1].
    apply make_child_fitness in Hx.
    cbn [alloc] in H. apply IH in H. destruct H as (cells & -> & Hlen & Hzs & ->).
    exists (child :: cells). rewrite <- !app_assoc, length_app. simpl.
    replace (List.length h + 1)%nat with (S (List.length h)) by lia.
    split; [reflexivity|]. split; [lia|]. split; [|reflexivity].
    constructor; [exact Hx | exact Hzs].
Qed.

(** With at least two candidates in the fitter half, neither branch of
    the fill loop can raise. *)
Lemma fill_offspring_total fuel : forall sv island new_island (h : Heap) r,
  (2 <= List.length (fitter_half island))%nat ->
  exists res, fill_offspring fuel sv island new_island h r = Ok res.
Proof.
  induction fuel as [|fuel IH]; intros sv island new_island h r Hhalf;
    cbn [fill_offspring]; [eauto|].
  destruct (make_child_total sv island h r Hhalf) as ([child r1] & Hc).
  rewrite Hc. cbn [mbind Result_bind alloc]. apply IH. exact Hhalf.
Qed.

Lemma track_best_spec island lp lp' :
  track_best island lp = Ok lp' ->
  exists top rest,
    island = top :: rest /\
    l_heap lp' = l_heap lp /\ l_rng lp' = l_rng lp /\ l_evals lp' = l_evals lp /\
    l_best lp' =
      (if Qlt_bool (best_fitness_of (l_heap lp) (l_best lp)) (fitness_at (l_heap lp) top)
       then Some top else l_best lp).
Proof.
  unfold track_best. destruct island as [|top rest]; [discriminate|].
  intros H. exists top, rest. split; [reflexivity|].
  destruct (Qlt_bool _ _); injection H as <-; simpl; auto.
Qed.

(** What one pass of the island loop does: score, sort, track the best,
    keep the elite, append the new children. *)
Lemma evolve_island_spec sv island lp new lp' :
  evolve_island sv island lp = Ok (new, lp') ->
  let h1 := fst (evaluate_all (evaluation_criteria sv) island (l_heap lp) (l_evals lp)) in
  let sorted := sort_desc (fitness_at h1) island in
  exists top rest cells nominal,
    sorted = top :: rest /\
    floordiv (population_size sv) (num_islands sv) = Ok nominal /\
    l_heap lp' = h1 ++ cells /\
    List.length cells = Z.to_nat (nominal - Z.of_nat (List.length (elite_of sv sorted))) /\
    Forall zero_fitness cells /\
    new = elite_of sv sorted ++ seq (List.length h1) (List.length cells) /\
    l_best lp' =
      (if Qlt_bool (best_fitness_of h1 (l_best lp)) (fitness_at h1 top)
       then Some top else l_best lp).
Proof.
  unfold evolve_island.
  destruct (evaluate_all (evaluation_criteria sv) island (l_heap lp) (l_evals lp))
    as [h1 evals1] eqn:Heval.
  cbn [fst]. intros H.
  bind_in H as lp2 Htrack.
  apply track_best_spec in Htrack.
  destruct Htrack as (top & rest & Hsorted & Hh2 & Hr2 & He2 & Hb2). cbn [l_heap l_best] in *.
  bind_in H as nominal Hnom.
  bind_in H as [[filled h3] r3] Hfill.
  injection H as <- <-. cbn [l_heap l_best].
  apply fill_offspring_spec in Hfill. destruct Hfill as (cells & -> & Hlen & Hz & ->).
  exists top, rest, cells, nominal. rewrite Hh2, Hlen. auto 10.
Qed.

Lemma fitter_half_length island :
  List.length (fitter_half island) = (List.length island / 2)%nat.
Proof.
  unfold fitter_half. rewrite length_take.
  pose proof (Nat.Div0.div_le_upper_bound (List.length island) 2 (List.length island)).
  assert ((List.length island / 2 <= List.length island)%nat).
  { apply Nat.Div0.div_le_upper_bound. lia. }
  lia.
Qed.

(** An island of four or more candidates is always replaced without an
    exception. *)
Lemma evolve_island_total sv island lp :
  (4 <= List.length island)%nat -> num_islands sv <> 0 ->
  exists res, evolve_island sv island lp = Ok res.
Proof.
  intros Hlen Hni. unfold evolve_island.
  destruct (evaluate_all _ island _ _) as [h1 evals1].
  pose proof (sort_desc_length (fitness_at h1) island) as Hslen.
  remember (sort_desc (fitness_at h1) island) as sorted eqn:Es. clear Es.
  assert (Hfd : floordiv (population_size sv) (num_islands sv)
                = Ok (population_size sv / num_islands sv)).
  { unfold floordiv. destruct (Z.eqb_spec (num_islands sv) 0); [contradiction | reflexivity]. }
  assert (Hhalf : (2 <= List.length (fitter_half sorted))%nat).
  { rewrite fitter_half_length, Hslen.
    change 2%nat with (4 / 2)%nat at 1. apply Nat.Div0.div_le_mono. exact Hlen. }
  assert (Htb : exists lp2, track_best sorted (mkLoop h1 (l_rng lp) (l_best lp)
                                       (l_improvements lp) evals1) = Ok lp2).
  { unfold track_best. destruct sorted as [|top rest]; [simpl in Hslen; lia|].
    destruct (Qlt_bool _ _); eauto. }
  destruct Htb as (lp2 & ->). cbn [mbind Result_bind]. rewrite Hfd. cbn [mbind Result_bind].
  match goal with |- context [fill_offspring ?f ?s ?i ?n ?h ?r] =>
    destruct (fill_offspring_total f s i n h r Hhalf) as ([[fl h3] r3] & Hf)
  end.
  rewrite Hf. cbn [mbind Result_bind]. eauto.
Qed.

Lemma deref_app_r_zero (h cells : Heap) a :
  Forall zero_fitness cells -> (List.length h <= a)%nat ->
  fitness_at (h ++ cells) a = 0%Q.
Proof.
  intros Hz Ha. unfold fitness_at, deref.
  rewrite lookup_app_r by exact Ha.
  destruct (cells !! (a - List.length h)%nat) as [c|] eqn:E; simpl; [|reflexivity].
  rewrite Forall_forall in Hz. apply Hz. eapply list_elem_of_lookup_2; eauto.
Qed.

Lemma fitness_at_app_l (h cells : Heap) a :
  (a < List.length h)%nat -> fitness_at (h ++ cells) a = fitness_at h a.
Proof. intros Ha. unfold fitness_at. rewrite deref_app_l by exact Ha. reflexivity. Qed.

Lemma fitness_at_ge (h : Heap) a : (List.length h <= a)%nat -> fitness_at h a = 0%Q.
Proof. intros Ha. unfold fitness_at. rewrite deref_ge by exact Ha. reflexivity. Qed.

Lemma best_is_max_nonneg h best : best_is_max h best -> (0 <= best_fitness_of h best)%Q.
Proof.
  intros [_ Hb]. destruct best as [b|]; simpl; [|apply Qle_refl].
  destruct (Hb b eq_refl) as [_ Hpos]. apply Qlt_le_weak. exact Hpos.
Qed.

Lemma evolve_island_evolves sv island lp new lp' :
  evolve_island sv island lp = Ok (new, lp') ->
  evolves (evaluation_criteria sv) island (l_heap lp) (l_heap lp').
Proof.
  intros H. apply evolve_island_spec in H.
  destruct H as (top & rest & cells & nominal & _ & _ & -> & _).
  eapply evolves_trans; [apply evaluate_all_evolves | apply evolves_app].
Qed.

(** The best candidate stays a maximum over all cells through one pass of
    the island loop, and its fitness does not decrease. *)
Lemma evolve_island_best sv island lp new lp' :
  evolve_island sv island lp = Ok (new, lp') ->
  best_is_max (l_heap lp) (l_best lp) ->
  best_is_max (l_heap lp') (l_best lp') /\
  (best_fitness_of (l_heap lp) (l_best lp) <= best_fitness_of (l_heap lp') (l_best lp'))%Q.
Proof.
  intros H Hinv. apply evolve_island_spec in H.
  set (h := l_heap lp) in *.
  set (h1 := fst (evaluate_all (evaluation_criteria sv) island h (l_evals lp))) in *.
  cbn zeta in H.
  destruct H as (top & rest & cells & nominal & Hsorted & _ & Hh' & _ & Hz & _ & Hbest').
  pose proof (best_is_max_nonneg _ _ Hinv) as Hnn.
  destruct Hinv as [Hmax Hbest].
  destruct (evaluate_all_spec (evaluation_criteria sv) island h (l_evals lp))
    as (Hlen & Hset & Hkeep). fold h1 in Hlen, Hset, Hkeep.
  pose proof (evaluate_all_evolves (evaluation_criteria sv) island h (l_evals lp)) as Hev.
  fold h1 in Hev.
  assert (Hbf : best_fitness_of h1 (l_best lp) = best_fitness_of h (l_best lp)).
  { destruct (l_best lp) as [b|]; simpl; [|reflexivity].
    destruct (Hbest b eq_refl) as [Hb Hpos]. unfold fitness_at.
    rewrite (evolves_stable _ _ _ _ _ Hev Hb); [reflexivity|].
    intros Hz0. rewrite Hz0 in Hpos. apply Qlt_irrefl in Hpos. exact Hpos. }
  assert (Hcells : forall a, (a < List.length h1)%nat ->
            (fitness_at h1 a <= best_fitness_of h (l_best lp))%Q \/
            (fitness_at h1 a <= fitness_at h1 top)%Q).
  { intros a Ha. destruct (decide (a ∈ island)) as [Hin|Hnin].
    - right. eapply sort_desc_head; eauto.
    - left. unfold fitness_at. rewrite Hkeep by auto. apply Hmax. lia. }
  rewrite Hh', Hbest', Hbf.
  destruct (Qlt_bool (best_fitness_of h (l_best lp)) (fitness_at h1 top)) eqn:Ecmp.
  - apply Qlt_bool_true in Ecmp.
    assert (Htop : (top < List.length h1)%nat).
    { destruct (Nat.lt_ge_cases top (List.length h1)) as [?|Hge]; [assumption|].
      rewrite (fitness_at_ge _ _ Hge) in Ecmp. lra. }
    assert (Hbt : best_fitness_of (h1 ++ cells) (Some top) = fitness_at h1 top).
    { simpl. apply fitness_at_app_l. exact Htop. }
    split; [split|rewrite Hbt; lra].
    + intros a Ha. rewrite Hbt.
      destruct (Nat.lt_ge_cases a (List.length h1)) as [Hlt|Hge].
      * rewrite fitness_at_app_l by exact Hlt.
        destruct (Hcells a Hlt); lra.
      * rewrite deref_app_r_zero by assumption. lra.
    + intros b [= <-]. rewrite length_app. split; [lia|].
      rewrite fitness_at_app_l by exact Htop. lra.
  - apply Qlt_bool_false in Ecmp.
    assert (Hsame : best_fitness_of (h1 ++ cells) (l_best lp) = best_fitness_of h (l_best lp)).
    { rewrite <- Hbf. destruct (l_best lp) as [b|]; simpl; [|reflexivity].
      destruct (Hbest b eq_refl) as [Hb _]. apply fitness_at_app_l. lia. }
    split; [split|rewrite Hsame; apply Qle_refl].
    + intros a Ha. rewrite Hsame.
      destruct (Nat.lt_ge_cases a (List.length h1)) as [Hlt|Hge].
      * rewrite fitness_at_app_l by exact Hlt.
        destruct (Hcells a Hlt); lra.
      * rewrite deref_app_r_zero by assumption. exact Hnn.
    + intros b Hb. destruct (Hbest b Hb) as [Hlt Hpos]. rewrite length_app.
      split; [lia|]. rewrite fitness_at_app_l by lia.
      unfold fitness_at in *. rewrite (evolves_stable _ _ _ _ _ Hev Hlt); [exact Hpos|].
      intros Hz0. unfold fitness_at in Hz0. rewrite Hz0 in Hpos.
      apply Qlt_irrefl in Hpos. exact Hpos.
Qed.

(** The island loop as a whole. *)
Lemma evolve_islands_cons sv island rest lp news lp' :
  evolve_islands sv (island :: rest) lp = Ok (news, lp') ->
  exists new lp1 news',
    evolve_island sv island lp = Ok (new, lp1) /\
    evolve_islands sv rest lp1 = Ok (news', lp') /\
    news = new :: news'.
Proof.
  cbn [evolve_islands]. intros H.
  bind_in H as [new lp1] H1. bind_in H as [news' lp2] H2.
  injection H as <- <-. eauto 10.
Qed.

Lemma evolve_islands_best sv todo : forall lp news lp',
  evolve_islands sv todo lp = Ok (news, lp') ->
  best_is_max (l_heap lp) (l_best lp) ->
  best_is_max (l_heap lp') (l_best lp') /\
  (best_fitness_of (l_heap lp) (l_best lp) <= best_fitness_of (l_heap lp') (l_best lp'))%Q.
Proof.
  induction todo as [|island rest IH]; intros lp news lp' H Hinv.
  - injection H as <- <-. split; [exact Hinv | apply Qle_refl].
  - apply evolve_islands_cons in H.
    destruct H as (new & lp1 & news' & H1 & H2 & ->).
    destruct (evolve_island_best _ _ _ _ _ H1 Hinv) as [Hinv1 Hle1].
    destruct (IH _ _ _ H2 Hinv1) as [Hinv2 Hle2].
    split; [exact Hinv2 | eapply Qle_trans; eauto].
Qed.


(** ** Migration *)

Lemma elem_of_concat {A} (a : A) (ls : list (list A)) :
  a ∈ concat ls <-> exists l, l ∈ ls /\ a ∈ l.
Proof.
  rewrite list_elem_of_In, in_concat. split; intros (l & H1 & H2); exists l.
  - rewrite !list_elem_of_In. auto.
  - rewrite <- !list_elem_of_In. auto.
Qed.

Lemma migrate_one_length (cur : list (list addr)) i :
  List.length (migrate_one cur i) = List.length cur.
Proof.
  unfold migrate_one. destruct (cur !! i) as [[|m tl]|]; try reflexivity.
  apply length_alter.
Qed.

Lemma fold_migrate_length idxs : forall cur : list (list addr),
  List.length (fold_left migrate_one idxs cur) = List.length cur.
Proof.
  induction idxs as [|i idxs IH]; intros cur; simpl; [reflexivity|].
  rewrite IH. apply migrate_one_length.
Qed.

Lemma migrate_length (isl : list (list addr)) :
  List.length (migrate isl) = List.length isl.
Proof. apply fold_migrate_length. Qed.

Lemma extended_in_refl isl l : extended_in isl l l.
Proof. exists []. rewrite app_nil_r. split; [reflexivity | constructor]. Qed.

Lemma migrate_one_extended isl (cur : list (list addr)) i :
  Forall2 (extended_in isl) isl cur ->
  Forall2 (extended_in isl) isl (migrate_one cur i).
Proof.
  intros HF. unfold migrate_one.
  destruct (cur !! i) as [[|m tl]|] eqn:Ei; try exact HF.
  assert (Hm : m ∈ concat isl).
  { destruct (Forall2_lookup_r _ _ _ _ _ HF Ei) as (l & Hl & ext & Hext & Hin).
    assert (Hml : m ∈ l ++ ext) by (rewrite <- Hext; left).
    apply elem_of_app in Hml. destruct Hml as [Hml|Hml].
    - apply elem_of_concat. exists l. split; [|exact Hml].
      eapply list_elem_of_lookup_2; eauto.
    - rewrite Forall_forall in Hin. apply Hin. exact Hml. }
  apply Forall2_same_length_lookup. split.
  - rewrite length_alter. eapply Forall2_length; eauto.
  - intros j l l' Hl Hl'.
    destruct (decide (S i mod List.length cur = j)%nat) as [Heq|Hne].
    + rewrite Heq in Hl'. rewrite list_lookup_alter_eq in Hl'.
      destruct (cur !! j) as [lj|] eqn:Ej; [|discriminate].
      injection Hl' as <-.
      destruct (Forall2_lookup_lr _ _ _ _ _ _ HF Hl Ej) as (ext & -> & Hin).
      exists (ext ++ [m]). rewrite app_assoc. split; [reflexivity|].
      apply Forall_app. split; [exact Hin|]. constructor; [exact Hm | constructor].
    + rewrite list_lookup_alter_ne in Hl' by exact Hne.
      eapply Forall2_lookup_lr; eauto.
Qed.

Lemma migrate_extended (isl : list (list addr)) :
  Forall2 (extended_in isl) isl (migrate isl).
Proof.
  unfold migrate.
  assert (H : forall idxs cur, Forall2 (extended_in isl) isl cur ->
            Forall2 (extended_in isl) isl (fold_left migrate_one idxs cur)).
  { induction idxs as [|i idxs IH]; intros cur HF; simpl; [exact HF|].
    apply IH, migrate_one_extended, HF. }
  apply H. apply Forall2_same_length_lookup. split; [reflexivity|].
  intros j l l' Hl Hl'. rewrite Hl in Hl'. injection Hl' as <-. apply extended_in_refl.
Qed.

Lemma after_migration_extended gen (isl : list (list addr)) :
  Forall2 (extended_in isl) isl (after_migration gen isl).
Proof.
  unfold after_migration. destruct (_ && _)%bool; [apply migrate_extended|].
  apply Forall2_same_length_lookup. split; [reflexivity|].
  intros j l l' Hl Hl'. rewrite Hl in Hl'. injection Hl' as <-. apply extended_in_refl.
Qed.

(** Migration neither drops nor invents a candidate. *)
Lemma after_migration_members gen (isl : list (list addr)) a :
  a ∈ concat (after_migration gen isl) <-> a ∈ concat isl.
Proof.
  pose proof (after_migration_extended gen isl) as HF.
  rewrite !elem_of_concat. split.
  - intros (l' & Hl' & Ha).
    apply list_elem_of_lookup in Hl'. destruct Hl' as (j & Hj).
    destruct (Forall2_lookup_r _ _ _ _ _ HF Hj) as (l & Hl & ext & -> & Hin).
    apply elem_of_app in Ha. destruct Ha as [Ha|Ha].
    + exists l. split; [eapply list_elem_of_lookup_2; eauto | exact Ha].
    + rewrite Forall_forall in Hin. apply elem_of_concat. apply Hin. exact Ha.
  - intros (l & Hl & Ha).
    apply list_elem_of_lookup in Hl. destruct Hl as (j & Hj).
    destruct (Forall2_lookup_l _ _ _ _ _ HF Hj) as (l' & Hl' & ext & -> & _).
    exists (l ++ ext). split; [eapply list_elem_of_lookup_2; eauto|].
    apply elem_of_app. left. exact Ha.
Qed.

Lemma fold_migrate_S (isl : list (list addr)) m :
  fold_left migrate_one (seq 0 (S m)) isl
  = migrate_one (fold_left migrate_one (seq 0 m) isl) m.
Proof. rewrite seq_S, fold_left_app. reflexivity. Qed.

Lemma source_of_succ k t : (2 <= k)%nat -> (S t < k)%nat -> source_of k (S t) = t.
Proof.
  intros Hk Ht. unfold source_of.
  replace (S t + k - 1)%nat with (t + 1 * k)%nat by lia.
  rewrite Nat.Div0.mod_add. apply Nat.mod_small. lia.
Qed.

Lemma source_of_zero k : (2 <= k)%nat -> source_of k 0 = (k - 1)%nat.
Proof. intros Hk. unfold source_of. simpl. apply Nat.mod_small. lia. Qed.

Lemma classic_received k m j : received k m j \/ ~ received k m j.
Proof. unfold received. lia. Qed.

(** The state of the islands after the first [m] passes of the migration
    loop, when no island is empty. *)
Lemma migrate_partial (isl : list (list addr)) m :
  (2 <= List.length isl)%nat -> (m <= List.length isl)%nat ->
  Forall (fun l => l <> []) isl ->
  forall j l, isl !! j = Some l ->
    (~ received (List.length isl) m j ->
       fold_left migrate_one (seq 0 m) isl !! j = Some l) /\
    (received (List.length isl) m j ->
       forall mg tl, isl !! source_of (List.length isl) j = Some (mg :: tl) ->
       fold_left migrate_one (seq 0 m) isl !! j = Some (l ++ [mg])).
Proof.
  intros Hk Hm Hne. set (k := List.length isl) in *.
  induction m as [|m IH]; intros j l Hj.
  - simpl. split; [intros _; exact Hj|].
    intros [[? ?]|[_ ?]]; lia.
  - specialize (IH ltac:(lia)).
    assert (Hjk : (j < k)%nat) by (eapply lookup_lt_Some; eauto).
    rewrite fold_migrate_S.
    set (cur := fold_left migrate_one (seq 0 m) isl) in *.
    assert (Hcurlen : List.length cur = k) by apply fold_migrate_length.
    destruct (lookup_lt_is_Some_2 isl m ltac:(fold k; lia)) as [lm Hlm].
    assert (Hlm_ne : lm <> []).
    { rewrite Forall_forall in Hne. apply Hne. eapply list_elem_of_lookup_2; eauto. }
    destruct lm as [|mg0 tl0]; [congruence|].
    assert (Hcur_m : exists tl', cur !! m = Some (mg0 :: tl')).
    { destruct (IH m _ Hlm) as [Hno Hyes].
      destruct (classic_received k m m) as [Hr|Hr].
      - destruct (lookup_lt_is_Some_2 isl (source_of k m)) as [ls Hls].
        { unfold source_of. apply Nat.mod_upper_bound. lia. }
        assert (Hls_ne : ls <> []).
        { rewrite Forall_forall in Hne. apply Hne. eapply list_elem_of_lookup_2; eauto. }
        destruct ls as [|mg1 tl1]; [congruence|].
        rewrite (Hyes Hr _ _ Hls). simpl. eauto.
      - rewrite (Hno Hr). eauto. }
    destruct Hcur_m as (tl' & Hcur_m).
    unfold migrate_one. rewrite Hcur_m, Hcurlen.
    set (t := (S m mod k)%nat).
    assert (Ht : (S m < k /\ t = S m)%nat \/ (S m = k /\ t = 0)%nat).
    { destruct (decide (S m = k)) as [E|E].
      - right. split; [exact E|]. unfold t. rewrite E. apply Nat.Div0.mod_same.
      - left. split; [lia|]. unfold t. apply Nat.mod_small. lia. }
    destruct (IH j l Hj) as [Hno Hyes].
    destruct (decide (t = j)) as [Etj|Ntj].
    + assert (Hnr : ~ received k m j).
      { intros [[? ?]|[? ?]]; destruct Ht as [[? ?]|[? ?]]; lia. }
      split.
      * intros Hnr'. exfalso. apply Hnr'. unfold received.
        destruct Ht as [[? ?]|[? ?]]; [left; lia | right; lia].
      * intros _ mg tl Hsrc.
        assert (Esrc : source_of k j = m).
        { destruct Ht as [[Hlt Et]|[Hlt Et]].
          - rewrite <- Etj, Et. apply source_of_succ; lia.
          - rewrite <- Etj, Et, source_of_zero by lia. lia. }
        rewrite Esrc, Hlm in Hsrc. injection Hsrc as <- <-.
        rewrite Etj, list_lookup_alter_eq, (Hno Hnr). reflexivity.
    + rewrite list_lookup_alter_ne by exact Ntj.
      assert (Hiff : received k (S m) j <-> received k m j).
      { unfold received. destruct Ht as [[? ?]|[? ?]]; split; intros [[? ?]|[? ?]]; lia. }
      split.
      * intros Hnr. apply Hno. rewrite <- Hiff. exact Hnr.
      * intros Hr. apply Hyes. rewrite <- Hiff. exact Hr.
Qed.

(** On two or more non-empty islands the loop is a ring: island [j]
    receives, at its end, the first candidate of the island before it. *)
Lemma migrate_ring (isl : list (list addr)) j l mg tl :
  (2 <= List.length isl)%nat -> Forall (fun l => l <> []) isl ->
  isl !! j = Some l ->
  isl !! source_of (List.length isl) j = Some (mg :: tl) ->
  migrate isl !! j = Some (l ++ [mg]).
Proof.
  intros Hk Hne Hj Hsrc. unfold migrate.
  destruct (migrate_partial isl (List.length isl) Hk ltac:(lia) Hne j l Hj) as [_ Hyes].
  apply (Hyes ltac:(unfold received; pose proof (lookup_lt_Some _ _ _ Hj); lia) mg tl Hsrc).
Qed.

(** ** One generation *)

Lemma evolve_generation_inv p stats p' :
  evolve_generation p = Ok (stats, p') ->
  exists isl lp,
    evolve_islands (set_generation (self p) (generation (self p) + 1))
      (islands (self p)) (start_loop p) = Ok (isl, lp) /\
    heap p' = l_heap lp /\
    rng p' = l_rng lp /\
    best_candidate (self p') = l_best lp /\
    islands (self p') = after_migration (generation (self p) + 1) isl /\
    generation (self p') = generation (self p) + 1 /\
    history (self p') = history (self p) ++ [stats] /\
    stats = make_stats (generation (self p) + 1) (l_heap lp)
              (after_migration (generation (self p) + 1) isl) (l_improvements lp) /\
    same_config (self p) (self p').
Proof.
  unfold evolve_generation. intros H.
  bind_in H as [isl lp] Hloop. injection H as <- <-.
  exists isl, lp. cbn. unfold same_config. auto 20.
Qed.

Lemma run_generations_ind (P : Process -> Prop) :
  (forall p stats p', P p -> evolve_generation p = Ok (stats, p') -> P p') ->
  forall n p p', P p -> run_generations n p = Ok p' -> P p'.
Proof.
  intros Hstep. induction n as [|n IH]; intros p p' HP H; cbn [run_generations] in H.
  - injection H as <-. exact HP.
  - bind_in H as [stats p1] H1. eapply IH; [|exact H]. eapply Hstep; eauto.
Qed.

Lemma run_generations_S n p p' :
  run_generations (S n) p = Ok p' <->
  exists p1 stats, run_generations n p = Ok p1 /\ evolve_generation p1 = Ok (stats, p').
Proof.
  revert p. induction n as [|n IH]; intros p.
  - cbn [run_generations]. split.
    + intros H. bind_in H as [stats p1] H1. injection H as <-. eauto.
    + intros (p1 & stats & [= <-] & H1). rewrite H1. reflexivity.
  - change (run_generations (S (S n)) p)
      with ('(_, q) ← evolve_generation p; run_generations (S n) q).
    split.
    + intros H. bind_in H as [stats q] H1. apply IH in H.
      destruct H as (p1 & stats' & Hrun & Hstep).
      exists p1, stats'. split; [|exact Hstep].
      cbn [run_generations]. rewrite H1. exact Hrun.
    + intros (p1 & stats' & Hrun & Hstep).
      cbn [run_generations] in Hrun. bind_in Hrun as [stats q] H1.
      rewrite H1. cbn [mbind Result_bind]. apply IH. eauto.
Qed.

(** ** Invariants of the island loop *)

Lemma cells_nonneg_scored criteria touch (h h' : Heap) :
  List.length h' = List.length h ->
  evolves criteria touch h h' -> cells_nonneg h -> cells_nonneg h'.
Proof.
  intros Hlen Hev Hnn a.
  destruct (Nat.lt_ge_cases a (List.length h)) as [Hlt|Hge].
  - eapply Qle_trans; [apply Hnn | eapply evolves_fitness_le; eauto].
  - rewrite fitness_at_ge by lia. apply Qle_refl.
Qed.

Lemma cells_nonneg_app (h cells : Heap) :
  cells_nonneg h -> Forall zero_fitness cells -> cells_nonneg (h ++ cells).
Proof.
  intros Hnn Hz a. destruct (Nat.lt_ge_cases a (List.length h)) as [Hlt|Hge].
  - rewrite fitness_at_app_l by exact Hlt. apply Hnn.
  - rewrite deref_app_r_zero by assumption. apply Qle_refl.
Qed.

Lemma evolve_island_nonneg sv island lp new lp' :
  evolve_island sv island lp = Ok (new, lp') ->
  cells_nonneg (l_heap lp) -> cells_nonneg (l_heap lp').
Proof.
  intros H Hnn. apply evolve_island_spec in H. cbn zeta in H.
  destruct H as (top & rest & cells & nominal & _ & _ & -> & _ & Hz & _).
  apply cells_nonneg_app; [|exact Hz].
  eapply cells_nonneg_scored; [| apply evaluate_all_evolves | exact Hnn].
  apply evaluate_all_spec.
Qed.

Lemma elite_of_subset sv sorted a : a ∈ elite_of sv sorted -> a ∈ sorted.
Proof.
  unfold elite_of. destruct (elitism sv); [|intros H; inversion H].
  intros H. apply elem_of_take in H. destruct H as (i & Hi & _).
  eapply list_elem_of_lookup_2; eauto.
Qed.

(** The members of a new island: elite survivors of the old one, and
    cells allocated during this pass, still unscored. *)
Lemma evolve_island_members sv island lp new lp' a :
  evolve_island sv island lp = Ok (new, lp') ->
  a ∈ new ->
  (elitism sv = true /\ a ∈ island) \/
  ((List.length (l_heap lp) <= a < List.length (l_heap lp'))%nat /\
   fitness_at (l_heap lp') a = 0%Q).
Proof.
  intros H Ha. apply evolve_island_spec in H. cbn zeta in H.
  destruct H as (top & rest & cells & nominal & _ & _ & Hh' & _ & Hz & -> & _).
  destruct (evaluate_all_spec (evaluation_criteria sv) island (l_heap lp) (l_evals lp))
    as (Hlen & _).
  apply elem_of_app in Ha. destruct Ha as [Ha|Ha].
  - left. split.
    + unfold elite_of in Ha. destruct (elitism sv); [reflexivity | inversion Ha].
    + apply elite_of_subset in Ha. rewrite sort_desc_perm in Ha. exact Ha.
  - right. apply elem_of_seq in Ha. rewrite Hh', length_app, Hlen in *.
    split; [lia|]. apply deref_app_r_zero; [exact Hz | lia].
Qed.

Lemma evolve_island_valid sv island lp new lp' :
  evolve_island sv island lp = Ok (new, lp') ->
  Forall (fun a => (a < List.length (l_heap lp))%nat) island ->
  Forall (fun a => (a < List.length (l_heap lp'))%nat) new.
Proof.
  intros H Hv. apply Forall_forall. intros a Ha.
  pose proof (evolve_island_evolves _ _ _ _ _ H) as [Hlen _].
  destruct (evolve_island_members _ _ _ _ _ _ H Ha) as [[_ Hin]|[Hr _]]; [|lia].
  rewrite Forall_forall in Hv. specialize (Hv a Hin). lia.
Qed.

Lemma evolve_islands_evolves sv todo : forall lp news lp',
  evolve_islands sv todo lp = Ok (news, lp') ->
  evolves (evaluation_criteria sv) (concat todo) (l_heap lp) (l_heap lp').
Proof.
  induction todo as [|island rest IH]; intros lp news lp' H.
  - injection H as <- <-. apply evolves_refl.
  - apply evolve_islands_cons in H. destruct H as (new & lp1 & news' & H1 & H2 & ->).
    eapply evolves_trans.
    + eapply evolves_weaken; [|eapply evolve_island_evolves; eauto].
      intros a Ha. simpl. apply elem_of_app. left. exact Ha.
    + eapply evolves_weaken; [|eapply IH; eauto].
      intros a Ha. simpl. apply elem_of_app. right. exact Ha.
Qed.

Lemma evolve_islands_nonneg sv todo : forall lp news lp',
  evolve_islands sv todo lp = Ok (news, lp') ->
  cells_nonneg (l_heap lp) -> cells_nonneg (l_heap lp').
Proof.
  induction todo as [|island rest IH]; intros lp news lp' H Hnn.
  - injection H as <- <-. exact Hnn.
  - apply evolve_islands_cons in H. destruct H as (new & lp1 & news' & H1 & H2 & ->).
    eapply IH; [exact H2|]. eapply evolve_island_nonneg; eauto.
Qed.

Lemma valid_islands_grow (h h' : Heap) isl :
  (List.length h <= List.length h')%nat -> valid_islands h isl -> valid_islands h' isl.
Proof.
  intros Hlen Hv. eapply Forall_impl; [exact Hv|]. intros l Hl.
  eapply Forall_impl; [exact Hl|]. intros a Ha. simpl in Ha. lia.
Qed.

Lemma evolve_islands_valid sv todo : forall lp news lp',
  evolve_islands sv todo lp = Ok (news, lp') ->
  valid_islands (l_heap lp) todo -> valid_islands (l_heap lp') news.
Proof.
  induction todo as [|island rest IH]; intros lp news lp' H Hv.
  - injection H as <- <-. constructor.
  - apply evolve_islands_cons in H. destruct H as (new & lp1 & news' & H1 & H2 & ->).
    inversion Hv as [|? ? Hisland Hrest]; subst.
    pose proof (evolve_island_evolves _ _ _ _ _ H1) as [Hlen1 _].
    pose proof (evolve_islands_evolves _ _ _ _ _ H2) as [Hlen2 _].
    constructor.
    + eapply Forall_impl; [eapply evolve_island_valid; eauto|].
      intros a Ha. simpl in Ha. lia.
    + eapply IH; [exact H2|]. eapply valid_islands_grow; eauto.
Qed.

(** The loop seen island by island. *)
Lemma evolve_islands_steps sv touch todo : forall lp news lp',
  (forall a, a ∈ concat todo -> a ∈ touch) ->
  evolve_islands sv todo lp = Ok (news, lp') ->
  Forall2 (island_step sv touch (l_heap lp) (l_heap lp')) todo news.
Proof.
  induction todo as [|island rest IH]; intros lp news lp' Hsub H.
  - injection H as <- <-. constructor.
  - apply evolve_islands_cons in H. destruct H as (new & lp1 & news' & H1 & H2 & ->).
    assert (Hsub1 : forall a, a ∈ island -> a ∈ touch).
    { intros a Ha. apply Hsub. simpl. apply elem_of_app. left. exact Ha. }
    assert (Hsub2 : forall a, a ∈ concat rest -> a ∈ touch).
    { intros a Ha. apply Hsub. simpl. apply elem_of_app. right. exact Ha. }
    assert (Hev1 : evolves (evaluation_criteria sv) touch (l_heap lp) (l_heap lp1)).
    { eapply evolves_weaken; [exact Hsub1 | eapply evolve_island_evolves; eauto]. }
    assert (Hev2 : evolves (evaluation_criteria sv) touch (l_heap lp1) (l_heap lp')).
    { eapply evolves_weaken; [exact Hsub2 | eapply evolve_islands_evolves; eauto]. }
    constructor.
    + exists lp, lp1. split; [exact H1|]. split; [apply evolves_refl | exact Hev2].
    + eapply Forall2_impl; [eapply IH; eauto|].
      intros old new' (lpa & lpb & Hstep & Ha & Hb).
      exists lpa, lpb. split; [exact Hstep|]. split; [|exact Hb].
      eapply evolves_trans; eauto.
Qed.

(** Once a best candidate exists it is never reset. *)
Lemma evolve_island_best_keep sv island lp new lp' b :
  evolve_island sv island lp = Ok (new, lp') ->
  l_best lp = Some b -> exists b', l_best lp' = Some b'.
Proof.
  intros H Hb. apply evolve_island_spec in H. cbn zeta in H.
  destruct H as (top & rest & cells & nominal & _ & _ & _ & _ & _ & _ & ->).
  destruct (Qlt_bool _ _); eauto.
Qed.

(** The first island that is processed yields a best candidate. *)
Lemma evolve_island_best_some sv island lp new lp' :
  evolve_island sv island lp = Ok (new, lp') ->
  Forall (fun a => (a < List.length (l_heap lp))%nat) island ->
  cells_nonneg (l_heap lp) ->
  exists b, l_best lp' = Some b.
Proof.
  intros H Hv Hnn.
  destruct (l_best lp) as [b|] eqn:Eb; [eapply evolve_island_best_keep; eauto|].
  apply evolve_island_spec in H. cbn zeta in H.
  destruct H as (top & rest & cells & nominal & Hsorted & _ & _ & _ & _ & _ & ->).
  rewrite Eb. simpl best_fitness_of.
  set (h1 := fst (evaluate_all (evaluation_criteria sv) island (l_heap lp) (l_evals lp))) in *.
  assert (Htop : top ∈ island).
  { rewrite <- (sort_desc_perm (fitness_at h1) island), Hsorted. left. }
  assert (Hscored : Qeq_bool (fitness_at h1 top) 0 = false).
  { apply evaluate_all_scored; [exact Htop|]. rewrite Forall_forall in Hv. auto. }
  assert (Hnn1 : (0 <= fitness_at h1 top)%Q).
  { eapply cells_nonneg_scored; [| apply evaluate_all_evolves | exact Hnn].
    apply evaluate_all_spec. }
  assert (Hpos : (0 < fitness_at h1 top)%Q).
  { apply Qle_lt_or_eq in Hnn1. destruct Hnn1 as [?|Heq]; [assumption|].
    assert (Ht : Qeq_bool (fitness_at h1 top) 0 = true).
    { apply Qeq_bool_iff. symmetry. exact Heq. }
    congruence. }
  apply Qlt_bool_true in Hpos. rewrite Hpos. eauto.
Qed.

Lemma evolve_islands_best_keep sv todo : forall lp news lp' b,
  evolve_islands sv todo lp = Ok (news, lp') ->
  l_best lp = Some b -> exists b', l_best lp' = Some b'.
Proof.
  induction todo as [|island rest IH]; intros lp news lp' b H Hb.
  - injection H as <- <-. eauto.
  - apply evolve_islands_cons in H. destruct H as (new & lp1 & news' & H1 & H2 & ->).
    destruct (evolve_island_best_keep _ _ _ _ _ _ H1 Hb) as (b1 & Hb1).
    eapply IH; eauto.
Qed.

Lemma evolve_islands_best_some sv todo lp news lp' :
  evolve_islands sv todo lp = Ok (news, lp') ->
  todo <> [] ->
  valid_islands (l_heap lp) todo ->
  cells_nonneg (l_heap lp) ->
  exists b, l_best lp' = Some b.
Proof.
  intros H Hne Hv Hnn. destruct todo as [|island rest]; [congruence|].
  apply evolve_islands_cons in H. destruct H as (new & lp1 & news' & H1 & H2 & ->).
  inversion Hv as [|? ? Hisland _]; subst.
  destruct (evolve_island_best_some _ _ _ _ _ H1 Hisland Hnn) as (b1 & Hb1).
  eapply evolve_islands_best_keep; eauto.
Qed.

(** ** Island sizes *)

Lemma floordiv_Ok a b q : floordiv a b = Ok q -> b <> 0 /\ q = a / b.
Proof.
  unfold floordiv. destruct (Z.eqb_spec b 0); [discriminate|].
  intros [= <-]. auto.
Qed.

Lemma elite_of_length sv sorted :
  (1 <= List.length sorted)%nat ->
  List.length (elite_of sv sorted) =
    if elitism sv then Nat.max 1 (List.length sorted / 5) else 0%nat.
Proof.
  intros HL. unfold elite_of. destruct (elitism sv); [|reflexivity].
  rewrite length_take.
  assert (Hq : Z.of_nat (List.length sorted) / 5 = Z.of_nat (List.length sorted / 5)).
  { rewrite Nat2Z.inj_div. reflexivity. }
  rewrite Hq. unfold py_max.
  pose proof (Nat.Div0.mul_div_le (List.length sorted) 5) as Hd.
  destruct (Z.ltb_spec 1 (Z.of_nat (List.length sorted / 5))); lia.
Qed.

(** An island of nominal size, or one more, is replaced by one of exactly
    nominal size. *)
Lemma evolve_island_size sv island lp new lp' :
  evolve_island sv island lp = Ok (new, lp') ->
  let n := island_size (population_size sv) (num_islands sv) in
  List.length island = n \/ (List.length island = S n /\ (1 <= n)%nat) ->
  List.length new = n /\ (1 <= n)%nat.
Proof.
  intros H n Hsz. apply evolve_island_spec in H. cbn zeta in H.
  destruct H as (top & rest & cells & nominal & Hsorted & Hfd & _ & Hcells & _ & -> & _).
  apply floordiv_Ok in Hfd. destruct Hfd as [_ ->].
  pose proof (sort_desc_length (fitness_at (fst (evaluate_all (evaluation_criteria sv)
                island (l_heap lp) (l_evals lp)))) island) as HL.
  rewrite Hsorted in HL, Hcells |- *.
  assert (H1 : (1 <= List.length (top :: rest))%nat) by (simpl; lia).
  rewrite length_app, length_seq, Hcells, (elite_of_length _ _ H1).
  rewrite (elite_of_length _ _ H1) in Hcells.
  unfold island_size in n. fold n.
  assert (Hn : (1 <= n)%nat) by lia.
  split; [|exact Hn].
  pose proof (Nat.Div0.mul_div_le (List.length (top :: rest)) 5) as Hd.
  destruct (elitism sv); unfold n in *; lia.
Qed.

Lemma evolve_islands_size sv todo : forall lp news lp',
  evolve_islands sv todo lp = Ok (news, lp') ->
  sized sv todo ->
  List.length news = List.length todo /\
  Forall (fun l => List.length l = island_size (population_size sv) (num_islands sv) /\
                   (1 <= List.length l)%nat) news.
Proof.
  induction todo as [|island rest IH]; intros lp news lp' H Hsz.
  - injection H as <- <-. split; [reflexivity | constructor].
  - apply evolve_islands_cons in H. destruct H as (new & lp1 & news' & H1 & H2 & ->).
    inversion Hsz as [|? ? Hisland Hrest]; subst.
    destruct (evolve_island_size _ _ _ _ _ H1 Hisland) as [Hlen Hn].
    destruct (IH _ _ _ H2 Hrest) as [Hlen' Hall].
    split; [simpl; lia|]. constructor; [split; lia | exact Hall].
Qed.

Lemma migrate_lengths (isl : list (list addr)) n :
  (2 <= List.length isl)%nat ->
  Forall (fun l => List.length l = n /\ (1 <= List.length l)%nat) isl ->
  Forall (fun l => List.length l = S n) (migrate isl).
Proof.
  intros Hk Hall. apply Forall_lookup. intros j l' Hl'.
  assert (Hj : (j < List.length isl)%nat).
  { rewrite <- migrate_length. eapply lookup_lt_Some; eauto. }
  destruct (lookup_lt_is_Some_2 isl j Hj) as [l Hl].
  destruct (lookup_lt_is_Some_2 isl (source_of (List.length isl) j)) as [ls Hls].
  { unfold source_of. apply Nat.mod_upper_bound. lia. }
  assert (Hne : Forall (fun l : list addr => l <> []) isl).
  { eapply Forall_impl; [exact Hall|]. intros x [_ Hx] ->. simpl in Hx. lia. }
  destruct ls as [|mg tl].
  { rewrite Forall_forall in Hne. exfalso. eapply Hne; [|reflexivity].
    eapply list_elem_of_lookup_2; eauto. }
  rewrite (migrate_ring isl j l mg tl Hk Hne Hl Hls) in Hl'. injection Hl' as <-.
  rewrite length_app. simpl.
  rewrite Forall_forall in Hall.
  destruct (Hall l ltac:(eapply list_elem_of_lookup_2; eauto)) as [-> _]. lia.
Qed.

Lemma after_migration_sized sv gen (isl : list (list addr)) :
  Forall (fun l => List.length l = island_size (population_size sv) (num_islands sv) /\
                   (1 <= List.length l)%nat) isl ->
  sized sv (after_migration gen isl).
Proof.
  intros Hall. unfold after_migration, sized.
  destruct ((gen mod 5 =? 0) && (1 <? List.length isl)%nat)%bool eqn:E.
  - apply andb_true_iff in E. destruct E as [_ Hk]. apply Nat.ltb_lt in Hk.
    pose proof (migrate_lengths isl _ ltac:(lia) Hall) as Hm.
    assert (Hn : isl <> [] -> (1 <= island_size (population_size sv) (num_islands sv))%nat).
    { destruct isl as [|l rest]; [congruence|]. intros _.
      inversion Hall as [|? ? [Hl H1] _]; subst. lia. }
    eapply Forall_impl; [exact Hm|]. intros l Hl. simpl in Hl. right.
    split; [exact Hl|]. apply Hn. intros ->. simpl in Hk. lia.
  - eapply Forall_impl; [exact Hall|]. intros l [Hl _]. left. exact Hl.
Qed.

(** ** The elite *)

(** With elitism the new island starts with a best-scored member of the
    old one, and that member has been scored. *)
Lemma evolve_island_top sv island lp new lp' :
  evolve_island sv island lp = Ok (new, lp') ->
  elitism sv = true ->
  Forall (fun a => (a < List.length (l_heap lp))%nat) island ->
  exists top tl,
    new = top :: tl /\ top ∈ island /\
    (forall a, a ∈ island -> (fitness_at (l_heap lp') a <= fitness_at (l_heap lp') top)%Q) /\
    ~ (fitness_at (l_heap lp') top == 0)%Q.
Proof.
  intros H He Hv. apply evolve_island_spec in H. cbn zeta in H.
  set (h1 := fst (evaluate_all (evaluation_criteria sv) island (l_heap lp) (l_evals lp))) in *.
  destruct H as (top & rest & cells & nominal & Hsorted & _ & Hh' & _ & _ & -> & _).
  destruct (evaluate_all_spec (evaluation_criteria sv) island (l_heap lp) (l_evals lp))
    as (Hlen & _). fold h1 in Hlen.
  assert (Htop : top ∈ island).
  { rewrite <- (sort_desc_perm (fitness_at h1) island), Hsorted. left. }
  rewrite Forall_forall in Hv.
  assert (Hin1 : forall a, a ∈ island -> fitness_at (l_heap lp') a = fitness_at h1 a).
  { intros a Ha. rewrite Hh'. apply fitness_at_app_l. rewrite Hlen. auto. }
  unfold elite_of. rewrite He, Hsorted.
  assert (Hec : exists e, Z.to_nat (py_max 1 (Z.of_nat (List.length (top :: rest)) / 5)) = S e).
  { unfold py_max. destruct (Z.ltb_spec 1 (Z.of_nat (List.length (top :: rest)) / 5)).
    - exists (Z.to_nat (Z.of_nat (List.length (top :: rest)) / 5) - 1)%nat. lia.
    - exists 0%nat. reflexivity. }
  destruct Hec as (e & ->). cbn [take].
  eexists top, _. split; [reflexivity|]. split; [exact Htop|]. split.
  - intros a Ha. rewrite !Hin1 by assumption. eapply sort_desc_head; eauto.
  - rewrite Hin1 by exact Htop. intros Hz.
    pose proof (evaluate_all_scored (evaluation_criteria sv) island (l_heap lp) (l_evals lp)
                  top Htop (Hv top Htop)) as Hs.
    fold h1 in Hs. apply Qeq_bool_iff in Hz. congruence.
Qed.

(** ** Statistics *)

Lemma py_max_list_cons x y xs :
  py_max_list x (y :: xs) = py_max_list (if Qlt_bool x y then y else x) xs.
Proof. reflexivity. Qed.

Lemma py_max_list_ge xs : forall x,
  (x <= py_max_list x xs)%Q /\ Forall (fun y => (y <= py_max_list x xs)%Q) xs.
Proof.
  induction xs as [|y xs IH]; intros x.
  - split; [apply Qle_refl | constructor].
  - rewrite py_max_list_cons. destruct (Qlt_bool x y) eqn:E.
    + apply Qlt_bool_true in E. destruct (IH y) as [Hy Hall].
      split; [lra|]. constructor; assumption.
    + apply Qlt_bool_false in E. destruct (IH x) as [Hx Hall].
      split; [exact Hx|]. constructor; [lra | exact Hall].
Qed.

Lemma py_max_list_in xs : forall x, py_max_list x xs ∈ x :: xs.
Proof.
  induction xs as [|y xs IH]; intros x; [left|].
  rewrite py_max_list_cons. destruct (Qlt_bool x y).
  - right. apply IH.
  - specialize (IH x). apply elem_of_cons in IH. destruct IH as [->|IH]; [left|].
    right. right. exact IH.
Qed.

Lemma positive_fitnesses_in h isl f :
  f ∈ positive_fitnesses h isl <->
  exists a, a ∈ concat isl /\ f = fitness_at h a /\ (0 < f)%Q.
Proof.
  unfold positive_fitnesses. rewrite list_elem_of_In, filter_In, in_map_iff. split.
  - intros [(a & <- & Ha) Hpos]. exists a. rewrite list_elem_of_In.
    repeat split; auto. apply Qlt_bool_true. exact Hpos.
  - intros (a & Ha & -> & Hpos). split.
    + exists a. rewrite <- list_elem_of_In. auto.
    + apply Qlt_bool_true. exact Hpos.
Qed.

Lemma best_fitness_make_stats gen h isl impr :
  GenerationStats.best_fitness (make_stats gen h isl impr) = stat_best h isl.
Proof. reflexivity. Qed.

Lemma stat_best_cases h isl :
  stat_best h isl = 0%Q \/
  exists a, a ∈ concat isl /\ stat_best h isl = fitness_at h a /\ (0 < fitness_at h a)%Q.
Proof.
  unfold stat_best. destruct (positive_fitnesses h isl) as [|f fs] eqn:E; [left; reflexivity|].
  right. pose proof (py_max_list_in fs f) as Hin. rewrite <- E in Hin.
  apply positive_fitnesses_in in Hin. destruct Hin as (a & Ha & Hf & Hpos).
  exists a. rewrite Hf in Hpos. auto.
Qed.

Lemma stat_best_nonneg h isl : (0 <= stat_best h isl)%Q.
Proof.
  destruct (stat_best_cases h isl) as [->|(a & _ & -> & Hpos)]; [apply Qle_refl | lra].
Qed.

Lemma stat_best_upper h isl a :
  a ∈ concat isl -> (0 < fitness_at h a)%Q -> (fitness_at h a <= stat_best h isl)%Q.
Proof.
  intros Ha Hpos.
  assert (Hin : fitness_at h a ∈ positive_fitnesses h isl).
  { apply positive_fitnesses_in. eauto. }
  unfold stat_best. destruct (positive_fitnesses h isl) as [|f fs]; [inversion Hin|].
  destruct (py_max_list_ge fs f) as [Hf Hall].
  apply elem_of_cons in Hin. destruct Hin as [->|Hin]; [exact Hf|].
  rewrite Forall_forall in Hall. apply Hall. exact Hin.
Qed.

Lemma stat_best_mono h isl h' isl' :
  (forall a, a ∈ concat isl -> (0 < fitness_at h a)%Q ->
     exists a', a' ∈ concat isl' /\ (fitness_at h a <= fitness_at h' a')%Q) ->
  (stat_best h isl <= stat_best h' isl')%Q.
Proof.
  intros Hup. destruct (stat_best_cases h isl) as [->|(a & Ha & -> & Hpos)].
  - apply stat_best_nonneg.
  - destruct (Hup a Ha Hpos) as (a' & Ha' & Hle).
    eapply Qle_trans; [exact Hle|]. apply stat_best_upper; [exact Ha' | lra].
Qed.

Lemma stat_best_unscored h isl : unscored_islands h isl -> stat_best h isl = 0%Q.
Proof.
  intros Hun. destruct (stat_best_cases h isl) as [H|(a & Ha & _ & Hpos)]; [exact H|].
  apply elem_of_concat in Ha. destruct Ha as (l & Hl & Ha).
  unfold unscored_islands in Hun. rewrite Forall_forall in Hun.
  specialize (Hun l Hl). rewrite Forall_forall in Hun. rewrite (Hun a Ha) in Hpos.
  apply Qlt_irrefl in Hpos. destruct Hpos.
Qed.

(** ** Reached processes *)

Lemma valid_islands_elem h isl a :
  valid_islands h isl -> a ∈ concat isl -> (a < List.length h)%nat.
Proof.
  intros Hv Ha. apply elem_of_concat in Ha. destruct Ha as (l & Hl & Ha).
  unfold valid_islands in Hv. rewrite Forall_forall in Hv. specialize (Hv l Hl).
  rewrite Forall_forall in Hv. auto.
Qed.

Lemma valid_islands_intro (h : Heap) isl :
  (forall a, a ∈ concat isl -> (a < List.length h)%nat) -> valid_islands h isl.
Proof.
  intros H. apply Forall_forall. intros l Hl. apply Forall_forall. intros a Ha.
  apply H. apply elem_of_concat. eauto.
Qed.

Lemma unscored_islands_intro (h : Heap) isl :
  (forall a, a ∈ concat isl -> fitness_at h a = 0%Q) -> unscored_islands h isl.
Proof.
  intros H. apply Forall_forall. intros l Hl. apply Forall_forall. intros a Ha.
  apply H. apply elem_of_concat. eauto.
Qed.

(** With elitism every scored candidate of the old islands is matched or
    beaten by a candidate of the new ones. *)
Lemma evolve_islands_elite_survives sv todo lp news lp' a :
  evolve_islands sv todo lp = Ok (news, lp') ->
  elitism sv = true ->
  valid_islands (l_heap lp) todo ->
  a ∈ concat todo -> (0 < fitness_at (l_heap lp) a)%Q ->
  exists a', a' ∈ concat news /\ (fitness_at (l_heap lp) a <= fitness_at (l_heap lp') a')%Q.
Proof.
  intros H He Hv Ha Hpos.
  pose proof (evolve_islands_steps sv (concat todo) todo lp news lp' ltac:(auto) H) as Hsteps.
  pose proof (valid_islands_elem _ _ _ Hv Ha) as Hlt.
  apply elem_of_concat in Ha. destruct Ha as (island & Hisland & Ha).
  pose proof Hisland as Hisland'.
  apply list_elem_of_lookup in Hisland. destruct Hisland as (j & Hj).
  destruct (Forall2_lookup_l _ _ _ _ _ Hsteps Hj) as (new & Hnew & lpa & lpb & Hstep & Hpre & Hpost).
  assert (Hnz : ~ (fitness_at (l_heap lp) a == 0)%Q) by (intros Hz; rewrite Hz in Hpos; lra).
  assert (Ha_pre : deref (l_heap lpa) a = deref (l_heap lp) a).
  { eapply evolves_stable; eauto. }
  destruct Hpre as [Hlen_pre _].
  assert (Hvalid : Forall (fun b => (b < List.length (l_heap lpa))%nat) island).
  { apply Forall_forall. intros b Hb.
    assert ((b < List.length (l_heap lp))%nat).
    { eapply valid_islands_elem; [exact Hv|]. apply elem_of_concat. eauto. }
    lia. }
  destruct (evolve_island_top _ _ _ _ _ Hstep He Hvalid) as (top & tl & -> & Htop & Hmax & Htnz).
  pose proof (evolve_island_evolves _ _ _ _ _ Hstep) as Hmid.
  assert (Ha_mid : deref (l_heap lpb) a = deref (l_heap lpa) a).
  { eapply evolves_stable; [exact Hmid | lia |].
    unfold fitness_at. rewrite Ha_pre. exact Hnz. }
  assert (Htop_lt : (top < List.length (l_heap lpb))%nat).
  { rewrite Forall_forall in Hvalid. specialize (Hvalid top Htop).
    destruct Hmid as [Hl _]. lia. }
  assert (Htop_post : deref (l_heap lp') top = deref (l_heap lpb) top).
  { eapply evolves_stable; eauto. }
  exists top. split.
  - apply elem_of_concat. exists (top :: tl). split; [|left].
    eapply list_elem_of_lookup_2; eauto.
  - specialize (Hmax a Ha). unfold fitness_at in *.
    rewrite Htop_post, <- Ha_pre, <- Ha_mid. exact Hmax.
Qed.

(** Without elitism the new islands hold only unscored children. *)
Lemma evolve_islands_unscored sv todo lp news lp' :
  evolve_islands sv todo lp = Ok (news, lp') ->
  elitism sv = false ->
  valid_islands (l_heap lp) todo ->
  unscored_islands (l_heap lp') news.
Proof.
  intros H He Hv.
  pose proof (evolve_islands_steps sv (concat todo) todo lp news lp' ltac:(auto) H) as Hsteps.
  apply unscored_islands_intro. intros a Ha.
  apply elem_of_concat in Ha. destruct Ha as (new & Hnew & Ha).
  apply list_elem_of_lookup in Hnew. destruct Hnew as (j & Hj).
  destruct (Forall2_lookup_r _ _ _ _ _ Hsteps Hj) as (island & Hisland & lpa & lpb & Hstep & Hpre & Hpost).
  destruct (evolve_island_members _ _ _ _ _ _ Hstep Ha) as [[He' _]|[Hrange Hzero]];
    [congruence|].
  assert (Hfresh : a ∉ concat todo).
  { intros Hin. pose proof (valid_islands_elem _ _ _ Hv Hin). destruct Hpre as [Hl _]. lia. }
  assert (Hlt : (a < List.length (l_heap lpb))%nat) by lia.
  unfold fitness_at in *.
  rewrite (evolves_untouched _ _ _ _ _ Hpost Hlt Hfresh). exact Hzero.
Qed.

Lemma reached_init args r p : __init__ args [] r = Ok p -> reached p.
Proof.
  intros H. destruct (__init___spec args [] r) as (isl & cells & r' & Hinit & Hlen & Hsz & Hz & Hv).
  rewrite Hinit in H. injection H as <-. unfold reached. cbn.
  assert (Hzero : forall a, fitness_at cells a = 0%Q).
  { intros a. apply (deref_app_r_zero [] cells a Hz). simpl. lia. }
  split; [|split; [|split; [|split; [|split; [|split; [|split]]]]]].
  - split; [|discriminate]. intros a _. rewrite Hzero. apply Qle_refl.
  - intros a. rewrite Hzero. apply Qle_refl.
  - eapply Forall_impl; [exact Hv|]. intros l Hl.
    eapply Forall_impl; [exact Hl|]. intros a Ha. simpl in Ha. lia.
  - unfold sized. cbn. eapply Forall_impl; [exact Hsz|]. intros l Hl. left. exact Hl.
  - intros _. apply unscored_islands_intro. intros a _. apply Hzero.
  - reflexivity.
  - intros i j s t _ Hs. rewrite lookup_nil in Hs. discriminate.
  - intros s Hs. inversion Hs.
Qed.

Lemma sized_config sv sv' isl :
  same_config sv sv' -> sized sv isl -> sized sv' isl.
Proof.
  intros (_ & _ & Hps & Hni & _) H. unfold sized in *. rewrite Hps, Hni. exact H.
Qed.

(** The reported best fitness does not go down from one generation to the
    next. *)
Lemma evolve_generation_stat_best p stats p' :
  reached p -> evolve_generation p = Ok (stats, p') ->
  (stat_best (heap p) (islands (self p)) <= stat_best (heap p') (islands (self p')))%Q.
Proof.
  intros (_ & _ & Hv & _ & Hun & _) H.
  apply evolve_generation_inv in H.
  destruct H as (isl & lp & Hloop & Hheap & _ & _ & Hisl & _).
  destruct (elitism (self p)) eqn:He.
  - apply stat_best_mono. intros a Ha Hpos.
    destruct (evolve_islands_elite_survives _ _ _ _ _ a Hloop He Hv Ha Hpos) as (a' & Ha' & Hle).
    exists a'. rewrite Hisl, Hheap. split; [|exact Hle].
    apply after_migration_members. exact Ha'.
  - rewrite (stat_best_unscored _ _ (Hun eq_refl)). apply stat_best_nonneg.
Qed.

Lemma reached_step p stats p' :
  reached p -> evolve_generation p = Ok (stats, p') -> reached p'.
Proof.
  intros Hreached H.
  pose proof (evolve_generation_stat_best _ _ _ Hreached H) as Hmono.
  destruct Hreached as (Hbest & Hnn & Hv & Hsz & Hun & Hlen & Hsorted & Hbound).
  apply evolve_generation_inv in H.
  destruct H as (isl & lp & Hloop & Hheap & _ & Hb & Hisl & Hgen & Hhist & Hstats & Hcfg).
  set (sv1 := set_generation (self p) (generation (self p) + 1)) in *.
  pose proof (evolve_islands_valid _ _ _ _ _ Hloop Hv) as Hv'.
  assert (Hbf : GenerationStats.best_fitness stats = stat_best (heap p') (islands (self p'))).
  { rewrite Hstats, Hheap, Hisl. reflexivity. }
  unfold reached. rewrite Hheap, Hb, Hisl.
  split; [|split; [|split; [|split; [|split; [|split; [|split]]]]]].
  - apply (evolve_islands_best _ _ _ _ _ Hloop Hbest).
  - apply (evolve_islands_nonneg _ _ _ _ _ Hloop Hnn).
  - apply valid_islands_intro. intros a Ha. apply after_migration_members in Ha.
    eapply valid_islands_elem; eauto.
  - apply (sized_config (self p)); [exact Hcfg|].
    apply after_migration_sized.
    apply (evolve_islands_size sv1 _ _ _ _ Hloop Hsz).
  - intros He. destruct Hcfg as (_ & _ & _ & _ & Hel & _). rewrite Hel in He.
    pose proof (evolve_islands_unscored sv1 _ _ _ _ Hloop He Hv) as Hun'.
    apply unscored_islands_intro. intros a Ha. apply after_migration_members in Ha.
    apply elem_of_concat in Ha. destruct Ha as (l & Hl & Ha).
    unfold unscored_islands in Hun'. rewrite Forall_forall in Hun'.
    specialize (Hun' l Hl). rewrite Forall_forall in Hun'. auto.
  - rewrite Hhist, Hgen, length_app. simpl. lia.
  - rewrite Hhist. intros i j s t Hij Hs Ht.
    destruct (Nat.lt_ge_cases j (List.length (history (self p)))) as [Hj|Hj].
    + rewrite lookup_app_l in Ht by lia. rewrite lookup_app_l in Hs by lia.
      exact (Hsorted i j s t Hij Hs Ht).
    + assert (Et : t = stats).
      { rewrite lookup_app_r in Ht by exact Hj.
        destruct (j - List.length (history (self p)))%nat as [|k]; simpl in Ht.
        - congruence.
        - rewrite lookup_nil in Ht. discriminate. }
      subst t. destruct (Nat.lt_ge_cases i (List.length (history (self p)))) as [Hi|Hi].
      * rewrite lookup_app_l in Hs by exact Hi.
        rewrite Hbf. eapply Qle_trans; [|exact Hmono].
        apply Hbound. eapply list_elem_of_lookup_2; eauto.
      * rewrite lookup_app_r in Hs by exact Hi.
        destruct (i - List.length (history (self p)))%nat as [|k]; simpl in Hs.
        -- injection Hs as <-. apply Qle_refl.
        -- rewrite lookup_nil in Hs. discriminate.
  - intros s Hs. rewrite Hhist in Hs. apply elem_of_app in Hs.
    rewrite <- Hisl, <- Hheap. destruct Hs as [Hs|Hs].
    + eapply Qle_trans; [apply Hbound; exact Hs | exact Hmono].
    + apply list_elem_of_singleton in Hs. subst s. rewrite Hbf. apply Qle_refl.
Qed.

Lemma reached_run args r n p :
  (p0 ← __init__ args [] r; run_generations n p0) = Ok p -> reached p.
Proof.
  intros H. bind_in H as p0 Hinit.
  eapply (run_generations_ind reached); [|eapply reached_init; eauto | exact H].
  intros q stats q' Hq Hstep. eapply reached_step; eauto.
Qed.

(** ** Runs that cannot raise *)

Lemma evolve_islands_total sv todo : forall lp,
  Forall (fun l => (4 <= List.length l)%nat) todo -> num_islands sv <> 0 ->
  exists res, evolve_islands sv todo lp = Ok res.
Proof.
  induction todo as [|island rest IH]; intros lp Hall Hni; cbn [evolve_islands]; [eauto|].
  inversion Hall as [|? ? Hisland Hrest]; subst.
  destruct (evolve_island_total sv island lp Hisland Hni) as ([new lp1] & H1).
  rewrite H1. cbn [mbind Result_bind].
  destruct (IH lp1 Hrest Hni) as ([news lp2] & H2).
  rewrite H2. cbn [mbind Result_bind]. eauto.
Qed.

Lemma evolve_generation_total p :
  reached p ->
  (4 <= island_size (population_size (self p)) (num_islands (self p)))%nat ->
  num_islands (self p) <> 0 ->
  exists res, evolve_generation p = Ok res.
Proof.
  intros (_ & _ & _ & Hsz & _) HN Hni. unfold evolve_generation.
  destruct (evolve_islands_total (set_generation (self p) (generation (self p) + 1))
              (islands (self p))
              (mkLoop (heap p) (rng p) (best_candidate (self p)) 0 (total_evaluations (self p))))
    as ([isl lp] & Hloop).
  - eapply Forall_impl; [exact Hsz|]. intros l Hl. simpl in Hl. lia.
  - exact Hni.
  - rewrite Hloop. cbn [mbind Result_bind]. eauto.
Qed.

Lemma run_generations_total n : forall p,
  reached p ->
  (4 <= island_size (population_size (self p)) (num_islands (self p)))%nat ->
  num_islands (self p) <> 0 ->
  exists p', run_generations n p = Ok p'.
Proof.
  induction n as [|n IH]; intros p Hr HN Hni; cbn [run_generations]; [eauto|].
  destruct (evolve_generation_total p Hr HN Hni) as ([stats p1] & Hstep).
  rewrite Hstep. cbn [mbind Result_bind].
  pose proof (reached_step _ _ _ Hr Hstep) as Hr1.
  apply evolve_generation_inv in Hstep.
  destruct Hstep as (isl & lp & _ & _ & _ & _ & _ & _ & _ & _ & Hcfg).
  destruct Hcfg as (_ & _ & Hps & Hn & _).
  apply IH; [exact Hr1 | rewrite Hps, Hn; exact HN | rewrite Hn; exact Hni].
Qed.

Lemma fresh_run_total args r n :
  (4 <= island_size (a_population_size args) (a_num_islands args))%nat ->
  a_num_islands args <> 0 ->
  exists p, fresh_run args r n = Ok p.
Proof.
  intros HN Hni. unfold fresh_run.
  destruct (__init___spec args [] r) as (isl & cells & r' & Hinit & _).
  pose proof (reached_init args r _ Hinit) as Hr.
  rewrite Hinit. cbn [mbind Result_bind].
  apply run_generations_total; [exact Hr | exact HN | exact Hni].
Qed.

Lemma run_generations_history n : forall p p',
  run_generations n p = Ok p' ->
  List.length (history (self p')) = (List.length (history (self p)) + n)%nat.
Proof.
  induction n as [|n IH]; intros p p' H; cbn [run_generations] in H.
  - injection H as <-. lia.
  - bind_in H as [stats p1] Hstep. apply IH in H. rewrite H.
    apply evolve_generation_inv in Hstep.
    destruct Hstep as (isl & lp & _ & _ & _ & _ & _ & _ & Hhist & _).
    rewrite Hhist, length_app. simpl. lia.
Qed.

Lemma evolution_loop_run n : forall dir task_id p fs p1 fs1,
  evolution_loop n dir task_id p fs = Ok (p1, fs1) -> run_generations n p = Ok p1.
Proof.
  induction n as [|n IH]; intros dir task_id p fs p1 fs1 H;
    cbn [evolution_loop run_generations] in *.
  - injection H as <- <-. reflexivity.
  - bind_in H as [stats q] Hstep. rewrite Hstep. cbn [mbind Result_bind].
    eapply IH. exact H.
Qed.

(** [run_evolution] is a fresh run followed by the pareto front, which
    leaves the evolver's own fields alone. *)
Lemma run_evolution_fresh_run now config fs r doc fs' p :
  run_evolution now config fs [] r = Ok (doc, fs', p) ->
  exists p1,
    fresh_run (init_args_of config) r
      (Z.to_nat (default 20 (Config.max_generations config))) = Ok p1 /\
    self p = self p1.
Proof.
  unfold run_evolution, fresh_run. intros H.
  bind_in H as evolver Hinit. bind_in H as [p1 fs1] Hloop.
  destruct (default 20 (Config.max_generations config) <=? 0); [discriminate|].
  injection H as _ _ <-.
  exists p1. rewrite Hinit. cbn [mbind Result_bind].
  split; [eapply evolution_loop_run; exact Hloop | reflexivity].
Qed.

(** X17. A run of [n] generations from a fresh evolver, when it completes,
    has appended exactly [n] statistics records, its generation counter is
    [n], and [best_fitness] never decreases along the history; the same
    holds of what [run_evolution] returns. The run does complete, whatever
    the draws, when the islands have at least four candidates each. *)
Theorem history_grows_with_generations (args : InitArgs) (r : RNG) (n : nat) :
  (forall p, fresh_run args r n = Ok p ->
     List.length (history (self p)) = n /\
     generation (self p) = Z.of_nat n /\
     Z.of_nat (List.length (history (self p))) = generation (self p) /\
     history_sorted (history (self p))) /\
  (forall now config fs doc fs' p,
     init_args_of config = args ->
     Z.to_nat (default 20 (Config.max_generations config)) = n ->
     run_evolution now config fs [] r = Ok (doc, fs', p) ->
     List.length (history (self p)) = n /\
     generation (self p) = Z.of_nat n /\
     history_sorted (history (self p))) /\
  ((4 <= island_size (a_population_size args) (a_num_islands args))%nat ->
   a_num_islands args <> 0 ->
   exists p, fresh_run args r n = Ok p).
Proof.
  assert (Hfresh : forall p, fresh_run args r n = Ok p ->
     List.length (history (self p)) = n /\
     generation (self p) = Z.of_nat n /\
     Z.of_nat (List.length (history (self p))) = generation (self p) /\
     history_sorted (history (self p))).
  { intros p H.
    pose proof (reached_run args r n p H) as (_ & _ & _ & _ & _ & Hlen & Hsorted & _).
    unfold fresh_run in H. bind_in H as p0 Hinit.
    apply run_generations_history in H.
    destruct (__init___spec args [] r) as (isl & cells & r' & Hspec & _).
    rewrite Hspec in Hinit. injection Hinit as <-. cbn in H.
    repeat split; [exact H | lia | exact Hlen | exact Hsorted]. }
  split; [exact Hfresh|]. split; [|apply fresh_run_total].
  intros now config fs doc fs' p Hargs Hn Hrun.
  apply run_evolution_fresh_run in Hrun. destruct Hrun as (p1 & Hp1 & ->).
  rewrite Hargs, Hn in Hp1.
  destruct (Hfresh p1 Hp1) as (H1 & H2 & _ & H4). auto.
Qed.

(** A run of six generations, past one migration, on two islands of four. *)
Lemma history_grows_witness :
  exists p,
    fresh_run eight_in_two (const_rng 0) 6 = Ok p /\
    List.length (history (self p)) = 6%nat /\
    generation (self p) = 6 /\
    history_sorted (history (self p)).
Proof.
  destruct (history_grows_with_generations eight_in_two (const_rng 0) 6)
    as (Hpart & _ & Htotal).
  destruct Htotal as [p Hp]; [vm_compute; lia | discriminate |].
  exists p. destruct (Hpart p Hp) as (Hlen & Hgen & _ & Hsorted).
  split; [exact Hp|]. split; [exact Hlen|]. split; [exact Hgen | exact Hsorted].
Defined.

Lemma evolve_generation_best p stats p' :
  best_is_max (heap p) (best_candidate (self p)) ->
  evolve_generation p = Ok (stats, p') ->
  best_is_max (heap p') (best_candidate (self p')) /\
  (forall a, (a < List.length (heap p))%nat ->
     (fitness_at (heap p) a <= fitness_at (heap p') a)%Q) /\
  (best_fitness_of (heap p) (best_candidate (self p))
   <= best_fitness_of (heap p') (best_candidate (self p')))%Q.
Proof.
  intros Hbest Hstep. apply evolve_generation_inv in Hstep.
  destruct Hstep as (isl & lp & Hloop & Hheap & _ & Hb & _).
  rewrite Hheap, Hb.
  destruct (evolve_islands_best _ _ _ _ _ Hloop Hbest) as [Hmax Hle].
  split; [exact Hmax|]. split; [|exact Hle].
  intros a Ha.
  pose proof (evolve_islands_evolves _ _ _ _ _ Hloop) as Hev.
  exact (evolves_fitness_le _ _ _ _ a Hev Ha).
Qed.

(** C4. In every process reached from a fresh evolver no candidate that
    was ever created has a fitness above that of [best_candidate]
    ([best_is_max]). A generation step keeps it so from any process where it
    holds: afterwards [best_candidate] still bounds every candidate, no
    candidate's fitness has gone down, and neither has the fitness of
    [best_candidate]. After a step of a fresh run that has an island,
    [best_candidate] is an actual, scored candidate. *)
Theorem best_candidate_is_running_maximum :
  (forall args r n p,
     fresh_run args r n = Ok p ->
     best_is_max (heap p) (best_candidate (self p))) /\
  (forall p stats p',
     best_is_max (heap p) (best_candidate (self p)) ->
     evolve_generation p = Ok (stats, p') ->
     best_is_max (heap p') (best_candidate (self p')) /\
     (forall a, (a < List.length (heap p))%nat ->
        (fitness_at (heap p) a <= fitness_at (heap p') a)%Q) /\
     (best_fitness_of (heap p) (best_candidate (self p))
      <= best_fitness_of (heap p') (best_candidate (self p')))%Q) /\
  (forall args r n p stats p',
     fresh_run args r n = Ok p ->
     evolve_generation p = Ok (stats, p') ->
     islands (self p) <> [] ->
     exists b, best_candidate (self p') = Some b /\
               (b < List.length (heap p'))%nat /\ (0 < fitness_at (heap p') b)%Q).
Proof.
  split; [|split].
  - intros args r n p Hrun. apply (reached_run _ _ _ _ Hrun).
  - intros p stats p'. apply evolve_generation_best.
  - intros args r n p stats p' Hrun Hstep Hne.
    pose proof (reached_run _ _ _ _ Hrun) as Hr.
    pose proof (reached_step _ _ _ Hr Hstep) as ([_ Hsome] & _).
    destruct Hr as (_ & Hnn & Hv & _).
    apply evolve_generation_inv in Hstep.
    destruct Hstep as (isl & lp & Hloop & _ & _ & Hb & _).
    destruct (evolve_islands_best_some _ _ _ _ _ Hloop Hne Hv Hnn) as (b & Hbs).
    exists b. rewrite Hb. split; [exact Hbs|]. apply Hsome. rewrite Hb. exact Hbs.
Qed.

Lemma best_candidate_witness :
  fresh_run eight_in_two (const_rng 0) 4 = Ok after_four /\
  evolve_generation after_four = Ok (stats_five, after_five) /\
  best_is_max (heap after_five) (best_candidate (self after_five)) /\
  (best_fitness_of (heap after_four) (best_candidate (self after_four))
   <= best_fitness_of (heap after_five) (best_candidate (self after_five)))%Q.
Proof.
  assert (H1 : fresh_run eight_in_two (const_rng 0) 4 = Ok after_four)
    by (vm_compute; reflexivity).
  assert (H2 : evolve_generation after_four = Ok (stats_five, after_five))
    by (vm_compute; reflexivity).
  destruct best_candidate_is_running_maximum as (Hfresh & Hstep & _).
  destruct (Hstep after_four stats_five after_five
              (Hfresh eight_in_two (const_rng 0) 4%nat after_four H1) H2)
    as (Hmax & _ & Hle).
  split; [exact H1|]. split; [exact H2|]. split; [exact Hmax | exact Hle].
Defined.

(** ** Migration after the island loop *)

(** With elitism, the head of every new island is, at the end of the
    island loop, at least as fit as every member of the island it
    replaced. *)
Lemma evolve_islands_heads sv todo lp news lp' j old new :
  evolve_islands sv todo lp = Ok (news, lp') ->
  elitism sv = true ->
  valid_islands (l_heap lp) todo ->
  todo !! j = Some old -> news !! j = Some new ->
  exists top tl,
    new = top :: tl /\ top ∈ old /\
    forall a, a ∈ old -> (fitness_at (l_heap lp') a <= fitness_at (l_heap lp') top)%Q.
Proof.
  intros H He Hv Hold Hnew.
  pose proof (evolve_islands_steps sv (concat todo) todo lp news lp' ltac:(auto) H) as Hsteps.
  destruct (Forall2_lookup_lr _ _ _ _ _ _ Hsteps Hold Hnew) as (lpa & lpb & Hstep & Hpre & Hpost).
  assert (Hvalid : Forall (fun b => (b < List.length (l_heap lpa))%nat) old).
  { apply Forall_forall. intros b Hb.
    assert ((b < List.length (l_heap lp))%nat).
    { eapply valid_islands_elem; [exact Hv|]. apply elem_of_concat.
      exists old. split; [eapply list_elem_of_lookup_2; eauto | exact Hb]. }
    destruct Hpre as [Hl _]. lia. }
  destruct (evolve_island_top _ _ _ _ _ Hstep He Hvalid) as (top & tl & -> & Htop & Hmax & Htnz).
  pose proof (evolve_island_evolves _ _ _ _ _ Hstep) as Hmid.
  exists top, tl. split; [reflexivity|]. split; [exact Htop|].
  intros a Ha.
  assert (Hlt : forall b, b ∈ old -> (b < List.length (l_heap lpb))%nat).
  { intros b Hb. rewrite Forall_forall in Hvalid. specialize (Hvalid b Hb).
    destruct Hmid as [Hl _]. lia. }
  assert (Htop_post : deref (l_heap lp') top = deref (l_heap lpb) top).
  { eapply evolves_stable; eauto. }
  pose proof (Hmax a Ha) as Hle. unfold fitness_at in *. rewrite Htop_post.
  destruct (evolves_scored _ _ _ _ a Hpost (Hlt a Ha)) as [Heq|[Hz Hs]].
  - rewrite Heq. exact Hle.
  - (* a member of the old island is scored when the pass ends *)
    exfalso.
    apply evolve_island_spec in Hstep. cbn zeta in Hstep.
    destruct Hstep as (top' & rest & cells & nominal & _ & _ & Hh' & _).
    destruct (evaluate_all_spec (evaluation_criteria sv) old (l_heap lpa) (l_evals lpa))
      as (Hlen & _).
    rewrite Forall_forall in Hvalid.
    pose proof (evaluate_all_scored (evaluation_criteria sv) old (l_heap lpa) (l_evals lpa)
                  a Ha (Hvalid a Ha)) as Hsc.
    assert (Hfa : fitness_at (l_heap lpb) a
                  = fitness_at (fst (evaluate_all (evaluation_criteria sv) old
                                       (l_heap lpa) (l_evals lpa))) a).
    { rewrite Hh'. apply fitness_at_app_l. rewrite Hlen. auto. }
    unfold fitness_at in Hfa, Hsc. rewrite Hfa in Hz.
    apply Qeq_bool_iff in Hz. congruence.
Qed.

(** At the end of the island loop a member of a new island is a survivor
    of the island it replaced, kept by elitism, or is still unscored. *)
Lemma evolve_islands_member_final sv todo lp news lp' j old new a :
  evolve_islands sv todo lp = Ok (news, lp') ->
  valid_islands (l_heap lp) todo ->
  todo !! j = Some old -> news !! j = Some new -> a ∈ new ->
  (elitism sv = true /\ a ∈ old) \/ fitness_at (l_heap lp') a = 0%Q.
Proof.
  intros H Hv Hold Hnew Ha.
  pose proof (evolve_islands_steps sv (concat todo) todo lp news lp' ltac:(auto) H) as Hsteps.
  destruct (Forall2_lookup_lr _ _ _ _ _ _ Hsteps Hold Hnew) as (lpa & lpb & Hstep & Hpre & Hpost).
  destruct (evolve_island_members _ _ _ _ _ _ Hstep Ha) as [Hleft|[Hrange Hzero]];
    [left; exact Hleft|].
  right.
  assert (Hfresh : a ∉ concat todo).
  { intros Hin. pose proof (valid_islands_elem _ _ _ Hv Hin). destruct Hpre as [Hl _]. lia. }
  assert (Hlt : (a < List.length (l_heap lpb))%nat) by lia.
  unfold fitness_at in *.
  rewrite (evolves_untouched _ _ _ _ _ Hpost Hlt Hfresh). exact Hzero.
Qed.

(** C7. In a generation step of a fresh run whose new generation number is
    a multiple of five, with at least two islands: every island is first
    replaced by one of nominal size [n]; then each island gets, at its end,
    the first candidate of the island before it in the ring, so that every
    island holds [n + 1] candidates; the source island is unchanged apart
    from what it receives itself, and the heap is the one the island loop
    left, so no candidate is scored by the migration. The first candidate
    of an island is a top candidate: no member of the island is fitter,
    and with elitism no member of the island it replaced is. *)
Theorem migration_every_fifth_generation (args : InitArgs) (r : RNG) (n : nat)
    (p : Process) (stats : GenerationStats.t) (p' : Process) :
  fresh_run args r n = Ok p ->
  evolve_generation p = Ok (stats, p') ->
  (generation (self p) + 1) mod 5 = 0 ->
  (2 <= List.length (islands (self p)))%nat ->
  let size := island_size (population_size (self p)) (num_islands (self p)) in
  exists isl lp,
    evolve_islands (set_generation (self p) (generation (self p) + 1))
      (islands (self p)) (start_loop p) = Ok (isl, lp) /\
    heap p' = l_heap lp /\
    List.length isl = List.length (islands (self p)) /\
    List.length (islands (self p')) = List.length isl /\
    Forall (fun l => List.length l = size) isl /\
    Forall (fun l => List.length l = S size) (islands (self p')) /\
    (forall j l, isl !! j = Some l ->
       exists mg tl,
         isl !! source_of (List.length isl) j = Some (mg :: tl) /\
         islands (self p') !! j = Some (l ++ [mg])) /\
    (forall j l, isl !! j = Some l ->
       exists top tl,
         l = top :: tl /\
         forall a, a ∈ l -> (fitness_at (heap p') a <= fitness_at (heap p') top)%Q) /\
    (elitism (self p) = true ->
     forall j old l, islands (self p) !! j = Some old -> isl !! j = Some l ->
       exists top tl,
         l = top :: tl /\ top ∈ old /\
         forall a, a ∈ old -> (fitness_at (heap p') a <= fitness_at (heap p') top)%Q).
Proof.
  intros Hrun Hstep Hgen Hk size.
  pose proof (reached_run _ _ _ _ Hrun) as (_ & Hnn & Hv & Hsz & _).
  apply evolve_generation_inv in Hstep.
  destruct Hstep as (isl & lp & Hloop & Hheap & _ & _ & Hisl & _).
  exists isl, lp.
  destruct (evolve_islands_size _ _ _ _ _ Hloop Hsz) as [Hlen Hall].
  change (island_size _ _) with size in Hall.
  assert (Hmig : after_migration (generation (self p) + 1) isl = migrate isl).
  { unfold after_migration. rewrite Hgen, Z.eqb_refl.
    destruct (Nat.ltb_spec 1 (List.length isl)) as [_|Hlt]; [reflexivity | lia]. }
  rewrite Hmig in Hisl.
  assert (Hne : Forall (fun l : list addr => l <> []) isl).
  { eapply Forall_impl; [exact Hall|]. intros l [_ Hl] ->. simpl in Hl. lia. }
  pose proof (evolve_islands_nonneg _ _ _ _ _ Hloop Hnn) as Hnn'.
  split; [exact Hloop|]. split; [exact Hheap|]. split; [exact Hlen|].
  split; [rewrite Hisl; apply migrate_length|].
  split; [eapply Forall_impl; [exact Hall|]; intros l [Hl _]; exact Hl|].
  split; [rewrite Hisl; apply migrate_lengths; [lia | exact Hall]|].
  split; [|split].
  - intros j l Hl.
    destruct (lookup_lt_is_Some_2 isl (source_of (List.length isl) j)) as [ls Hls].
    { unfold source_of. apply Nat.mod_upper_bound. lia. }
    destruct ls as [|mg tl].
    { rewrite Forall_forall in Hne. exfalso. eapply Hne; [|reflexivity].
      eapply list_elem_of_lookup_2; eauto. }
    exists mg, tl. split; [exact Hls|]. rewrite Hisl.
    apply (migrate_ring isl j l mg tl); [lia | exact Hne | exact Hl | exact Hls].
  - intros j l Hl. rewrite Hheap.
    destruct (lookup_lt_is_Some_2 (islands (self p)) j) as [old Hold].
    { rewrite <- Hlen. eapply lookup_lt_Some; eauto. }
    destruct (elitism (self p)) eqn:He.
    + destruct (evolve_islands_heads _ _ _ _ _ j old l Hloop He Hv Hold Hl)
        as (top & tl & -> & Htop & Hmax).
      exists top, tl. split; [reflexivity|]. intros a Ha.
      destruct (evolve_islands_member_final _ _ _ _ _ j old (top :: tl) a Hloop Hv Hold Hl Ha)
        as [[_ Hin]|Hzero].
      * apply Hmax. exact Hin.
      * rewrite Hzero. apply Hnn'.
    + destruct l as [|top tl].
      { rewrite Forall_forall in Hne. exfalso. eapply Hne; [|reflexivity].
        eapply list_elem_of_lookup_2; eauto. }
      exists top, tl. split; [reflexivity|]. intros a Ha.
      assert (Hz : forall b, b ∈ top :: tl -> fitness_at (l_heap lp) b = 0%Q).
      { intros b Hb.
        destruct (evolve_islands_member_final _ _ _ _ _ j old (top :: tl) b Hloop Hv Hold Hl Hb)
          as [[He' _]|Hzero]; [|exact Hzero].
        cbn in He'. congruence. }
      rewrite (Hz a Ha), (Hz top ltac:(left)). apply Qle_refl.
  - intros He j old l Hold Hl. rewrite Hheap.
    exact (evolve_islands_heads _ _ _ _ _ j old l Hloop He Hv Hold Hl).
Qed.

Lemma migration_witness :
  fresh_run eight_in_two (const_rng 0) 4 = Ok after_four /\
  evolve_generation after_four = Ok (stats_five, after_five) /\
  (generation (self after_four) + 1) mod 5 = 0 /\
  Forall (fun l => List.length l
                   = S (island_size (population_size (self after_four))
                                    (num_islands (self after_four))))
         (islands (self after_five)).
Proof.
  assert (H1 : fresh_run eight_in_two (const_rng 0) 4 = Ok after_four)
    by (vm_compute; reflexivity).
  assert (H2 : evolve_generation after_four = Ok (stats_five, after_five))
    by (vm_compute; reflexivity).
  assert (H3 : (generation (self after_four) + 1) mod 5 = 0)
    by (vm_compute; reflexivity).
  assert (H4 : (2 <= List.length (islands (self after_four)))%nat)
    by (vm_compute; lia).
  split; [exact H1|]. split; [exact H2|]. split; [exact H3|].
  destruct (migration_every_fifth_generation eight_in_two (const_rng 0) 4
              after_four stats_five after_five H1 H2 H3 H4)
    as (isl & lp & _ & _ & _ & _ & _ & Hsizes & _).
  exact Hsizes.
Defined.

(** C7, as stated, fails: with a single island the fifth generation
    migrates nothing, and the island keeps its nominal four candidates. *)
Lemma single_island_never_migrates :
  exists p,
    fresh_run (default_args "hello world" "hello" 4 1) (const_rng 0) 5 = Ok p /\
    generation (self p) mod 5 = 0 /\
    island_size (population_size (self p)) (num_islands (self p)) = 4%nat /\
    map (fun l => List.length l) (islands (self p)) = [4%nat].
Proof.
  eexists. split; [vm_compute; reflexivity|].
  split; [vm_compute; reflexivity|].
  split; vm_compute; reflexivity.
Qed.

(** ** Resuming from a checkpoint *)

Lemma scored_with_keeps criteria c c' :
  scored criteria c c' -> scored_with criteria c -> scored_with criteria c'.
Proof.
  intros [->|[_ ->]] H; [exact H|]. right. reflexivity.
Qed.

Lemma evolve_island_fresh sv island lp new lp' from :
  evolve_island sv island lp = Ok (new, lp') ->
  fresh_scored_with (evaluation_criteria sv) from (l_heap lp) ->
  fresh_scored_with (evaluation_criteria sv) from (l_heap lp').
Proof.
  intros H Hf. apply evolve_island_spec in H. cbn zeta in H.
  set (h1 := fst (evaluate_all (evaluation_criteria sv) island (l_heap lp) (l_evals lp))) in *.
  destruct H as (top & rest & cells & nominal & _ & _ & Hh' & _ & Hz & _).
  destruct (evaluate_all_spec (evaluation_criteria sv) island (l_heap lp) (l_evals lp))
    as (Hlen & _). fold h1 in Hlen.
  pose proof (evaluate_all_evolves (evaluation_criteria sv) island (l_heap lp) (l_evals lp)) as Hev.
  fold h1 in Hev.
  intros a Hfrom Ha. rewrite Hh' in *.
  destruct (Nat.lt_ge_cases a (List.length h1)) as [Hlt|Hge].
  - rewrite deref_app_l by exact Hlt.
    eapply scored_with_keeps; [eapply evolves_scored; [exact Hev | lia]|].
    apply Hf; [exact Hfrom | lia].
  - left. apply (deref_app_r_zero h1 cells a Hz Hge).
Qed.

Lemma evolve_islands_fresh sv todo : forall lp news lp' from,
  evolve_islands sv todo lp = Ok (news, lp') ->
  fresh_scored_with (evaluation_criteria sv) from (l_heap lp) ->
  fresh_scored_with (evaluation_criteria sv) from (l_heap lp').
Proof.
  induction todo as [|island rest IH]; intros lp news lp' from H Hf.
  - injection H as <- <-. exact Hf.
  - apply evolve_islands_cons in H. destruct H as (new & lp1 & news' & H1 & H2 & ->).
    eapply IH; [exact H2|]. eapply evolve_island_fresh; eauto.
Qed.

Lemma load_checkpoint_criteria doc h r p :
  load_checkpoint doc h r = Ok p -> evaluation_criteria (self p) = "Continue evolution".
Proof.
  unfold load_checkpoint. intros H.
  bind_in H as bc Hbc. bind_in H as sd Hsd. bind_in H as isl_doc Hisl_doc.
  bind_in H as isl_list Hisl_list. bind_in H as lens Hlens.
  bind_in H as p0 Hinit. bind_in H as gen_doc Hgen_doc. bind_in H as gen Hgen.
  bind_in H as [isl h1] Hhyd. bind_in H as [best h2] Hbest.
  bind_in H as hist_doc Hhist_doc. bind_in H as hist_list Hhist_list.
  bind_in H as hist Hhist. injection H as <-. cbn.
  match type of Hinit with __init__ ?args h r = _ =>
    destruct (__init___spec args h r) as (isl0 & cells & r' & Hspec & _)
  end.
  rewrite Hspec in Hinit. injection Hinit as <-. reflexivity.
Qed.

(** C10. The evolver rebuilt from a checkpoint has the evaluation criteria
    ["Continue evolution"], whatever the document holds, and keeps them
    through every later generation; a candidate of the checkpoint is left
    as it is or, when its fitness is still 0, given the score computed under
    those criteria; a candidate created after the resume is unscored or
    carries the score computed under those criteria. *)
Theorem resume_scores_under_fixed_criteria (doc : JSON) (h : Heap) (r : RNG)
    (p : Process) (n : nat) (p' : Process) :
  load_checkpoint doc h r = Ok p ->
  run_generations n p = Ok p' ->
  evaluation_criteria (self p) = "Continue evolution" /\
  evaluation_criteria (self p') = "Continue evolution" /\
  (forall a, (a < List.length (heap p))%nat ->
     scored "Continue evolution" (deref (heap p) a) (deref (heap p') a)) /\
  fresh_scored_with "Continue evolution" (List.length (heap p)) (heap p').
Proof.
  intros Hload Hrun.
  pose proof (load_checkpoint_criteria _ _ _ _ Hload) as Hcrit.
  split; [exact Hcrit|].
  set (P := fun q : Process =>
    evaluation_criteria (self q) = "Continue evolution" /\
    (List.length (heap p) <= List.length (heap q))%nat /\
    (forall a, (a < List.length (heap p))%nat ->
       scored "Continue evolution" (deref (heap p) a) (deref (heap q) a)) /\
    fresh_scored_with "Continue evolution" (List.length (heap p)) (heap q)).
  assert (HP : P p').
  { eapply (run_generations_ind P); [| |exact Hrun].
    - intros q stats q' (Hc & Hlen & Hold & Hnew) Hstep.
      apply evolve_generation_inv in Hstep.
      destruct Hstep as (isl & lp & Hloop & Hheap & _ & _ & _ & _ & _ & _ & Hcfg).
      pose proof (evolve_islands_evolves _ _ _ _ _ Hloop) as Hev.
      pose proof (evolve_islands_fresh _ _ _ _ _ (List.length (heap p)) Hloop) as Hfresh.
      cbn in Hev, Hfresh. rewrite Hc in Hev, Hfresh. rewrite <- Hheap in Hev, Hfresh.
      destruct Hcfg as (_ & Hc' & _).
      split; [rewrite Hc'; exact Hc|].
      split; [destruct Hev as [Hl _]; lia|].
      split; [|apply Hfresh; exact Hnew].
      intros a Ha. eapply scored_trans; [apply Hold; exact Ha|].
      eapply evolves_scored; [exact Hev | lia].
    - split; [exact Hcrit|]. split; [lia|]. split.
      + intros a _. apply scored_refl.
      + intros a Hfrom Ha. lia. }
  destruct HP as (Hc & _ & Hold & Hnew). auto.
Qed.

Lemma resume_witness :
  load_checkpoint (checkpoint_of "task" after_four) [] (const_rng 0) = Ok resumed /\
  run_generations 1 resumed = Ok resumed_next /\
  evaluation_criteria (self after_four) = "hello" /\
  evaluation_criteria (self resumed_next) = "Continue evolution".
Proof.
  assert (H1 : load_checkpoint (checkpoint_of "task" after_four) [] (const_rng 0) = Ok resumed)
    by (vm_compute; reflexivity).
  assert (H2 : run_generations 1 resumed = Ok resumed_next)
    by (vm_compute; reflexivity).
  split; [exact H1|]. split; [exact H2|]. split; [reflexivity|].
  destruct (resume_scores_under_fixed_criteria _ _ _ _ _ _ H1 H2) as (_ & Hc & _).
  exact Hc.
Defined.

(** ** Scenario A *)

(** C1. Scenario A raises [ValueError] when the first crossover draw falls
    below the crossover rate: two parents are sampled from the fitter half
    of a two-candidate island, which holds one candidate. When every such
    draw is at or above the rate the run completes with two islands of two
    candidates, generation 1 and a best fitness of 0.52. *)
Theorem scenario_A_raises_on_crossover_draw :
  run_evolution 0 scenario_A ∅ [] (const_rng 0) = Raise ValueError /\
  exists doc fs p,
    run_evolution 0 scenario_A ∅ [] (const_rng top_draw) = Ok (doc, fs, p) /\
    map (fun l => List.length l) (islands (self p)) = [2%nat; 2%nat] /\
    generation (self p) = 1 /\
    (best_fitness_of (heap p) (best_candidate (self p)) == 52 # 100)%Q.
Proof.
  split; [vm_compute; reflexivity|].
  eexists. eexists. eexists.
  split; [vm_compute; reflexivity|].
  split; [vm_compute; reflexivity|].
  split; vm_compute; reflexivity.
Qed.

(** * Further properties *)

(** ** Scoring *)

Lemma py_min_le_l a b : (py_min a b <= a)%Q.
Proof.
  unfold py_min. destruct (Qlt_bool b a) eqn:E; [|apply Qle_refl].
  apply Qlt_bool_true in E. apply Qlt_le_weak. exact E.
Qed.

Lemma py_min_mono a a' b : (a <= a')%Q -> (py_min a b <= py_min a' b)%Q.
Proof.
  intros H. apply py_min_glb.
  - eapply Qle_trans; [apply py_min_le_l | exact H].
  - apply py_min_le_r.
Qed.

(** X1. The score of a candidate is between 0.5 and 1, so it is never the
    sentinel 0 that marks an unscored candidate; a parent link adds to the
    score, and never more than 0.05. *)
Theorem evaluate_range_and_parent_bonus (criteria : string) (c : Candidate.t) :
  (1 # 2 <= _evaluate criteria c)%Q /\
  (_evaluate criteria c <= 1)%Q /\
  Qeq_bool (_evaluate criteria c) 0 = false /\
  (_evaluate criteria (without_parent c) <= _evaluate criteria c)%Q /\
  (_evaluate criteria c <= _evaluate criteria (without_parent c) + (5 # 100))%Q.
Proof.
  destruct (_evaluate_bounds criteria c) as [Hlo Hhi].
  split; [exact Hlo|]. split; [exact Hhi|]. split; [apply _evaluate_nonzero|].
  unfold _evaluate, without_parent. cbn [Candidate.content Candidate.parent_id truthy].
  match goal with |- context [py_min (2 # 10) ?x] =>
    pose proof (py_min_le_l (2 # 10) x) as Hcap;
    assert (Hm : (0 <= py_min (2 # 10) x)%Q);
    [ apply py_min_glb; [lra|]; apply Qmult_le_0_compat; [|lra];
      change 0%Q with (inject_Z 0); rewrite <- Zle_Qle; lia |];
    set (m := py_min (2 # 10) x) in *
  end.
  destruct (truthy (Candidate.parent_id c)).
  - repeat match goal with
           | |- context [if ?b then _ else _] => destruct b
           end;
      (split;
       [ apply py_min_mono; lra
       | unfold py_min;
         repeat match goal with
                | |- context [Qlt_bool ?x ?y] =>
                    let E := fresh "E" in
                    destruct (Qlt_bool x y) eqn:E;
                    [apply Qlt_bool_true in E | apply Qlt_bool_false in E]
                end; lra ]).
  - split; [apply Qle_refl|].
    match goal with |- (?x <= ?x + _)%Q => assert (0 <= 5 # 100)%Q by lra; lra end.
Qed.

(** ** The evaluation loop *)



Lemma scored_count_app (h1 h2 : Heap) :
  scored_count (h1 ++ h2) = (scored_count h1 + scored_count h2)%nat.
Proof. unfold scored_count. rewrite List.filter_app, length_app. reflexivity. Qed.

Lemma scored_count_zero (cells : Heap) :
  Forall zero_fitness cells -> scored_count cells = 0%nat.
Proof.
  induction cells as [|c cells IH]; intros H; [reflexivity|].
  inversion H as [|? ? Hc Hrest]; subst. unfold scored_count in *. cbn [List.filter].
  unfold is_scored at 1. unfold zero_fitness in Hc. rewrite Hc. cbn. apply IH. exact Hrest.
Qed.

Lemma scored_count_cons c (h : Heap) :
  scored_count (c :: h) = ((if is_scored c then 1 else 0) + scored_count h)%nat.
Proof. unfold scored_count. cbn [List.filter]. destruct (is_scored c); reflexivity. Qed.

Lemma scored_count_insert (h : Heap) a c c' :
  h !! a = Some c -> is_scored c = false -> is_scored c' = true ->
  scored_count (<[a := c']> h) = S (scored_count h).
Proof.
  intros Hc Hz Hs.
  pose proof (lookup_lt_Some _ _ _ Hc) as Hlt.
  rewrite insert_take_drop by exact Hlt.
  replace (scored_count h) with (scored_count (take a h ++ c :: drop (S a) h))
    by (rewrite (take_drop_middle h a c Hc); reflexivity).
  rewrite !scored_count_app, !scored_count_cons, Hz, Hs. lia.
Qed.

(** The loop bumps the counter once for each cell it scores. *)
Lemma evaluate_all_count criteria island : forall (h : Heap) evals,
  Forall (fun a => (a < List.length h)%nat) island ->
  Z.of_nat (scored_count (fst (evaluate_all criteria island h evals))) - snd (evaluate_all criteria island h evals)
  = Z.of_nat (scored_count h) - evals.
Proof.
  induction island as [|a rest IH]; intros h evals Hv; cbn [evaluate_all]; [reflexivity|].
  inversion Hv as [|? ? Ha Hrest]; subst.
  destruct (Qeq_bool (Candidate.fitness (deref h a)) 0) eqn:Ez.
  - destruct (lookup_lt_is_Some_2 h a Ha) as [c Hc].
    assert (Hd : deref h a = c) by (unfold deref; rewrite Hc; reflexivity).
    rewrite Hd in *.
    rewrite IH.
    + rewrite (scored_count_insert h a c _ Hc).
      * lia.
      * unfold is_scored. rewrite Ez. reflexivity.
      * unfold is_scored. cbn. rewrite _evaluate_nonzero. reflexivity.
    + rewrite length_insert. exact Hrest.
  - apply IH. exact Hrest.
Qed.



(** ** The evaluation counter *)

Lemma evolve_island_count sv island lp new lp' :
  evolve_island sv island lp = Ok (new, lp') ->
  Forall (fun a => (a < List.length (l_heap lp))%nat) island ->
  Z.of_nat (scored_count (l_heap lp')) - l_evals lp'
  = Z.of_nat (scored_count (l_heap lp)) - l_evals lp.
Proof.
  unfold evolve_island. intros H Hv.
  pose proof (evaluate_all_count (evaluation_criteria sv) island (l_heap lp) (l_evals lp) Hv)
    as Hcount.
  destruct (evaluate_all (evaluation_criteria sv) island (l_heap lp) (l_evals lp))
    as [h1 evals1]. cbn [fst snd] in Hcount.
  bind_in H as lp2 Htrack. apply track_best_spec in Htrack.
  destruct Htrack as (top & rest & _ & Hh2 & _ & He2 & _). cbn [l_heap l_evals] in *.
  bind_in H as nominal Hnom. bind_in H as [[filled h3] r3] Hfill.
  injection H as _ <-. cbn [l_heap l_evals].
  apply fill_offspring_spec in Hfill. destruct Hfill as (cells & -> & _ & Hz & _).
  rewrite scored_count_app, (scored_count_zero cells Hz), Hh2, He2. lia.
Qed.

Lemma evolve_islands_count sv todo : forall lp news lp',
  evolve_islands sv todo lp = Ok (news, lp') ->
  valid_islands (l_heap lp) todo ->
  Z.of_nat (scored_count (l_heap lp')) - l_evals lp'
  = Z.of_nat (scored_count (l_heap lp)) - l_evals lp.
Proof.
  induction todo as [|island rest IH]; intros lp news lp' H Hv.
  - injection H as <- <-. reflexivity.
  - apply evolve_islands_cons in H. destruct H as (new & lp1 & news' & H1 & H2 & ->).
    inversion Hv as [|? ? Hisland Hrest]; subst.
    pose proof (evolve_island_evolves _ _ _ _ _ H1) as [Hlen _].
    rewrite (IH _ _ _ H2 (valid_islands_grow _ _ _ Hlen Hrest)).
    apply (evolve_island_count _ _ _ _ _ H1 Hisland).
Qed.

Lemma evolve_generation_count p stats p' :
  evolve_generation p = Ok (stats, p') ->
  valid_islands (heap p) (islands (self p)) ->
  Z.of_nat (scored_count (heap p')) - total_evaluations (self p')
  = Z.of_nat (scored_count (heap p)) - total_evaluations (self p).
Proof.
  unfold evolve_generation. intros H Hv.
  bind_in H as [isl lp] Hloop. injection H as _ <-. cbn.
  apply (evolve_islands_count _ _ _ _ _ Hloop Hv).
Qed.

(** X3. In every process reached from a fresh evolver [total_evaluations]
    is the number of candidates that have a score: every candidate is
    evaluated at most once, and the counter misses none. *)
Theorem total_evaluations_counts_scored (args : InitArgs) (r : RNG) (n : nat)
    (p : Process) :
  fresh_run args r n = Ok p ->
  total_evaluations (self p) = Z.of_nat (scored_count (heap p)).
Proof.
  unfold fresh_run. intros H. bind_in H as p0 Hinit.
  pose proof (reached_init _ _ _ Hinit) as Hr0.
  assert (H0 : total_evaluations (self p0) = Z.of_nat (scored_count (heap p0))).
  { destruct (__init___spec args [] r) as (isl & cells & r' & Hspec & _ & _ & Hz & _).
    rewrite Hspec in Hinit. injection Hinit as <-.
    cbn [self heap total_evaluations app].
    rewrite (scored_count_zero cells Hz). reflexivity. }
  assert (HP : reached p /\ total_evaluations (self p) = Z.of_nat (scored_count (heap p))).
  { eapply (run_generations_ind
              (fun q => reached q /\ total_evaluations (self q) = Z.of_nat (scored_count (heap q))));
      [| split; [exact Hr0 | exact H0] | exact H].
    intros q stats q' [Hrq Hq] Hstep. split; [eapply reached_step; eauto|].
    destruct Hrq as (_ & _ & Hv & _).
    pose proof (evolve_generation_count _ _ _ Hstep Hv). lia. }
  apply HP.
Qed.

Lemma total_evaluations_witness :
  fresh_run eight_in_two (const_rng 0) 4 = Ok after_four /\
  total_evaluations (self after_four) = Z.of_nat (scored_count (heap after_four)).
Proof.
  assert (H1 : fresh_run eight_in_two (const_rng 0) 4 = Ok after_four)
    by (vm_compute; reflexivity).
  split; [exact H1|].
  apply (total_evaluations_counts_scored eight_in_two (const_rng 0) 4 after_four H1).
Defined.

(** ** Crossover *)

Lemma _crossover_words gen parent1 parent2 r :
  let words1 := split (Candidate.content parent1) in
  let words2 := split (Candidate.content parent2) in
  let point := (Nat.min (List.length words1) (List.length words2) / 2)%nat in
  split (Candidate.content (fst (_crossover gen parent1 parent2 r)))
  = take point words1 ++ drop point words2.
Proof.
  intros words1 words2 point.
  assert (Hc : Candidate.content (fst (_crossover gen parent1 parent2 r))
               = join " " (take point words1 ++ drop point words2)).
  { unfold _crossover. destruct (randint 0 9999 r). reflexivity. }
  rewrite Hc. apply split_join_words. apply Forall_app. split.
  - apply Forall_take, split_words.
  - apply Forall_drop, split_words.
Qed.

(** X4. The child of a crossover has exactly as many words as parent 2,
    and the same words as parent 2 from the cut on; when either parent has
    fewer than two words the cut is at 0 and the child's words are those of
    parent 2. *)
Theorem crossover_child_has_parent2_length (gen : Z) (parent1 parent2 : Candidate.t)
    (r : RNG) :
  let child := fst (_crossover gen parent1 parent2 r) in
  let words1 := split (Candidate.content parent1) in
  let words2 := split (Candidate.content parent2) in
  List.length (split (Candidate.content child)) = List.length words2 /\
  ((List.length words1 < 2)%nat \/ (List.length words2 < 2)%nat ->
   split (Candidate.content child) = words2).
Proof.
  intros child words1 words2. unfold child.
  rewrite _crossover_words. fold words1 words2.
  set (point := (Nat.min (List.length words1) (List.length words2) / 2)%nat).
  assert (Hp : (point <= List.length words1 /\ point <= List.length words2)%nat).
  { unfold point.
    pose proof (Nat.Div0.div_le_upper_bound
                  (Nat.min (List.length words1) (List.length words2)) 2
                  (Nat.min (List.length words1) (List.length words2)) ltac:(lia)).
    lia. }
  split.
  - rewrite length_app, length_take, length_drop. lia.
  - intros Hshort.
    assert (Hz : point = 0%nat).
    { unfold point. apply Nat.div_small. lia. }
    rewrite Hz. reflexivity.
Qed.

(** ** Islands that are too small *)

Lemma make_child_small sv island (h : Heap) r :
  (2 <= List.length island <= 3)%nat ->
  Qlt_bool (fst (random r)) (crossover_rate sv) = true ->
  make_child sv island h r = Raise ValueError.
Proof.
  intros Hlen Hdraw. unfold make_child.
  destruct (random r) as [u r0]. cbn [fst] in Hdraw. rewrite Hdraw.
  replace (2 <=? List.length island)%nat with true
    by (symmetry; apply Nat.leb_le; lia).
  cbn [andb]. rewrite sample2_short; [reflexivity|].
  rewrite fitter_half_length. apply Nat.Div0.div_lt_upper_bound. lia.
Qed.

Lemma evolve_island_small sv island lp :
  (2 <= List.length island <= 3)%nat ->
  2 <= population_size sv / num_islands sv ->
  Qlt_bool (fst (random (l_rng lp))) (crossover_rate sv) = true ->
  evolve_island sv island lp = Raise ValueError.
Proof.
  intros Hlen Hnom Hdraw. unfold evolve_island.
  destruct (evaluate_all (evaluation_criteria sv) island (l_heap lp) (l_evals lp))
    as [h1 evals1].
  pose proof (sort_desc_length (fitness_at h1) island) as Hsl.
  set (sorted := sort_desc (fitness_at h1) island) in *.
  assert (Hni : (num_islands sv =? 0) = false).
  { apply Z.eqb_neq. intros Hz. rewrite Hz, Z.div_0_r in Hnom. lia. }
  assert (Hel : (List.length (elite_of sv sorted) <= 1)%nat).
  { rewrite elite_of_length by lia. destruct (elitism sv); [|lia].
    rewrite (Nat.div_small (List.length sorted) 5) by lia. lia. }
  assert (Htb : exists lp2,
            track_best sorted (mkLoop h1 (l_rng lp) (l_best lp) (l_improvements lp) evals1)
            = Ok lp2 /\ l_rng lp2 = l_rng lp).
  { destruct sorted as [|top rest]; [cbn in Hsl; lia|]. cbn [track_best].
    destruct (Qlt_bool (best_fitness_of _ _) _); eexists; split; reflexivity. }
  destruct Htb as (lp2 & -> & Hrng). cbn [mbind Result_bind].
  unfold floordiv. rewrite Hni. cbn [mbind Result_bind].
  destruct (Z.to_nat (population_size sv / num_islands sv
                      - Z.of_nat (List.length (elite_of sv sorted)))) as [|fuel] eqn:Hfuel;
    [lia|].
  cbn [fill_offspring]. rewrite make_child_small; [reflexivity | lia | rewrite Hrng; exact Hdraw].
Qed.

(** X5. When the first island has two or three candidates (and the nominal
    island size is at least two), a generation step whose first call of
    [random.random()] returns less than [crossover_rate] raises
    [ValueError]: [random.sample] is asked for two parents from the
    one-element fitter half. The score of no candidate matters. *)
Theorem small_island_crossover_raises (p : Process) (island : list addr)
    (rest : list (list addr)) :
  islands (self p) = island :: rest ->
  (2 <= List.length island <= 3)%nat ->
  2 <= population_size (self p) / num_islands (self p) ->
  Qlt_bool (fst (random (rng p))) (crossover_rate (self p)) = true ->
  evolve_generation p = Raise ValueError.
Proof.
  intros Hisl Hlen Hnom Hdraw. unfold evolve_generation. rewrite Hisl.
  cbn [evolve_islands].
  rewrite evolve_island_small; [reflexivity | exact Hlen | exact Hnom | exact Hdraw].
Qed.

Lemma small_island_witness :
  evolve_generation (pair_island (const_rng 0)) = Raise ValueError.
Proof.
  apply (small_island_crossover_raises (pair_island (const_rng 0)) [0%nat; 1%nat] []).
  - reflexivity.
  - simpl. lia.
  - vm_compute. discriminate.
  - vm_compute. reflexivity.
Defined.

Lemma evolve_island_empty sv lp : evolve_island sv [] lp = Raise IndexError.
Proof. reflexivity. Qed.

(** X6. A configuration with at least one island and fewer candidates than
    islands ([population_size // num_islands <= 0]) constructs without
    error, and the first generation step of the evolver it builds raises
    [IndexError] at [island[0]]. *)
Theorem empty_islands_raise_index_error (args : InitArgs) (h : Heap) (r : RNG) :
  1 <= a_num_islands args ->
  island_size (a_population_size args) (a_num_islands args) = 0%nat ->
  exists p, __init__ args h r = Ok p /\ evolve_generation p = Raise IndexError.
Proof.
  intros Hni Hsize.
  destruct (__init___spec args h r) as (isl & cells & r' & Hspec & Hlen & Hsz & _).
  eexists. split; [exact Hspec|].
  destruct isl as [|island rest]; [cbn in Hlen; lia|].
  inversion Hsz as [|? ? Hisland _]; subst. rewrite Hsize in Hisland.
  destruct island; [|discriminate].
  reflexivity.
Qed.

Lemma empty_islands_witness :
  exists p, __init__ (mkInitArgs "seed" "crit" 2 3 default_model default_model true
                        (6 # 10) (4 # 10)) [] (const_rng 0) = Ok p /\
            evolve_generation p = Raise IndexError.
Proof.
  apply (empty_islands_raise_index_error
           (mkInitArgs "seed" "crit" 2 3 default_model default_model true
              (6 # 10) (4 # 10)) [] (const_rng 0)).
  - simpl. lia.
  - vm_compute. reflexivity.
Defined.

(** ** The initial population *)

Lemma create_population_loop_cells todo : forall i sd pop (h : Heap) r filled h' r',
  i = Z.of_nat (List.length pop) ->
  create_population_loop todo i sd pop h r = Ok (filled, h', r') ->
  exists cells : Heap,
    h' = h ++ cells /\ filled = pop ++ seq (List.length h) todo /\
    List.length cells = todo /\
    (forall k c, cells !! k = Some c -> initial_cell sd (List.length pop + k) c) /\
    (todo = 0%nat -> r' = r) /\ (todo = 1%nat -> i = 0 -> r' = r).
Proof.
  induction todo as [|todo IH]; intros i sd pop h r filled h' r' Hi H;
    cbn [create_population_loop] in H.
  - injection H as <- <- <-. exists []. rewrite !app_nil_r.
    split; [reflexivity|]. split; [reflexivity|]. split; [reflexivity|].
    split; [|split; [reflexivity | discriminate]].
    intros k c Hk. rewrite lookup_nil in Hk. discriminate.
  - bind_in H as [text r1] Htext. cbn [alloc] in H.
    apply IH in H; [|rewrite length_app; cbn [List.length]; lia].
    destruct H as (cells & -> & -> & Hlen & Hcells & Hrng & _).
    eexists (_ :: cells). rewrite <- !app_assoc. cbn [app].
    split; [reflexivity|]. split.
    { rewrite length_app. cbn [List.length seq].
      replace (List.length h + 1)%nat with (S (List.length h)) by lia. reflexivity. }
    split; [cbn [List.length]; lia|]. split.
    + intros [|k] c Hk.
      * injection Hk as <-. rewrite Nat.add_0_r. unfold initial_cell.
        cbn [Candidate.id Candidate.fitness Candidate.novelty Candidate.generation
             Candidate.parent_id Candidate.mutation_type Candidate.content].
        split; [unfold initial_id; rewrite Hi; reflexivity|].
        repeat (split; [reflexivity|]). split.
        -- intros Hz. rewrite Hz in Hi. cbn in Hi. subst i. cbn in Htext.
           injection Htext as <- _. reflexivity.
        -- intros Hnz. destruct (0 <? i) eqn:Hpos; [eauto | apply Z.ltb_ge in Hpos; lia].
      * cbn [lookup] in Hk. apply Hcells in Hk.
        rewrite length_app in Hk. cbn [List.length] in Hk.
        replace (List.length pop + S k)%nat with (List.length pop + 1 + k)%nat by lia.
        exact Hk.
    + split; [discriminate|]. intros Htodo Hz. rewrite Hz in Htext.
      change (0 <? 0) with false in Htext. cbn iota in Htext.
      injection Htext as _ <-. apply Hrng. lia.
Qed.

Lemma create_islands_cells todo : forall sd ps ni (h : Heap) r isl h' r',
  create_islands todo sd ps ni h r = Ok (isl, h', r') ->
  exists cells : Heap,
    h' = h ++ cells /\
    List.length cells = (todo * island_size ps ni)%nat /\
    Forall (initial_island sd h') isl /\
    Forall (fun c => exists k, (k < island_size ps ni)%nat /\ initial_cell sd k c) cells /\
    (island_size ps ni <= 1 -> r' = r)%nat.
Proof.
  induction todo as [|todo IH]; intros sd ps ni h r isl h' r' H;
    cbn [create_islands] in H.
  - injection H as <- <- <-. exists []. rewrite app_nil_r.
    split; [reflexivity|]. split; [reflexivity|]. split; [constructor|].
    split; [constructor | reflexivity].
  - bind_in H as [[island h1] r1] Hpop. bind_in H as [[rest h2] r2] Hrest.
    injection H as <- <- <-.
    unfold _create_initial_population in Hpop. bind_in Hpop as n Hn.
    apply floordiv_Ok in Hn. destruct Hn as [_ ->].
    apply create_population_loop_cells in Hpop; [|reflexivity].
    destruct Hpop as (cells1 & -> & -> & Hlen1 & Hcells1 & Hr0 & Hr1).
    apply IH in Hrest. destruct Hrest as (cells2 & -> & Hlen2 & Hisl2 & Hcells2 & Hr2).
    fold (island_size ps ni) in *.
    exists (cells1 ++ cells2). rewrite <- app_assoc.
    split; [reflexivity|]. split; [rewrite length_app; lia|]. split; [|split].
    + constructor; [|rewrite app_assoc; exact Hisl2].
      intros k a Hk. cbn [app] in Hk.
      apply lookup_seq in Hk. destruct Hk as [-> Hlt].
      assert (Hc : exists c, cells1 !! k = Some c)
        by (apply lookup_lt_is_Some_2; lia).
      destruct Hc as (c & Hc).
      replace (deref (h ++ cells1 ++ cells2) (List.length h + k)) with c.
      * apply (Hcells1 k c Hc).
      * unfold deref. rewrite lookup_app_r by lia.
        replace (List.length h + k - List.length h)%nat with k by lia.
        rewrite lookup_app_l by lia. rewrite Hc. reflexivity.
    + apply Forall_app. split; [|exact Hcells2].
      apply Forall_lookup. intros k c Hc. exists k. split.
      * apply lookup_lt_Some in Hc. lia.
      * apply (Hcells1 k c Hc).
    + intros Hsmall. rewrite (Hr2 Hsmall).
      destruct (island_size ps ni) as [|[|m]] eqn:Hsz; [apply Hr0 | apply Hr1 |]; auto; lia.
Qed.

(** X7. The constructor fills every island in the same way: the candidate
    at position [k] has the id [gen0_island{k}_{k}] (so ids repeat from one
    island to the next), no score, no novelty, generation 0, no parent and
    no mutation type; position 0 holds the seed itself and every other
    position one text mutation of the seed. *)
Theorem initial_population_shape (args : InitArgs) (h : Heap) (r : RNG) :
  exists p,
    __init__ args h r = Ok p /\
    Forall (initial_island (a_seed args) (heap p)) (islands (self p)) /\
    List.length (heap p)
    = (List.length h
       + Z.to_nat (a_num_islands args)
         * island_size (a_population_size args) (a_num_islands args))%nat.
Proof.
  destruct (__init___spec args h r) as (isl & cells & r' & Hspec & _).
  eexists. split; [exact Hspec|].
  unfold __init__ in Hspec. bind_in Hspec as [[isl0 h0] r0] Hcreate.
  injection Hspec as <- Hh <-.
  apply create_islands_cells in Hcreate.
  destruct Hcreate as (cells0 & -> & Hlen & Hisl & _).
  cbn [self heap islands]. rewrite <- Hh. split; [exact Hisl|].
  rewrite length_app, Hlen. reflexivity.
Qed.

(** ** Islands of one candidate *)

Lemma make_child_singleton sv a (h : Heap) r :
  make_child sv [a] h r = Raise IndexError.
Proof.
  unfold make_child. destruct (random r) as [u r0].
  cbn [List.length Nat.leb]. rewrite andb_false_r. reflexivity.
Qed.

(** X8. When the first island has a single candidate and the loop that
    fills the new island has to produce at least one child (nominal island
    size at least 1 without elitism, at least 2 with it), the generation
    step raises [IndexError] whatever the random draws: the fitter half of
    the island is empty and [random.choice] is called on it. *)
Theorem singleton_island_raises_index_error (p : Process) (a : addr)
    (rest : list (list addr)) :
  islands (self p) = [a] :: rest ->
  (if elitism (self p) then 2 else 1)
    <= population_size (self p) / num_islands (self p) ->
  evolve_generation p = Raise IndexError.
Proof.
  intros Hisl Hnom. unfold evolve_generation. rewrite Hisl.
  cbn [evolve_islands]. unfold evolve_island.
  set (sv := set_generation (self p) (generation (self p) + 1)).
  destruct (evaluate_all (evaluation_criteria sv) [a] _ _) as [h1 evals1].
  change (sort_desc (fitness_at h1) [a]) with [a].
  cbn [track_best].
  assert (Hni : (num_islands sv =? 0) = false).
  { apply Z.eqb_neq. intros Hz. change (num_islands sv) with (num_islands (self p)) in Hz.
    rewrite Hz, Z.div_0_r in Hnom. destruct (elitism (self p)); lia. }
  assert (Hfuel : exists fuel,
            Z.to_nat (population_size sv / num_islands sv
                      - Z.of_nat (List.length (elite_of sv [a]))) = S fuel).
  { change (population_size sv) with (population_size (self p)).
    change (num_islands sv) with (num_islands (self p)).
    unfold elite_of. change (elitism sv) with (elitism (self p)).
    destruct (elitism (self p)); cbn [List.length];
      [change (py_max 1 (Z.of_nat 1 / 5)) with 1;
       change (List.length (take (Z.to_nat 1) [a])) with 1%nat|];
      match goal with |- exists f, Z.to_nat ?x = S f => exists (Nat.pred (Z.to_nat x)) end;
      lia. }
  destruct Hfuel as (fuel & Hfuel).
  destruct (Qlt_bool (best_fitness_of _ _) _); cbn [mbind Result_bind];
    unfold floordiv; rewrite Hni; cbn [mbind Result_bind]; rewrite Hfuel;
    cbn [fill_offspring]; rewrite make_child_singleton; reflexivity.
Qed.

Lemma singleton_island_witness :
  evolve_generation (lone_candidate (const_rng 0)) = Raise IndexError.
Proof.
  apply (singleton_island_raises_index_error (lone_candidate (const_rng 0)) 0%nat []).
  - reflexivity.
  - vm_compute. discriminate.
Defined.

Lemma evolve_island_keep_top sv island lp :
  elitism sv = true ->
  population_size sv / num_islands sv = 1 ->
  (1 <= List.length island <= 2)%nat ->
  exists new lp',
    evolve_island sv island lp = Ok (new, lp') /\
    List.length (l_heap lp') = List.length (l_heap lp) /\
    l_rng lp' = l_rng lp.
Proof.
  intros Hel Hnom Hlen. unfold evolve_island.
  pose proof (evaluate_all_spec (evaluation_criteria sv) island (l_heap lp) (l_evals lp))
    as [Hh1 _].
  destruct (evaluate_all (evaluation_criteria sv) island (l_heap lp) (l_evals lp))
    as [h1 evals1]. cbn [fst] in Hh1.
  pose proof (sort_desc_length (fitness_at h1) island) as Hsl.
  set (sorted := sort_desc (fitness_at h1) island) in *.
  assert (Hni : (num_islands sv =? 0) = false).
  { apply Z.eqb_neq. intros Hz. rewrite Hz, Z.div_0_r in Hnom. lia. }
  assert (Helite : List.length (elite_of sv sorted) = 1%nat).
  { rewrite elite_of_length by lia. rewrite Hel.
    rewrite (Nat.div_small (List.length sorted) 5) by lia. reflexivity. }
  assert (Htb : exists lp2,
            track_best sorted (mkLoop h1 (l_rng lp) (l_best lp) (l_improvements lp) evals1)
            = Ok lp2 /\ l_rng lp2 = l_rng lp /\ l_heap lp2 = h1).
  { destruct sorted as [|top rest]; [cbn in Hsl; lia|]. cbn [track_best].
    destruct (Qlt_bool (best_fitness_of _ _) _); eexists; repeat split; reflexivity. }
  destruct Htb as (lp2 & -> & Hrng & Hheap). cbn [mbind Result_bind].
  unfold floordiv. rewrite Hni. cbn [mbind Result_bind].
  rewrite Hnom, Helite. change (Z.to_nat (1 - Z.of_nat 1)) with 0%nat.
  cbn [fill_offspring mbind Result_bind].
  eexists _, _. split; [reflexivity|]. cbn [l_heap l_rng].
  rewrite Hheap, Hrng. split; [exact Hh1 | reflexivity].
Qed.

Lemma evolve_islands_keep_top sv todo : forall lp,
  elitism sv = true ->
  population_size sv / num_islands sv = 1 ->
  Forall (fun l => (1 <= List.length l <= 2)%nat) todo ->
  exists news lp',
    evolve_islands sv todo lp = Ok (news, lp') /\
    List.length (l_heap lp') = List.length (l_heap lp) /\
    l_rng lp' = l_rng lp.
Proof.
  induction todo as [|island rest IH]; intros lp Hel Hnom Hall; cbn [evolve_islands].
  - eexists _, _. split; [reflexivity|]. split; reflexivity.
  - inversion Hall as [|? ? Hisland Hrest]; subst.
    destruct (evolve_island_keep_top sv island lp Hel Hnom Hisland)
      as (new & lp1 & -> & Hh1 & Hr1).
    cbn [mbind Result_bind].
    destruct (IH lp1 Hel Hnom Hrest) as (news & lp2 & -> & Hh2 & Hr2).
    cbn [mbind Result_bind].
    eexists _, _. split; [reflexivity|]. split; congruence.
Qed.

Lemma evolves_content criteria touch (h h' : Heap) :
  evolves criteria touch h h' -> List.length h' = List.length h ->
  forall a, Candidate.content (deref h' a) = Candidate.content (deref h a).
Proof.
  intros [_ Hcells] Hlen a.
  destruct (Nat.lt_ge_cases a (List.length h)) as [Hlt|Hge].
  - destruct (Hcells a Hlt) as [->|[_ [->|[_ ->]]]]; reflexivity.
  - rewrite !deref_ge by lia. reflexivity.
Qed.

Lemma single_step p :
  reached p ->
  elitism (self p) = true ->
  population_size (self p) / num_islands (self p) = 1 ->
  exists stats p',
    evolve_generation p = Ok (stats, p') /\
    List.length (heap p') = List.length (heap p) /\
    rng p' = rng p /\
    (forall a, Candidate.content (deref (heap p') a) = Candidate.content (deref (heap p) a)).
Proof.
  intros Hreached Hel Hnom.
  assert (Hall : Forall (fun l => (1 <= List.length l <= 2)%nat) (islands (self p))).
  { destruct Hreached as (_ & _ & _ & Hsz & _). unfold sized, island_size in Hsz.
    rewrite Hnom in Hsz. eapply Forall_impl; [exact Hsz|].
    cbn beta. intros l Hl. change (Z.to_nat 1) with 1%nat in Hl. lia. }
  destruct (evolve_islands_keep_top
              (set_generation (self p) (generation (self p) + 1))
              (islands (self p)) (start_loop p) Hel Hnom Hall)
    as (news & lp & Hloop & Hh & Hr).
  assert (Hstep : exists res, evolve_generation p = Ok res).
  { unfold evolve_generation. unfold start_loop in Hloop. rewrite Hloop.
    cbn [mbind Result_bind]. eauto. }
  destruct Hstep as ([stats p'] & Hstep). exists stats, p'.
  split; [exact Hstep|].
  apply evolve_generation_inv in Hstep.
  destruct Hstep as (isl & lp0 & Hloop0 & Hheap & Hrng & _).
  rewrite Hloop in Hloop0. injection Hloop0 as _ <-.
  rewrite Hheap, Hrng. split; [exact Hh|]. split; [exact Hr|].
  apply evolve_islands_evolves in Hloop.
  apply (evolves_content _ _ _ _ Hloop Hh).
Qed.

Lemma single_run n : forall p,
  reached p ->
  elitism (self p) = true ->
  population_size (self p) / num_islands (self p) = 1 ->
  exists p',
    run_generations n p = Ok p' /\
    List.length (heap p') = List.length (heap p) /\
    rng p' = rng p /\
    (forall a, Candidate.content (deref (heap p') a) = Candidate.content (deref (heap p) a)).
Proof.
  induction n as [|n IH]; intros p Hreached Hel Hnom; cbn [run_generations].
  - exists p. auto.
  - destruct (single_step p Hreached Hel Hnom) as (stats & p1 & Hstep & Hh1 & Hr1 & Hc1).
    rewrite Hstep. cbn [mbind Result_bind].
    pose proof (reached_step _ _ _ Hreached Hstep) as Hreached1.
    apply evolve_generation_inv in Hstep.
    destruct Hstep as (_ & _ & _ & _ & _ & _ & _ & _ & _ & _ & Hcfg).
    destruct Hcfg as (_ & _ & Hps & Hni & Helit & _).
    assert (Hel1 : elitism (self p1) = true) by congruence.
    assert (Hnom1 : population_size (self p1) / num_islands (self p1) = 1)
      by (rewrite Hps, Hni; exact Hnom).
    destruct (IH p1 Hreached1 Hel1 Hnom1) as (p' & -> & Hh & Hr & Hc).
    exists p'. split; [reflexivity|]. split; [congruence|]. split; [congruence|].
    intros a. rewrite Hc. apply Hc1.
Qed.

(** X9. With one candidate per island ([population_size // num_islands]
    equal to 1) and elitism on, a run of any number of generations
    completes, draws no random number and creates no candidate: the
    candidates are the copies of the seed the constructor made, one per
    island, and the best candidate, when there is one, has the seed as its
    content. *)
Theorem single_candidate_islands_never_evolve (args : InitArgs) (r : RNG) (n : nat) :
  a_elitism args = true ->
  a_population_size args / a_num_islands args = 1 ->
  exists p,
    fresh_run args r n = Ok p /\
    rng p = r /\
    List.length (heap p) = Z.to_nat (a_num_islands args) /\
    Forall (fun c => Candidate.content c = a_seed args) (heap p) /\
    (forall b, best_candidate (self p) = Some b ->
       Candidate.content (deref (heap p) b) = a_seed args).
Proof.
  intros Hel Hnom. unfold fresh_run.
  destruct (__init___spec args [] r) as (isl & cells & r' & Hspec & _).
  pose proof (reached_init _ _ _ Hspec) as Hreached0.
  pose proof Hspec as Hcreate.
  unfold __init__ in Hcreate. bind_in Hcreate as [[isl0 h0] r0] Hcr.
  injection Hcreate as _ Hh Hr.
  apply create_islands_cells in Hcr.
  destruct Hcr as (cells0 & -> & Hlen & _ & Hcells & Hrng).
  unfold island_size in Hlen, Hcells, Hrng. rewrite Hnom in Hlen, Hcells, Hrng.
  change (Z.to_nat 1) with 1%nat in Hlen, Hcells, Hrng.
  rewrite Hrng in Hr by lia. subst r'.
  cbn [app] in Hh. subst cells0.
  rewrite Hspec. cbn [mbind Result_bind].
  match goal with |- context [run_generations n ?q] => set (p0 := q) in * end.
  destruct (single_run n p0 Hreached0 Hel Hnom) as (p & Hrun & Hheap & Hr & Hcontent).
  assert (Hseed : Forall (fun c => Candidate.content c = a_seed args) (heap p)).
  { apply Forall_lookup. intros a c Hc.
    assert (Hd : deref (heap p) a = c) by (unfold deref; rewrite Hc; reflexivity).
    rewrite <- Hd, Hcontent.
    assert (Hlt : (a < List.length (heap p0))%nat)
      by (rewrite <- Hheap; apply lookup_lt_Some in Hc; exact Hc).
    destruct (lookup_lt_is_Some_2 _ _ Hlt) as (c0 & Hc0).
    unfold deref. rewrite Hc0. cbn [default].
    change (heap p0) with ([] ++ cells) in Hc0. cbn [app] in Hc0.
    rewrite Forall_lookup in Hcells. destruct (Hcells a c0 Hc0) as (k & Hk & Hcell).
    destruct Hcell as (_ & _ & _ & _ & _ & _ & Hzero & _). apply Hzero. lia. }
  exists p. split; [exact Hrun|]. split; [rewrite Hr; reflexivity|].
  split; [rewrite Hheap; change (heap p0) with ([] ++ cells); cbn [app]; lia|].
  split; [exact Hseed|].
  intros b Hb.
  assert (Hreached : reached p).
  { eapply (run_generations_ind reached); [|exact Hreached0 | exact Hrun].
    intros q stats q' Hq Hstep. eapply reached_step; eauto. }
  destruct Hreached as ((_ & Hbest) & _). destruct (Hbest b Hb) as [Hlt _].
  destruct (lookup_lt_is_Some_2 _ _ Hlt) as (c & Hc).
  rewrite Forall_lookup in Hseed. unfold deref. rewrite Hc. cbn [default].
  apply (Hseed b c Hc).
Qed.

Lemma single_candidate_witness :
  exists p,
    fresh_run one_each (const_rng 7) 6 = Ok p /\
    rng p = const_rng 7 /\
    List.length (heap p) = Z.to_nat (a_num_islands one_each) /\
    Forall (fun c => Candidate.content c = a_seed one_each) (heap p) /\
    (forall b, best_candidate (self p) = Some b ->
       Candidate.content (deref (heap p) b) = a_seed one_each).
Proof.
  apply (single_candidate_islands_never_evolve one_each (const_rng 7) 6).
  - reflexivity.
  - reflexivity.
Defined.

(** ** The files of a run *)

Lemma string_length_app (a b : string) :
  String.length (a +:+ b) = (String.length a + String.length b)%nat.
Proof.
  induction a as [|c a IH]; [reflexivity|].
  change (String c a +:+ b) with (String c (a +:+ b)).
  cbn [String.length]. rewrite IH. reflexivity.
Qed.

Lemma prefix_slash_app (a b : string) :
  b <> "" -> String.prefix "/" b = false -> String.prefix "/" (a +:+ b) = String.prefix "/" a.
Proof.
  intros Hb Hp. destruct a as [|c a]; [exact Hp|].
  change (String c a +:+ b) with (String c (a +:+ b)).
  cbn [String.prefix]. destruct (Ascii.ascii_dec "/" c); [|reflexivity].
  destruct (a +:+ b), a; reflexivity.
Qed.

Lemma path_join_length (a n1 n2 : string) :
  String.prefix "/" n1 = String.prefix "/" n2 ->
  String.length n1 <> String.length n2 ->
  path_join a n1 <> path_join a n2.
Proof.
  intros Hp Hlen Heq. apply (f_equal String.length) in Heq.
  unfold path_join in Heq. rewrite Hp in Heq.
  destruct (String.prefix "/" n2); [contradiction|].
  destruct (String.eqb a "" || String.prefix "/" (rev_string a))%bool;
    rewrite !string_length_app in Heq; lia.
Qed.

Lemma checkpoint_path_ne_status_path dir task_id :
  checkpoint_path dir task_id <> status_path dir task_id.
Proof.
  unfold checkpoint_path, status_path. apply path_join_length.
  - rewrite !prefix_slash_app by (reflexivity || discriminate). reflexivity.
  - rewrite !string_length_app. cbn [String.length]. lia.
Qed.

Lemma evolution_loop_files n : forall dir task_id p fs p1 fs1,
  evolution_loop n dir task_id p fs = Ok (p1, fs1) ->
  (forall path, path <> checkpoint_path dir task_id -> path <> status_path dir task_id ->
     fs1 !! path = fs !! path) /\
  (n <> 0%nat ->
     fs1 !! checkpoint_path dir task_id = Some (checkpoint_of task_id p1) /\
     fs1 !! status_path dir task_id = Some (status_of true p1)).
Proof.
  induction n as [|n IH]; intros dir task_id p fs p1 fs1 H; cbn [evolution_loop] in H.
  - injection H as <- <-. split; [reflexivity | congruence].
  - bind_in H as [stats q] Hstep.
    pose proof (checkpoint_path_ne_status_path dir task_id) as Hne.
    destruct n as [|n].
    + cbn [evolution_loop] in H. injection H as <- <-. unfold save_checkpoint. split.
      * intros path Hc Hs. rewrite !lookup_insert_ne by congruence. reflexivity.
      * intros _. split.
        -- rewrite lookup_insert_ne by congruence. apply lookup_insert_eq.
        -- apply lookup_insert_eq.
    + apply IH in H. destruct H as [Hframe Hfiles]. split.
      * intros path Hc Hs. rewrite (Hframe path Hc Hs). unfold save_checkpoint.
        rewrite !lookup_insert_ne by congruence. reflexivity.
      * intros _. apply Hfiles. discriminate.
Qed.

(** X10. A completed [run_evolution] leaves exactly two files behind: the
    checkpoint file holds the state at the end of the last generation (as
    it was before the pareto pass rewrote the novelty fields), the status
    file holds the inactive status of that state, and every other path of
    the file system is as it was. *)
Theorem run_evolution_writes_two_files (now : Z) (config : Config.t) (fs : FileSystem)
    (h : Heap) (r : RNG) (doc : JSON) (fs' : FileSystem) (p : Process) :
  run_evolution now config fs h r = Ok (doc, fs', p) ->
  let task_id := default ("task_" +:+ str_of_Z now) (Config.task_id config) in
  let dir := default "." (Config.output_dir config) in
  exists p1,
    (evolver ← __init__ (init_args_of config) h r;
     run_generations (Z.to_nat (default 20 (Config.max_generations config))) evolver)
    = Ok p1 /\
    p = snd (get_pareto_front p1) /\
    fs' !! checkpoint_path dir task_id = Some (checkpoint_of task_id p1) /\
    fs' !! status_path dir task_id = Some (status_of false p1) /\
    (forall path, path <> checkpoint_path dir task_id -> path <> status_path dir task_id ->
       fs' !! path = fs !! path).
Proof.
  intros H task_id dir. unfold run_evolution in H. fold task_id dir in H.
  bind_in H as evolver Hinit. bind_in H as [p1 fs1] Hloop.
  destruct (default 20 (Config.max_generations config) <=? 0) eqn:Hmax; [discriminate|].
  apply Z.leb_gt in Hmax.
  destruct (get_pareto_front p1) as [front p2] eqn:Hfront.
  injection H as _ <- <-.
  pose proof (evolution_loop_run _ _ _ _ _ _ _ Hloop) as Hrun.
  apply evolution_loop_files in Hloop. destruct Hloop as [Hframe Hfiles].
  destruct Hfiles as [Hcp Hst]; [lia|].
  pose proof (checkpoint_path_ne_status_path dir task_id) as Hne.
  exists p1. split; [rewrite Hinit; exact Hrun|].
  split; [rewrite Hfront; reflexivity|]. split; [|split].
  - rewrite lookup_insert_ne by congruence. exact Hcp.
  - apply lookup_insert_eq.
  - intros path Hc Hs. rewrite lookup_insert_ne by congruence. apply Hframe; assumption.
Qed.

Lemma run_evolution_files_witness :
  exists p1,
    (evolver ← __init__ (init_args_of two_generations) [] (const_rng 0);
     run_generations (Z.to_nat (default 20 (Config.max_generations two_generations))) evolver)
    = Ok p1 /\
    snd completed_run = snd (get_pareto_front p1) /\
    snd (fst completed_run) !! checkpoint_path "." "t" = Some (checkpoint_of "t" p1) /\
    snd (fst completed_run) !! status_path "." "t" = Some (status_of false p1) /\
    (forall path, path <> checkpoint_path "." "t" -> path <> status_path "." "t" ->
       snd (fst completed_run) !! path = (∅ : FileSystem) !! path).
Proof.
  apply (run_evolution_writes_two_files 0 two_generations ∅ [] (const_rng 0)
           (fst (fst completed_run)) (snd (fst completed_run)) (snd completed_run)).
  vm_compute. reflexivity.
Defined.

(** X11. With [max_generations] at most 0 the generation loop of
    [run_evolution] does not run, so [status] is never bound and the line
    that marks the run complete raises [UnboundLocalError]: no result is
    returned, whatever the other settings, the files and the draws. *)
Theorem run_evolution_without_generations (now : Z) (config : Config.t)
    (fs : FileSystem) (h : Heap) (r : RNG) :
  default 20 (Config.max_generations config) <= 0 ->
  run_evolution now config fs h r = Raise UnboundLocalError.
Proof.
  intros Hmax. unfold run_evolution.
  destruct (__init___spec (init_args_of config) h r) as (isl & cells & r' & -> & _).
  cbn [mbind Result_bind].
  replace (Z.to_nat (default 20 (Config.max_generations config))) with 0%nat by lia.
  cbn [evolution_loop mbind Result_bind].
  replace (default 20 (Config.max_generations config) <=? 0) with true
    by (symmetry; apply Z.leb_le; exact Hmax).
  reflexivity.
Qed.

Lemma run_evolution_without_generations_witness :
  run_evolution 0 no_generation ∅ [] (const_rng 0) = Raise UnboundLocalError.
Proof.
  apply (run_evolution_without_generations 0 no_generation ∅ [] (const_rng 0)).
  vm_compute. discriminate.
Defined.

(** ** Resuming *)

Lemma load_checkpoint_of task_id p (h : Heap) r :
  exists p',
    load_checkpoint (checkpoint_of task_id p) h r = Ok p' /\
    engine_state task_id p' = engine_state task_id p /\
    seed (self p') = best_content p /\
    population_size (self p') = total_candidates (self p) /\
    num_islands (self p') = Z.of_nat (List.length (islands (self p))) /\
    mutation_model (self p') = default_model /\
    evaluation_model (self p') = default_model /\
    elitism (self p') = true /\
    crossover_rate (self p') = (6 # 10)%Q /\
    mutation_rate (self p') = (4 # 10)%Q /\
    total_evaluations (self p') = 0.
Proof.
  set (vs := map (map (deref (heap p))) (islands (self p))).
  assert (Hdoc : map (fun island => JList (map (fun a => asdict_candidate (deref (heap p) a)) island))
                   (islands (self p))
                 = map (fun cs => JList (map asdict_candidate cs)) vs).
  { unfold vs. rewrite map_map. apply map_ext. intros island. rewrite map_map. reflexivity. }
  assert (Hlens : map (fun cs : list Candidate.t => Z.of_nat (List.length cs)) vs
                  = map (fun island : list addr => Z.of_nat (List.length island))
                      (islands (self p))).
  { unfold vs. rewrite map_map. apply map_ext. intros island.
    rewrite length_map. reflexivity. }
  assert (Hn : List.length (map (fun cs => JList (map asdict_candidate cs)) vs)
               = List.length (islands (self p))).
  { unfold vs. rewrite !length_map. reflexivity. }
  unfold load_checkpoint, checkpoint_of, best_content, total_candidates. rewrite Hdoc.
  destruct (best_candidate (self p)) as [b|] eqn:Hbest.
  - set (c := deref (heap p) b).
    assert (Ht : json_truthy (asdict_candidate c) = true) by reflexivity.
    assert (Hg : getitem (asdict_candidate c) "content" = Ok (JStr (Candidate.content c)))
      by reflexivity.
    pose proof (candidate_of_asdict c) as Hc.
    remember (asdict_candidate c) as bc eqn:Ebc. clear Ebc.
    simpl. rewrite Ht, Hg. simpl.
    rewrite map_result_lengths. simpl.
    match goal with |- context [__init__ ?args h r] =>
      destruct (__init___spec args h r) as (isl0 & cells & r' & Hinit & _)
    end.
    rewrite Hinit. simpl.
    destruct (hydrate_islands_values vs (h ++ cells)) as (isl & Hisl & Hvals).
    rewrite Hisl. simpl.
    rewrite Hc. simpl.
    rewrite map_result_stats. simpl.
    eexists. split; [reflexivity|]. split.
    + unfold engine_state. simpl. rewrite Hbest. simpl. f_equal.
      * rewrite deref_middle. reflexivity.
      * specialize (Hvals [c]). rewrite <- !app_assoc in *. exact Hvals.
    + cbn [self seed population_size num_islands mutation_model evaluation_model
           elitism crossover_rate mutation_rate total_evaluations].
      rewrite Hlens, Hn. repeat split; reflexivity.
  - simpl. rewrite map_result_lengths. simpl.
    match goal with |- context [__init__ ?args h r] =>
      destruct (__init___spec args h r) as (isl0 & cells & r' & Hinit & _)
    end.
    rewrite Hinit. simpl.
    destruct (hydrate_islands_values vs (h ++ cells)) as (isl & Hisl & Hvals).
    rewrite Hisl. simpl.
    rewrite map_result_stats. simpl.
    eexists. split; [reflexivity|]. split.
    + unfold engine_state. simpl. rewrite Hbest. simpl. f_equal.
      specialize (Hvals []). rewrite !app_nil_r in Hvals. exact Hvals.
    + cbn [self seed population_size num_islands mutation_model evaluation_model
           elitism crossover_rate mutation_rate total_evaluations].
      rewrite Hlens, Hn. repeat split; reflexivity.
Qed.

(** X12. The evolver that [continue_evolution] rebuilds from a saved
    checkpoint never gets the settings of the run that wrote it: its seed is
    the content of the saved best candidate (the empty string without one),
    its population size is the number of saved candidates, its island count
    the number of saved islands, elitism is on, the rates are 0.6 and 0.4,
    the models are the default ones and the evaluation counter starts again
    at 0. Loading such a checkpoint never fails. *)
Theorem resumed_evolver_uses_defaults (task_id : string) (p : Process) (h : Heap)
    (r : RNG) :
  exists p',
    load_checkpoint (checkpoint_of task_id p) h r = Ok p' /\
    seed (self p') = best_content p /\
    population_size (self p') = total_candidates (self p) /\
    num_islands (self p') = Z.of_nat (List.length (islands (self p))) /\
    mutation_model (self p') = default_model /\
    evaluation_model (self p') = default_model /\
    elitism (self p') = true /\
    crossover_rate (self p') = (6 # 10)%Q /\
    mutation_rate (self p') = (4 # 10)%Q /\
    total_evaluations (self p') = 0.
Proof.
  destruct (load_checkpoint_of task_id p h r) as (p' & Hload & _ & Hrest).
  exists p'. split; [exact Hload | exact Hrest].
Qed.

(** X13. [continue_evolution] writes at most one file, the checkpoint of
    the task: every other path, the status file of the task among them, is
    left as it was. Without a checkpoint file it reports failure, builds no
    evolver and writes nothing; with one, a call that returns has replaced
    the checkpoint by that of the evolver it ran and reports success. *)
Theorem continue_evolution_writes_only_checkpoint (task_id : string) (k : Z)
    (dir : string) (fs : FileSystem) (h : Heap) (r : RNG)
    (doc : JSON) (fs' : FileSystem) (o : option Process) :
  continue_evolution task_id k dir fs h r = Ok (doc, fs', o) ->
  (forall path, path <> checkpoint_path dir task_id -> fs' !! path = fs !! path) /\
  fs' !! status_path dir task_id = fs !! status_path dir task_id /\
  (fs !! checkpoint_path dir task_id = None ->
     fs' = fs /\ o = None /\ getitem doc "success" = Ok (JBool false)) /\
  (is_Some (fs !! checkpoint_path dir task_id) ->
     exists p2, o = Some p2 /\
       fs' !! checkpoint_path dir task_id = Some (checkpoint_of task_id p2) /\
       getitem doc "success" = Ok (JBool true)).
Proof.
  intros H. unfold continue_evolution in H.
  assert (Hframe : forall path, path <> checkpoint_path dir task_id ->
                     fs' !! path = fs !! path).
  { destruct (fs !! checkpoint_path dir task_id) as [checkpoint|].
    - bind_in H as evolver Hload. bind_in H as p1 Hrun. injection H as _ <- _.
      intros path Hne. unfold save_checkpoint. apply lookup_insert_ne. congruence.
    - injection H as _ <- _. reflexivity. }
  split; [exact Hframe|]. split.
  { apply Hframe. intros Heq. symmetry in Heq.
    exact (checkpoint_path_ne_status_path dir task_id Heq). }
  destruct (fs !! checkpoint_path dir task_id) as [checkpoint|].
  - split; [discriminate|]. intros _.
    bind_in H as evolver Hload. bind_in H as p1 Hrun. injection H as <- <- <-.
    exists p1. split; [reflexivity|]. split; [|reflexivity].
    unfold save_checkpoint. apply lookup_insert_eq.
  - injection H as <- <- <-. split.
    + intros _. split; [reflexivity|]. split; reflexivity.
    + intros [x Hx]. discriminate.
Qed.

Lemma continue_evolution_files_witness :
  (forall path, path <> checkpoint_path "." "t" ->
     snd (fst continued_run) !! path = snd (fst completed_run) !! path) /\
  snd (fst continued_run) !! status_path "." "t"
  = snd (fst completed_run) !! status_path "." "t" /\
  (snd (fst completed_run) !! checkpoint_path "." "t" = None ->
     snd (fst continued_run) = snd (fst completed_run) /\ snd continued_run = None /\
     getitem (fst (fst continued_run)) "success" = Ok (JBool false)) /\
  (is_Some (snd (fst completed_run) !! checkpoint_path "." "t") ->
     exists p2, snd continued_run = Some p2 /\
       snd (fst continued_run) !! checkpoint_path "." "t" = Some (checkpoint_of "t" p2) /\
       getitem (fst (fst continued_run)) "success" = Ok (JBool true)).
Proof.
  apply (continue_evolution_writes_only_checkpoint "t" 1 "." (snd (fst completed_run))
           [] (const_rng 0)).
  vm_compute. reflexivity.
Defined.

Lemma run_generations_extends n : forall p p',
  run_generations n p = Ok p' ->
  generation (self p') = generation (self p) + Z.of_nat n /\
  exists ext, history (self p') = history (self p) ++ ext /\ List.length ext = n.
Proof.
  induction n as [|n IH]; intros p p' H; cbn [run_generations] in H.
  - injection H as <-. split; [lia|]. exists []. rewrite app_nil_r. auto.
  - bind_in H as [stats p1] Hstep. apply IH in H. destruct H as (Hgen & ext & Hhist & Hlen).
    apply evolve_generation_inv in Hstep.
    destruct Hstep as (isl & lp & _ & _ & _ & _ & _ & Hg1 & Hh1 & _).
    split; [lia|]. exists (stats :: ext). rewrite Hhist, Hh1, <- app_assoc.
    split; [reflexivity | cbn [List.length]; lia].
Qed.

(** X14. Continuing a completed run: [continue_evolution] called for the
    task and directory of a [run_evolution] that returned finds the
    checkpoint and loads it without error; if the additional generations
    complete, the generation counter is the one of the first run plus the
    additional generations, the history is the first run's history followed
    by one record per additional generation, and the result reports that
    generation count. *)
Theorem continue_after_run (now : Z) (config : Config.t) (fs : FileSystem)
    (h : Heap) (r : RNG) (doc : JSON) (fs' : FileSystem) (p : Process)
    (k : Z) (h2 : Heap) (r2 : RNG) (doc2 : JSON) (fs2 : FileSystem)
    (o : option Process) :
  run_evolution now config fs h r = Ok (doc, fs', p) ->
  continue_evolution (default ("task_" +:+ str_of_Z now) (Config.task_id config)) k
    (default "." (Config.output_dir config)) fs' h2 r2 = Ok (doc2, fs2, o) ->
  exists p2 ext,
    o = Some p2 /\
    generation (self p2) = generation (self p) + Z.of_nat (Z.to_nat k) /\
    history (self p2) = history (self p) ++ ext /\
    List.length ext = Z.to_nat k /\
    getitem doc2 "generations" = Ok (JInt (generation (self p2))).
Proof.
  intros Hrun Hcont.
  set (task_id := default ("task_" +:+ str_of_Z now) (Config.task_id config)) in *.
  set (dir := default "." (Config.output_dir config)) in *.
  assert (Hfile : exists p1, fs' !! checkpoint_path dir task_id = Some (checkpoint_of task_id p1)
                             /\ self p = self p1).
  { unfold run_evolution in Hrun. fold task_id dir in Hrun.
    bind_in Hrun as evolver Hinit. bind_in Hrun as [p1 fs1] Hloop.
    destruct (default 20 (Config.max_generations config) <=? 0) eqn:Hmax; [discriminate|].
    apply Z.leb_gt in Hmax.
    unfold get_pareto_front in Hrun. injection Hrun as _ <- <-.
    apply evolution_loop_files in Hloop. destruct Hloop as [_ Hfiles].
    destruct Hfiles as [Hcp _]; [lia|].
    exists p1. split; [|reflexivity].
    rewrite lookup_insert_ne; [exact Hcp|].
    intros Heq. symmetry in Heq. exact (checkpoint_path_ne_status_path dir task_id Heq). }
  destruct Hfile as (p1 & Hcp & Hself).
  unfold continue_evolution in Hcont. rewrite Hcp in Hcont.
  destruct (load_checkpoint_of task_id p1 h2 r2) as (q & Hload & Hstate & _).
  rewrite Hload in Hcont. cbn [mbind Result_bind] in Hcont.
  bind_in Hcont as p2 Hgens. injection Hcont as <- _ <-.
  apply run_generations_extends in Hgens. destruct Hgens as (Hgen & ext & Hhist & Hlen).
  unfold engine_state in Hstate. injection Hstate as Hg _ _ Hh.
  exists p2, ext. split; [reflexivity|]. rewrite Hself.
  split; [lia|]. split; [congruence|]. split; [exact Hlen | reflexivity].
Qed.

Lemma continue_after_run_witness :
  exists p2 ext,
    snd continued_run = Some p2 /\
    generation (self p2) = generation (self (snd completed_run)) + Z.of_nat (Z.to_nat 1) /\
    history (self p2) = history (self (snd completed_run)) ++ ext /\
    List.length ext = Z.to_nat 1 /\
    getitem (fst (fst continued_run)) "generations" = Ok (JInt (generation (self p2))).
Proof.
  apply (continue_after_run 0 two_generations ∅ [] (const_rng 0)
           (fst (fst completed_run)) (snd (fst completed_run)) (snd completed_run)
           1 [] (const_rng 0)
           (fst (fst continued_run)) (snd (fst continued_run)) (snd continued_run)).
  - vm_compute. reflexivity.
  - vm_compute. reflexivity.
Defined.

(** ** Statistics *)









(** ** The pareto pass *)

Lemma novelty_of_range (h : Heap) all a :
  (0 <= novelty_of h all a)%Q /\ (novelty_of h all a <= 1)%Q.
Proof.
  unfold novelty_of.
  set (others := map (fun b => Candidate.content (deref h b)) _).
  destruct others as [|o others'] eqn:E; [split; lra|].
  rewrite <- E. set (similar := List.filter _ others).
  assert (Hle : (List.length similar <= List.length others)%nat)
    by apply filter_length_le.
  assert (Hpos : (0 < inject_Z (Z.of_nat (List.length others)))%Q).
  { rewrite <- (Zlt_Qlt 0). rewrite E. cbn [List.length]. lia. }
  assert (Hr0 : (0 <= inject_Z (Z.of_nat (List.length similar))
                      / inject_Z (Z.of_nat (List.length others)))%Q).
  { apply Qle_shift_div_l; [exact Hpos|]. rewrite Qmult_0_l, <- (Zle_Qle 0). lia. }
  assert (Hr1 : (inject_Z (Z.of_nat (List.length similar))
                 / inject_Z (Z.of_nat (List.length others)) <= 1)%Q).
  { apply Qle_shift_div_r; [exact Hpos|]. rewrite Qmult_1_l, <- Zle_Qle. lia. }
  split; lra.
Qed.

Lemma list_eq_deref (h h' : Heap) :
  List.length h' = List.length h ->
  (forall a, (a < List.length h)%nat -> deref h' a = deref h a) ->
  h' = h.
Proof.
  intros Hlen Hcells. apply list_eq. intros i.
  destruct (Nat.lt_ge_cases i (List.length h)) as [Hlt|Hge].
  - specialize (Hcells i Hlt). unfold deref in Hcells.
    destruct (lookup_lt_is_Some_2 h i Hlt) as (c & Hc).
    destruct (lookup_lt_is_Some_2 h' i ltac:(lia)) as (c' & Hc').
    rewrite Hc, Hc' in Hcells. change (c' = c) in Hcells.
    rewrite Hc, Hc', Hcells. reflexivity.
  - rewrite !lookup_ge_None_2 by lia. reflexivity.
Qed.

Lemma assign_novelty_again all (h : Heap) :
  let h1 := assign_novelty all all h in
  assign_novelty all all h1 = h1.
Proof.
  intros h1.
  destruct (assign_novelty_spec all all h h (same_but_novelty_refl _)) as [[Hlen1 Hs1] Hc1].
  fold h1 in Hlen1, Hs1, Hc1.
  destruct (assign_novelty_spec all all h1 h1 (same_but_novelty_refl _)) as [[Hlen2 Hs2] Hc2].
  apply list_eq_deref; [exact Hlen2|].
  intros a Ha.
  destruct (decide (a ∈ all)) as [Hin|Hout].
  - rewrite (Hs2 a).
    destruct (Hc2 a) as [Hn2 _]. rewrite (Hn2 Hin Ha).
    destruct (Hc1 a) as [Hn1 _].
    assert (Hext : novelty_of h1 all a = novelty_of h all a).
    { apply novelty_of_ext. intros b. rewrite (Hs1 b). split; reflexivity. }
    rewrite Hext, <- (Hn1 Hin ltac:(lia)).
    destruct (deref h1 a). reflexivity.
  - destruct (Hc2 a) as [_ Hsame]. apply Hsame. exact Hout.
Qed.

(** X16. The pareto pass gives every candidate of the islands a novelty
    between 0 and 1, and it is repeatable: a second call right after the
    first returns the same front and changes nothing, the novelty depending
    only on ids and contents. *)
Theorem pareto_front_is_repeatable (p : Process) :
  let front := fst (get_pareto_front p) in
  let p1 := snd (get_pareto_front p) in
  get_pareto_front p1 = (front, p1) /\
  forall a, a ∈ concat (islands (self p)) ->
    (0 <= Candidate.novelty (deref (heap p1) a))%Q /\
    (Candidate.novelty (deref (heap p1) a) <= 1)%Q.
Proof.
  intros front p1. unfold front, p1, get_pareto_front. cbn [fst snd self heap rng].
  set (all := concat (islands (self p))).
  pose proof (assign_novelty_again all (heap p)) as Hagain. cbn zeta in Hagain.
  split; [rewrite Hagain; reflexivity|].
  intros a Ha.
  destruct (assign_novelty_spec all all (heap p) (heap p) (same_but_novelty_refl _))
    as [[Hlen Hs] Hc].
  destruct (Nat.lt_ge_cases a (List.length (heap p))) as [Hlt|Hge].
  - destruct (Hc a) as [Hn _]. rewrite (Hn Ha Hlt). apply novelty_of_range.
  - rewrite deref_ge by lia. cbn. split; lra.
Qed.

(** ** Runs that produce no history *)

Lemma fresh_small_islands_step (args : InitArgs) (h : Heap) (r : RNG) (p0 : Process) :
  __init__ args h r = Ok p0 ->
  1 <= a_num_islands args ->
  (2 <= island_size (a_population_size args) (a_num_islands args) <= 3)%nat ->
  Qlt_bool (fst (random (rng p0))) (a_crossover_rate args) = true ->
  evolve_generation p0 = Raise ValueError.
Proof.
  intros Hinit Hni Hsize Hdraw.
  destruct (__init___spec args h r) as (isl & cells & r' & Hspec & Hlen & Hsz & _).
  rewrite Hspec in Hinit. injection Hinit as <-.
  destruct isl as [|island rest]; [cbn [List.length] in Hlen; lia|].
  apply Forall_cons in Hsz. destruct Hsz as [Hisland _].
  unfold evolve_generation. cbn [self islands evolve_islands].
  rewrite evolve_island_small; [reflexivity | | | exact Hdraw].
  - rewrite Hisland. exact Hsize.
  - cbn [population_size num_islands set_generation].
    unfold island_size in Hsize. lia.
Qed.

(** C3. The claim fails for the valid configurations whose islands have
    two or three candidates: when the first [random.random()] of the first
    generation is below [crossover_rate], the run of one or more generations
    raises [ValueError] in that generation, from a fresh evolver and from
    [run_evolution] alike, so that no statistics record is produced and
    nothing is returned. *)
Theorem history_run_raises_on_small_islands (now : Z) (config : Config.t)
    (fs : FileSystem) (r : RNG) (p0 : Process) :
  let args := init_args_of config in
  let n := Z.to_nat (default 20 (Config.max_generations config)) in
  __init__ args [] r = Ok p0 ->
  1 <= a_num_islands args ->
  (2 <= island_size (a_population_size args) (a_num_islands args) <= 3)%nat ->
  Qlt_bool (fst (random (rng p0))) (a_crossover_rate args) = true ->
  (1 <= n)%nat ->
  fresh_run args r n = Raise ValueError /\
  run_evolution now config fs [] r = Raise ValueError.
Proof.
  intros args n Hinit Hni Hsize Hdraw Hn.
  pose proof (fresh_small_islands_step args [] r p0 Hinit Hni Hsize Hdraw) as Hstep.
  destruct n as [|n'] eqn:En; [lia|]. split.
  - unfold fresh_run. rewrite Hinit. cbn [mbind Result_bind run_generations].
    rewrite Hstep. reflexivity.
  - unfold run_evolution. fold args. rewrite Hinit. cbn [mbind Result_bind].
    fold n. rewrite En. cbn [evolution_loop]. rewrite Hstep. reflexivity.
Qed.

Lemma history_run_raises_witness :
  fresh_run (init_args_of six_in_two) (const_rng 0) 3 = Raise ValueError /\
  run_evolution 0 six_in_two ∅ [] (const_rng 0) = Raise ValueError.
Proof.
  eapply (history_run_raises_on_small_islands 0 six_in_two ∅ (const_rng 0)).
  - vm_compute. reflexivity.
  - vm_compute. discriminate.
  - vm_compute. split; lia.
  - vm_compute. reflexivity.
  - vm_compute. lia.
Defined.

(** ** A single island *)

Lemma after_migration_single gen (isl : list (list addr)) :
  (List.length isl <= 1)%nat -> after_migration gen isl = isl.
Proof.
  intros Hlen. unfold after_migration.
  replace (1 <? List.length isl)%nat with false
    by (symmetry; apply Nat.ltb_ge; exact Hlen).
  rewrite andb_false_r. reflexivity.
Qed.

(** X18. Migration needs two islands: in a run from a fresh evolver with
    at most one island, every island has exactly its nominal size
    [population_size // num_islands] after any number of completed
    generations, the multiples of five included. *)
Theorem single_island_keeps_nominal_size (args : InitArgs) (r : RNG) (n : nat)
    (p : Process) :
  a_num_islands args <= 1 ->
  fresh_run args r n = Ok p ->
  (List.length (islands (self p)) <= 1)%nat /\
  Forall (fun l => List.length l
                   = island_size (a_population_size args) (a_num_islands args))
         (islands (self p)).
Proof.
  intros Hni H. unfold fresh_run in H. bind_in H as p0 Hinit.
  pose proof (reached_init _ _ _ Hinit) as Hr0.
  set (P := fun q : Process =>
    reached q /\
    population_size (self q) = a_population_size args /\
    num_islands (self q) = a_num_islands args /\
    (List.length (islands (self q)) <= 1)%nat /\
    Forall (fun l => List.length l
                     = island_size (a_population_size args) (a_num_islands args))
           (islands (self q))).
  assert (HP : P p).
  { eapply (run_generations_ind P); [| |exact H].
    - intros q stats q' (Hrq & Hps & Hnis & Hlen & Hall) Hstep.
      pose proof (reached_step _ _ _ Hrq Hstep) as Hrq'.
      apply evolve_generation_inv in Hstep.
      destruct Hstep as (isl & lp & Hloop & _ & _ & _ & Hisl & _ & _ & _ & Hcfg).
      destruct Hcfg as (_ & _ & Hps' & Hni' & _).
      destruct Hrq as (_ & _ & _ & Hsz & _).
      apply evolve_islands_size in Hloop; [|exact Hsz].
      destruct Hloop as [Hl Hsizes].
      cbn [population_size num_islands set_generation] in Hsizes.
      rewrite after_migration_single in Hisl by lia.
      split; [exact Hrq'|]. split; [congruence|]. split; [congruence|].
      rewrite Hisl. split; [lia|].
      rewrite Hps, Hnis in Hsizes.
      eapply Forall_impl; [exact Hsizes|]. cbn beta. intros l [Hl1 _]. exact Hl1.
    - destruct (__init___spec args [] r) as (isl & cells & r' & Hspec & Hlen & Hsz & _).
      rewrite Hspec in Hinit. injection Hinit as <-.
      split; [exact Hr0|]. cbn [self population_size num_islands islands].
      split; [reflexivity|]. split; [reflexivity|]. split; [lia | exact Hsz]. }
  destruct HP as (_ & _ & _ & Hlen & Hall). split; assumption.
Qed.

Lemma single_island_size_witness :
  (List.length (islands (self one_island_after_five)) <= 1)%nat /\
  Forall (fun l => List.length l
                   = island_size (a_population_size (default_args "hello world" "hello" 4 1))
                       (a_num_islands (default_args "hello world" "hello" 4 1)))
         (islands (self one_island_after_five)).
Proof.
  apply (single_island_keeps_nominal_size (default_args "hello world" "hello" 4 1)
           (const_rng 0) 5 one_island_after_five).
  - vm_compute. discriminate.
  - vm_compute. reflexivity.
Defined.
